(** * TrueType glyph pens (fontTools.pens.ttGlyphPen)

    A shallow embedding of [Lib/fontTools/pens/ttGlyphPen.py]: the shared
    base pen [TTGlyphBasePen] with its component resolution and glyph
    finalizer, the segment pen [TTGlyphPen] and the point pen
    [TTGlyphPointPen], followed by the properties the specification states
    about them.

    Numbers.  The pens receive Python floats (or ints).  Only comparisons,
    equality tests and the imported quantizer touch them, so a finite float
    is represented by the rational it denotes ([Q]); comparisons on floats
    are exact, hence they agree with [Qle_bool] and [Qeq_bool].  NaN and the
    infinities are outside the model.  List lengths and indices are Python
    ints ([Z]), with Python's negative indexing written out. *)

From Stdlib Require Import ZArith QArith Qround List Bool Lia.
From stdpp Require Import base option list gmap strings sorting.

Local Open Scope Z_scope.

(** ** Values *)

Definition Point : Type := (Q * Q)%type.

(** Tuple equality [p == q] on two points. *)
Definition pointEq (p q : Point) : bool :=
  Qeq_bool (fst p) (fst q) && Qeq_bool (snd p) (snd q).

(** A transformation is the 6-tuple [(a, b, c, d, dx, dy)] of the type
    annotation [Tuple[float, float, float, float, float, float]]. *)
Record Transformation : Type := Affine {
  t_a : Q; t_b : Q; t_c : Q; t_d : Q; t_dx : Q; t_dy : Q
}.

(** [transformation[:4]] *)
Definition linearPart (t : Transformation) : Q * Q * Q * Q :=
  (t_a t, t_b t, t_c t, t_d t).

Definition any4 (f : Q -> bool) (q : Q * Q * Q * Q) : bool :=
  let '(a, b, c, d) := q in f a || f b || f c || f d.

Definition map4 (f : Q -> Q) (q : Q * Q * Q * Q) : Q * Q * Q * Q :=
  let '(a, b, c, d) := q in (f a, f b, f c, f d).

Definition Qlt_bool (x y : Q) : bool := negb (Qle_bool y x).

(** The exceptions the pens raise. *)
Inductive Exception : Type :=
| AssertionError
| NotImplementedError
| IndexError
| KeyError
| OverflowError.

(** [GlyphComponent]: the attribute [transform] exists only when it was
    assigned. *)
Module GlyphComponent.
Record t : Type := mk {
  glyphName : string;
  x : Z;
  y : Z;
  transform : option ((Q * Q) * (Q * Q));
  flags : Z
}.
End GlyphComponent.

(** [Glyph]: the attributes [_glyph] assigns.  [components] exists on a
    composite glyph only, [program] on a simple one; [program] is the
    bytecode of the instruction program. *)
Module Glyph.
Record t : Type := mk {
  coordinates : list (Z * Z);
  endPtsOfContours : list Z;
  flags : list Z;
  numberOfContours : Z;
  components : option (list GlyphComponent.t);
  program : option (list Z)
}.
End Glyph.

(** ** Drawing protocols

    What a glyph of the glyph set does when asked to draw itself: the
    sequence of calls it makes on the pen it is given. *)

(** The variadic argument tuple of [qCurveTo]: empty, or some off-curve
    points followed by a last point that may be [None]. *)
Inductive QCurveArgs : Type :=
| QNoArgs
| QArgs (offCurve : list Point) (onCurve : option Point).

Inductive SegmentCall : Type :=
| MoveTo (pt : Point)
| LineTo (pt : Point)
| CurveTo (pts : list (option Point))
| QCurveTo (args : QCurveArgs)
| ClosePath
| EndPath
| AddComponent (baseGlyphName : string) (transformation : Transformation).

Inductive PointCall : Type :=
| BeginPath
| AddPoint (pt : Point) (segmentType : option string)
| EndPointPath
| AddPointComponent (baseGlyphName : string) (transformation : Transformation).

(** Modelled from the spec: an entry of the external glyph set, "something
    drawable through either drawing protocol"; [draw] and [drawPoints] are
    the calls the glyph makes on a segment pen and on a point pen. *)
Record GlyphObject : Type := mkGlyphObject {
  draw : list SegmentCall;
  drawPoints : list PointCall
}.

(** ** Pen state: the attributes of a [TTGlyphBasePen] instance *)

Record Pen : Type := mkPen {
  glyphSet : gmap string GlyphObject;
  handleOverflowingTransforms : bool;
  points : list Point;
  endPts : list Z;
  types : list Z;
  components : list (string * Transformation);
  currentPath : option (list Point)
}.

Definition set_points (v : list Point) (s : Pen) : Pen :=
  mkPen (glyphSet s) (handleOverflowingTransforms s) v (endPts s) (types s)
        (components s) (currentPath s).
Definition set_endPts (v : list Z) (s : Pen) : Pen :=
  mkPen (glyphSet s) (handleOverflowingTransforms s) (points s) v (types s)
        (components s) (currentPath s).
Definition set_types (v : list Z) (s : Pen) : Pen :=
  mkPen (glyphSet s) (handleOverflowingTransforms s) (points s) (endPts s) v
        (components s) (currentPath s).
Definition set_components (v : list (string * Transformation)) (s : Pen) : Pen :=
  mkPen (glyphSet s) (handleOverflowingTransforms s) (points s) (endPts s)
        (types s) v (currentPath s).
Definition set_currentPath (v : option (list Point)) (s : Pen) : Pen :=
  mkPen (glyphSet s) (handleOverflowingTransforms s) (points s) (endPts s)
        (types s) (components s) v.

(** ** Methods as state transformers

    A method call runs on a pen and either returns a value, or raises; in
    both cases it leaves a pen behind (an exception does not undo the
    mutations made before it).  [OutOfFuel] is the outcome of a loop that
    was cut off by its iteration bound. *)

Inductive Outcome (A : Type) : Type :=
| Returns (a : A) (s : Pen)
| Raises (e : Exception) (s : Pen)
| OutOfFuel (s : Pen).
Arguments Returns {A} a s.
Arguments Raises {A} e s.
Arguments OutOfFuel {A} s.

Definition Method (A : Type) : Type := Pen -> Outcome A.

Definition ret {A} (a : A) : Method A := fun s => Returns a s.
Definition raise {A} (e : Exception) : Method A := fun s => Raises e s.
Definition bind {A B} (m : Method A) (k : A -> Method B) : Method B :=
  fun s =>
    match m s with
    | Returns a s' => k a s'
    | Raises e s' => Raises e s'
    | OutOfFuel s' => OutOfFuel s'
    end.
Definition get : Method Pen := fun s => Returns s s.
Definition modify (f : Pen -> Pen) : Method unit := fun s => Returns tt (f s).
Definition assert (b : bool) : Method unit :=
  if b then ret tt else raise AssertionError.

Notation "'let*' x ':=' m 'in' k" := (bind m (fun x => k))
  (at level 10, x name, m at level 200, k at level 200).
Notation "m >> k" := (bind m (fun _ => k))
  (at level 90, right associativity).

(** The pen left behind, whatever the outcome. *)
Definition penAfter {A} (o : Outcome A) : Pen :=
  match o with
  | Returns _ s => s
  | Raises _ s => s
  | OutOfFuel s => s
  end.

(** Python lists. *)
Definition pyLen {A} (l : list A) : Z := Z.of_nat (length l).

(** [l[i]] for a Python int [i]: negative indices count from the end. *)
Definition pyIndex {A} (l : list A) (i : Z) : option A :=
  if (0 <=? i) && (i <? pyLen l) then l !! Z.to_nat i
  else if (- pyLen l <=? i) && (i <? 0) then l !! Z.to_nat (pyLen l + i)
  else None.

(** The truth value of a list: [bool(l)]. *)
Definition truthy {A} (l : list A) : bool :=
  match l with
  | [] => false
  | _ :: _ => true
  end.

(** [o is None] *)
Definition isNone {A} (o : option A) : bool :=
  match o with
  | None => true
  | Some _ => false
  end.

(** [l.pop()] on the last element. *)
Definition pyPop {A} (l : list A) : option (list A) :=
  match l with
  | [] => None
  | _ => Some (removelast l)
  end.

(** ** Imported helpers

    [fontTools.misc.fixedTools], [fontTools.misc.roundTools],
    [GlyphCoordinates.toInt] and the [Transform] behind [TransformPen] are
    not part of this file.  They compute on floats; the pens only pass
    values through them, so they are taken as an interface. *)
Class FontTools : Type := {
  (** [floatToFixedToFloat(value, precisionBits)] *)
  floatToFixedToFloat : Q -> Z -> Q;
  (** [otRound(value)] *)
  otRound : Q -> Z;
  (** the rounding of one coordinate in [GlyphCoordinates.toInt] *)
  toInt : Q -> Z;
  (** [transformPoint(pt)] of the [Transform] built from [t] *)
  transformPoint : Transformation -> Point -> Point;
  (** [transform(u)] of the [Transform] built from [t] *)
  transformTransform : Transformation -> Transformation -> Transformation
}.

(** [MAX_F2DOT14], "the maximum positive value that can still be encoded as
    an F2Dot14: i.e. 1.99993896484375" (docstring of [__init__]). *)
Definition MAX_F2DOT14 : Q := 32767 # 16384.

(** ** TTGlyphBasePen *)

Module TTGlyphBasePen.
Section Methods.
Context `{FontTools}.

(** The method [_decompose] is supplied by the subclass. *)
Variable _decompose : string -> Transformation -> Method unit.

(** [__init__] *)
Definition new (glyphSet : gmap string GlyphObject)
    (handleOverflowingTransforms : bool) : Pen :=
  mkPen glyphSet handleOverflowingTransforms [] [] [] [] None.

(** [init] *)
Definition init : Method unit :=
  modify (fun s =>
    mkPen (glyphSet s) (handleOverflowingTransforms s) [] [] [] [] None).

(** [addComponent] *)
Definition addComponent (baseGlyphName : string)
    (transformation : Transformation) : Method unit :=
  modify (fun s =>
    set_components (components s ++ [(baseGlyphName, transformation)]) s).

(** [any(s > 2 or s < -2 for (glyphName, transformation) in
    self.components for s in transformation[:4])] *)
Definition anyOverflow (cs : list (string * Transformation)) : bool :=
  existsb
    (fun c => any4 (fun s => Qlt_bool 2 s || Qlt_bool s (-2)) (linearPart (snd c)))
    cs.

(** [MAX_F2DOT14 < s <= 2] *)
Definition almostTwo (s : Q) : bool :=
  Qlt_bool MAX_F2DOT14 s && Qle_bool s 2.

(** [transformation != (1, 0, 0, 1)] *)
Definition notIdentity (q : Q * Q * Q * Q) : bool :=
  let '(a, b, c, d) := q in
  negb (Qeq_bool a 1 && Qeq_bool b 0 && Qeq_bool c 0 && Qeq_bool d 1).

(** Lines 100-118: the record built for a component that is kept. *)
Definition buildComponent (handle : bool) (glyphName : string)
    (transformation : Transformation) (componentFlags : Z)
  : GlyphComponent.t :=
  let cx := otRound (t_dx transformation) in
  let cy := otRound (t_dy transformation) in
  let transformation :=
    map4 (fun v => floatToFixedToFloat v 14) (linearPart transformation) in
  let transform :=
    if notIdentity transformation then
      let transformation :=
        if handle && any4 almostTwo transformation
        then map4 (fun s => if almostTwo s then MAX_F2DOT14 else s) transformation
        else transformation in
      let '(a, b, c, d) := transformation in
      Some ((a, b), (c, d))
    else None in
  GlyphComponent.mk glyphName cx cy transform componentFlags.

(** The [for] loop of [_buildComponents].  Python iterates over
    [self.components] by position and looks the list up afresh at every
    step, so components appended while the loop runs (a decomposed glyph
    may add some) are visited too; [i] is that position, [built] the
    local list [components], and [fuel] bounds the number of iterations. *)
Fixpoint resolveFrom (fuel : nat) (overflowing : bool) (componentFlags : Z)
    (i : nat) (built : list GlyphComponent.t) : Method (list GlyphComponent.t) :=
  fun s =>
    match components s !! i with
    | None => Returns built s
    | Some (glyphName, transformation) =>
      match fuel with
      | O => OutOfFuel s
      | S fuel =>
        match glyphSet s !! glyphName with
        | None =>
          (* warning logged, component skipped *)
          resolveFrom fuel overflowing componentFlags (S i) built s
        | Some _ =>
          if truthy (points s)
             || (handleOverflowingTransforms s && overflowing)
          then
            (_decompose glyphName transformation >>
             resolveFrom fuel overflowing componentFlags (S i) built) s
          else
            let component :=
              buildComponent (handleOverflowingTransforms s) glyphName
                             transformation componentFlags in
            resolveFrom fuel overflowing componentFlags (S i)
                        (built ++ [component]) s
        end
      end
    end.

(** [_buildComponents] *)
Definition _buildComponents (fuel : nat) (componentFlags : Z)
  : Method (list GlyphComponent.t) :=
  let* s := get in
  let overflowing :=
    if handleOverflowingTransforms s then anyOverflow (components s)
    else false in
  resolveFrom fuel overflowing componentFlags 0 [] .

(** [array("B", self.types)] accepts unsigned bytes only. *)
Definition arrayB (l : list Z) : Method (list Z) :=
  if forallb (fun v => (0 <=? v) && (v <=? 255)) l then ret l
  else raise OverflowError.

(** [_glyph] *)
Definition _glyph (fuel : nat) (componentFlags : Z) : Method Glyph.t :=
  let* components := _buildComponents fuel componentFlags in
  let* s := get in
  let coordinates := map (fun p => (toInt (fst p), toInt (snd p))) (points s) in
  let endPtsOfContours := endPts s in
  let* flags := arrayB (types s) in
  init >>
  if truthy components then
    ret (Glyph.mk coordinates endPtsOfContours flags (-1) (Some components) None)
  else
    ret (Glyph.mk coordinates endPtsOfContours flags (pyLen endPtsOfContours)
                  None (Some [])).
End Methods.
End TTGlyphBasePen.

(** ** TTGlyphPen: the segment pen *)

Module TTGlyphPen.
Section Methods.
Context `{FontTools}.

(** [_addPoint] *)
Definition _addPoint (pt : Point) (onCurve : Z) : Method unit :=
  modify (fun s => set_points (points s ++ [pt]) s) >>
  modify (fun s => set_types (types s ++ [onCurve]) s).

(** [_popPoint]: [self.points.pop()], then [self.types.pop()]. *)
Definition _popPoint : Method unit :=
  let* s := get in
  match pyPop (points s) with
  | None => raise IndexError
  | Some l =>
    modify (set_points l) >>
    let* s := get in
    match pyPop (types s) with
    | None => raise IndexError
    | Some l => modify (set_types l)
    end
  end.

(** [_isClosed] *)
Definition _isClosed (s : Pen) : bool :=
  negb (truthy (points s))
  || match last (endPts s) with
     | None => false
     | Some e => e =? pyLen (points s) - 1
     end.

(** [lineTo] *)
Definition lineTo (pt : Point) : Method unit := _addPoint pt 1.

(** [moveTo] *)
Definition moveTo (pt : Point) : Method unit :=
  let* s := get in
  assert (_isClosed s) >>
  _addPoint pt 1.

(** [curveTo] *)
Definition curveTo (pts : list (option Point)) : Method unit :=
  raise NotImplementedError.

(** [for pt in points[:-1]: self._addPoint(pt, 0)] *)
Fixpoint addOffCurve (pts : list Point) : Method unit :=
  match pts with
  | [] => ret tt
  | pt :: pts => _addPoint pt 0 >> addOffCurve pts
  end.

(** [qCurveTo] *)
Definition qCurveTo (args : QCurveArgs) : Method unit :=
  match args with
  | QNoArgs => raise AssertionError
  | QArgs offCurve onCurve =>
    addOffCurve offCurve >>
    match onCurve with
    | Some pt => _addPoint pt 1
    | None => ret tt
    end
  end.

(** [closePath] *)
Definition closePath : Method unit :=
  let* s := get in
  let endPt := pyLen (points s) - 1 in
  if (endPt =? 0)
     || match last (endPts s) with
        | None => false
        | Some e => endPt =? e + 1
        end
  then _popPoint
  else
    let startPt :=
      match last (endPts s) with
      | None => 0
      | Some e => e + 1
      end in
    match pyIndex (points s) startPt, pyIndex (points s) endPt with
    | Some first, Some final =>
      let* endPt :=
        if pointEq first final
        then _popPoint >> ret (endPt - 1)
        else ret endPt in
      modify (fun s => set_endPts (endPts s ++ [endPt]) s)
    | _, _ => raise IndexError
    end.

(** [endPath] *)
Definition endPath : Method unit := closePath.

(** Modelled from the spec: [TransformPen(self, transformation)], the
    "adapter pre-composed with the component's transform": every call is
    forwarded to the pen with its points transformed, a nested component
    with its transformation composed. *)
Definition TransformPen (transformation : Transformation) (call : SegmentCall)
  : Method unit :=
  let tp := transformPoint transformation in
  match call with
  | MoveTo pt => moveTo (tp pt)
  | LineTo pt => lineTo (tp pt)
  | CurveTo pts => curveTo (map (option_map tp) pts)
  | QCurveTo QNoArgs => raise IndexError
  | QCurveTo (QArgs offCurve onCurve) =>
    qCurveTo (QArgs (map tp offCurve) (option_map tp onCurve))
  | ClosePath => closePath
  | EndPath => endPath
  | AddComponent glyphName t =>
    TTGlyphBasePen.addComponent glyphName (transformTransform transformation t)
  end.

(** A glyph drawing itself onto a pen: its calls, one after the other. *)
Fixpoint drawOn (pen : SegmentCall -> Method unit) (calls : list SegmentCall)
  : Method unit :=
  match calls with
  | [] => ret tt
  | call :: calls => pen call >> drawOn pen calls
  end.

(** [_decompose] *)
Definition _decompose (glyphName : string) (transformation : Transformation)
  : Method unit :=
  let tpen := TransformPen transformation in
  let* s := get in
  match glyphSet s !! glyphName with
  | None => raise KeyError
  | Some g => drawOn tpen (draw g)
  end.

(** [glyph] *)
Definition glyph (fuel : nat) (componentFlags : Z) : Method Glyph.t :=
  let* s := get in
  assert (_isClosed s) >>
  TTGlyphBasePen._glyph _decompose fuel componentFlags.

(** A drawing call made on the pen itself. *)
Definition call (c : SegmentCall) : Method unit :=
  match c with
  | MoveTo pt => moveTo pt
  | LineTo pt => lineTo pt
  | CurveTo pts => curveTo pts
  | QCurveTo args => qCurveTo args
  | ClosePath => closePath
  | EndPath => endPath
  | AddComponent glyphName t => TTGlyphBasePen.addComponent glyphName t
  end.
End Methods.
End TTGlyphPen.

(** ** TTGlyphPointPen: the point pen *)

Module TTGlyphPointPen.
Section Methods.
Context `{FontTools}.

(** [beginPath] *)
Definition beginPath : Method unit :=
  let* s := get in
  assert (isNone (currentPath s)) >>
  modify (set_currentPath (Some [])).

(** [endPath] *)
Definition endPath : Method unit :=
  let* s := get in
  match currentPath s with
  | None => raise AssertionError
  | Some path =>
    (if truthy path
     then
       let endPt := pyLen (points s) - 1 in
       modify (fun s => set_endPts (endPts s ++ [endPt]) s)
     else ret tt) >>
    modify (set_currentPath None)
  end.

(** [addPoint]; the arguments [smooth], [name] and [identifier] are not
    used. *)
Definition addPoint (pt : Point) (segmentType : option string) : Method unit :=
  let* s := get in
  assert (negb (isNone (currentPath s))) >>
  match segmentType with
  | None => modify (fun s => set_types (types s ++ [0]) s)
  | Some role =>
    if String.eqb role "qcurve" || String.eqb role "line"
    then modify (fun s => set_types (types s ++ [1]) s)
    else raise NotImplementedError
  end >>
  modify (fun s => set_currentPath (option_map (fun l => l ++ [pt]) (currentPath s)) s) >>
  modify (fun s => set_points (points s ++ [pt]) s).

(** Modelled from the spec: [TransformPointPen(self, transformation)],
    the point-protocol "adapter pre-composed with the component's
    transform". *)
Definition TransformPointPen (transformation : Transformation)
    (call : PointCall) : Method unit :=
  match call with
  | BeginPath => beginPath
  | AddPoint pt segmentType =>
    addPoint (transformPoint transformation pt) segmentType
  | EndPointPath => endPath
  | AddPointComponent glyphName t =>
    TTGlyphBasePen.addComponent glyphName (transformTransform transformation t)
  end.

(** A glyph drawing its points onto a pen. *)
Fixpoint drawPointsOn (pen : PointCall -> Method unit) (calls : list PointCall)
  : Method unit :=
  match calls with
  | [] => ret tt
  | call :: calls => pen call >> drawPointsOn pen calls
  end.

(** [_decompose] *)
Definition _decompose (glyphName : string) (transformation : Transformation)
  : Method unit :=
  let tpen := TransformPointPen transformation in
  let* s := get in
  match glyphSet s !! glyphName with
  | None => raise KeyError
  | Some g => drawPointsOn tpen (drawPoints g)
  end.

(** [glyph] *)
Definition glyph (fuel : nat) (componentFlags : Z) : Method Glyph.t :=
  let* s := get in
  assert (isNone (currentPath s)) >>
  TTGlyphBasePen._glyph _decompose fuel componentFlags.

(** A drawing call made on the pen itself. *)
Definition call (c : PointCall) : Method unit :=
  match c with
  | BeginPath => beginPath
  | AddPoint pt segmentType => addPoint pt segmentType
  | EndPointPath => endPath
  | AddPointComponent glyphName t => TTGlyphBasePen.addComponent glyphName t
  end.
End Methods.
End TTGlyphPointPen.

(** ** A concrete instance of the imported helpers

    Modelled from the spec: exact arithmetic on the rationals, for running
    the pens on examples.  Quantization is "round-to-nearest representable
    value, then read back as real number"; offsets are rounded "to nearest
    integer"; a point goes through the affine map of the transformation. *)
Definition roundHalfUp (v : Q) : Z := Qfloor (v + (1 # 2)).

Definition exactTransformPoint (t : Transformation) (p : Point) : Point :=
  (t_a t * fst p + t_c t * snd p + t_dx t,
   t_b t * fst p + t_d t * snd p + t_dy t)%Q.

Definition exactTransformTransform (t u : Transformation) : Transformation :=
  Affine (t_a u * t_a t + t_b u * t_c t)
         (t_a u * t_b t + t_b u * t_d t)
         (t_c u * t_a t + t_d u * t_c t)
         (t_c u * t_b t + t_d u * t_d t)
         (t_a t * t_dx u + t_c t * t_dy u + t_dx t)
         (t_b t * t_dx u + t_d t * t_dy u + t_dy t)%Q.

Definition exactFontTools : FontTools := {|
  floatToFixedToFloat v bits :=
    Qred (inject_Z (roundHalfUp (v * inject_Z (2 ^ bits))) / inject_Z (2 ^ bits));
  otRound := roundHalfUp;
  toInt := roundHalfUp;
  transformPoint := exactTransformPoint;
  transformTransform := exactTransformTransform
|}.

(** ** Example glyph sets and pens *)

Definition triangle : GlyphObject :=
  mkGlyphObject
    [MoveTo (0, 0)%Q; LineTo (0, 100)%Q; LineTo (100, 0)%Q; ClosePath]
    [BeginPath; AddPoint (0, 0)%Q (Some "line"%string);
     AddPoint (0, 100)%Q (Some "line"%string);
     AddPoint (100, 0)%Q (Some "line"%string); EndPointPath].

(** A glyph with a cubic outline, as a glyph set of another outline format
    would hold. *)
Definition cubicBlob : GlyphObject :=
  mkGlyphObject
    [MoveTo (0, 0)%Q;
     CurveTo [Some (0, 50)%Q; Some (50, 100)%Q; Some (100, 100)%Q];
     ClosePath]
    [BeginPath; AddPoint (0, 0)%Q (Some "curve"%string);
     AddPoint (0, 50)%Q None; AddPoint (50, 100)%Q None;
     AddPoint (100, 100)%Q (Some "curve"%string); EndPointPath].

Definition exampleGlyphSet : gmap string GlyphObject :=
  <["A"%string := triangle]> (<["C"%string := cubicBlob]> ∅).

Definition freshPen : Pen := TTGlyphBasePen.new exampleGlyphSet true.

(** A glyph whose outline is a lone [closePath], and a glyph set with it. *)
Definition strayClose : GlyphObject := mkGlyphObject [ClosePath] [].

Definition strayGlyphSet : gmap string GlyphObject :=
  <["Z"%string := strayClose]> exampleGlyphSet.

(** The pen after [moveTo((1, 1))], [lineTo((1, 1))], [closePath()] and the
    addition of the components "Z" and "A": one contour of one point. *)
Definition strayPen : Pen :=
  mkPen strayGlyphSet true [(1, 1)%Q] [0] [1]
        [("Z"%string, Affine 1 0 0 1 0 0); ("A"%string, Affine 1 0 0 1 0 0)]
        None.

(** A pen that holds one closed contour. *)
Definition penWithContour : Pen :=
  mkPen exampleGlyphSet true [(0, 0); (10, 0); (0, 10)]%Q [2] [1; 1; 1] [] None.

(** * Specification vocabulary

    The predicates and relations in which the properties are stated. *)

(** [m] relates the pen it starts from to the pen it leaves behind,
    whether it returns or raises. *)
Definition respects {A} (R : Pen -> Pen -> Prop) (m : Method A) : Prop :=
  forall s, R s (penAfter (m s)).

(** The constructor arguments of the pen are never reassigned. *)
Definition sameConfig (s s' : Pen) : Prop :=
  glyphSet s' = glyphSet s
  /\ handleOverflowingTransforms s' = handleOverflowingTransforms s.

(** Pending components are only appended ([addComponent]). *)
Definition componentsGrow (s s' : Pen) : Prop :=
  exists l, components s' = components s ++ l.

(** What no drawing call and no decomposition changes. *)
Definition frame (s s' : Pen) : Prop := sameConfig s s' /\ componentsGrow s s'.

(** Every stored point has exactly one flag. *)
Definition flagged (s : Pen) : Prop := length (points s) = length (types s).

Definition keepsFlagged (s s' : Pen) : Prop := flagged s -> flagged s'.

(** The point list is only extended. *)
Definition pointsGrow (s s' : Pen) : Prop :=
  exists l, points s' = points s ++ l.

(** The index at which the contour under construction starts:
    [startPt] in [closePath]. *)
Definition startPt (s : Pen) : Z :=
  match last (endPts s) with
  | None => 0
  | Some e => e + 1
  end.

(** Every accumulated point belongs to a recorded contour. *)
Definition sealed (s : Pen) : Prop := startPt s = pyLen (points s).

(** The loop of decomposition as the specification words it: "for each
    pending (name, transform) in insertion order", a name absent from the
    glyph set is dropped, and otherwise the referenced outline is drawn into
    this glyph and "the component record is discarded entirely".  [step] is
    what drawing one referenced outline does (see [drawTransformed] and
    [drawPointsTransformed]); the loop visits the pending list by position,
    as the code does. *)
Fixpoint decomposeKnownFrom (step : string -> Transformation -> Method unit)
    (fuel : nat) (i : nat) : Method unit :=
  fun s =>
    match components s !! i with
    | None => Returns tt s
    | Some (glyphName, transformation) =>
      match fuel with
      | O => OutOfFuel s
      | S fuel =>
        match glyphSet s !! glyphName with
        | None => decomposeKnownFrom step fuel (S i) s
        | Some _ =>
          (step glyphName transformation >>
           decomposeKnownFrom step fuel (S i)) s
        end
      end
    end.

(** A call of a referenced outline with its points put through the
    transform of the component, and the transform of a nested component
    composed with it. *)
Definition transformCall `{FontTools} (t : Transformation) (c : SegmentCall)
  : SegmentCall :=
  match c with
  | MoveTo pt => MoveTo (transformPoint t pt)
  | LineTo pt => LineTo (transformPoint t pt)
  | CurveTo pts => CurveTo (map (option_map (transformPoint t)) pts)
  | QCurveTo QNoArgs => QCurveTo QNoArgs
  | QCurveTo (QArgs offCurve onCurve) =>
    QCurveTo (QArgs (map (transformPoint t) offCurve)
                    (option_map (transformPoint t) onCurve))
  | ClosePath => ClosePath
  | EndPath => EndPath
  | AddComponent name u => AddComponent name (transformTransform t u)
  end.

Definition transformPointCall `{FontTools} (t : Transformation) (c : PointCall)
  : PointCall :=
  match c with
  | BeginPath => BeginPath
  | AddPoint pt segmentType => AddPoint (transformPoint t pt) segmentType
  | EndPointPath => EndPointPath
  | AddPointComponent name u => AddPointComponent name (transformTransform t u)
  end.

(** What decomposing one component draws, in the words of the
    specification: "the referenced outline's points are appended
    (transformed) directly into this glyph's own Point/Contour Accumulator
    as if hand-drawn".  The outline of the referenced glyph is transformed
    call by call, and these calls are made on the pen itself; nothing here
    goes through [_decompose] or a transforming pen. *)
Definition drawTransformed `{FontTools} (glyphName : string)
    (transformation : Transformation) : Method unit :=
  fun s =>
    match glyphSet s !! glyphName with
    | None => Raises KeyError s
    | Some g =>
      TTGlyphPen.drawOn TTGlyphPen.call
        (map (transformCall transformation) (draw g)) s
    end.

Definition drawPointsTransformed `{FontTools} (glyphName : string)
    (transformation : Transformation) : Method unit :=
  fun s =>
    match glyphSet s !! glyphName with
    | None => Raises KeyError s
    | Some g =>
      TTGlyphPointPen.drawPointsOn TTGlyphPointPen.call
        (map (transformPointCall transformation) (drawPoints g)) s
    end.

(** The pending components the glyph set knows, in order. *)
Definition knownComponents (s : Pen) : list (string * Transformation) :=
  List.filter (fun c => negb (isNone (glyphSet s !! fst c))) (components s).

(** The simple glyph made of the outline a pen holds: integer coordinates,
    flags, contour end indices, and the empty instruction program. *)
Definition simpleGlyphOf `{FontTools} (s : Pen) : Glyph.t :=
  Glyph.mk (map (fun p => (toInt (fst p), toInt (snd p))) (points s))
           (endPts s) (types s) (pyLen (endPts s)) None (Some []).

(** [g] is the glyph of a pen [s] all of whose known pending components
    were decomposed: a simple glyph, whose outline is the one the pen holds
    after the outline of each known pending component was drawn on it by
    [step]. *)
Definition decomposedGlyph `{FontTools}
    (step : string -> Transformation -> Method unit)
    (fuel : nat) (s : Pen) (g : Glyph.t) : Prop :=
  exists s1,
    decomposeKnownFrom step fuel 0 s = Returns tt s1
    /\ g = simpleGlyphOf s1.

(** [g] is the composite glyph that carries the component list [comps]:
    marked by [numberOfContours = -1], without coordinates and without an
    instruction program. *)
Definition compositeOf (comps : list GlyphComponent.t) (g : Glyph.t) : Prop :=
  Glyph.components g = Some comps
  /\ Glyph.numberOfContours g = -1
  /\ Glyph.coordinates g = []
  /\ Glyph.program g = None.

(** The points of an outline given in the point protocol, in order. *)
Definition outlinePoints (calls : list PointCall) : list Point :=
  flat_map (fun c => match c with AddPoint pt _ => [pt] | _ => [] end) calls.

(** The "actual transformed outline points of the referenced glyph" for one
    pending component: none when the glyph set does not know the name. *)
Definition componentPoints `{FontTools} (gs : gmap string GlyphObject)
    (c : string * Transformation) : list Point :=
  match gs !! fst c with
  | Some g => map (transformPoint (snd c)) (outlinePoints (drawPoints g))
  | None => []
  end.

(** The points of a pen all of whose pending components are replaced by
    their transformed outline points, in insertion order. *)
Definition decomposedPoints `{FontTools} (s : Pen) : list Point :=
  points s ++ flat_map (componentPoints (glyphSet s)) (components s).

(** An outline drawn with the segment protocol is well bracketed when every
    [closePath] or [endPath] ends a contour that received at least one
    point, and no contour is left open at the end.  [open] tells whether
    points were drawn since the last contour was ended; [bracketStep] is
    what one call makes of it, [None] for a stray [closePath]. *)
Definition bracketStep (open : bool) (c : SegmentCall) : option bool :=
  match c with
  | MoveTo _ | LineTo _ => Some true
  | CurveTo _ | QCurveTo QNoArgs | AddComponent _ _ => Some open
  | QCurveTo (QArgs offCurve onCurve) =>
    Some (open || truthy offCurve || negb (isNone onCurve))
  | ClosePath | EndPath => if open then Some false else None
  end.

Fixpoint wellBracketed (open : bool) (calls : list SegmentCall) : bool :=
  match calls with
  | [] => negb open
  | c :: calls =>
    match bracketStep open c with
    | Some open' => wellBracketed open' calls
    | None => false
    end
  end.

Definition wellBracketedGlyphSet (gs : gmap string GlyphObject) : Prop :=
  forall name g, gs !! name = Some g -> wellBracketed false (draw g) = true.

(** The pen has recorded a contour, and the points drawn since then are
    none ([open = false]) or at least one ([open = true]). *)
Definition contourState (open : bool) (s : Pen) : Prop :=
  exists e, last (endPts s) = Some e /\ 0 <= e
            /\ if open then e + 1 < pyLen (points s)
               else e + 1 = pyLen (points s).

(** The pen after the points [pts] were appended to it, all with the flag
    [onCurve]. *)
Definition withPoints (onCurve : Z) (pts : list Point) (s : Pen) : Pen :=
  set_types (types s ++ map (fun _ => onCurve) pts)
            (set_points (points s ++ pts) s).

(** A raw transform value the 2.14 format cannot hold: [s > 2 or s < -2]. *)
Definition outOfRange (v : Q) : Prop := (2 < v \/ v < -2)%Q.

(** A quantized value that is "essentially +2.0 but not representable". *)
Definition nearlyTwo (v : Q) : Prop := (MAX_F2DOT14 < v <= 2)%Q.

(** What clamping makes of one transform value [v]. *)
Definition clampedFrom (v v' : Q) : Prop :=
  (nearlyTwo v -> v' = MAX_F2DOT14) /\ ((v <= MAX_F2DOT14)%Q -> v' = v).

(** What a record stores for the quantized value [v]: [v] itself, or (with
    overflow handling on) the clamped maximum. *)
Definition storedFrom (handle : bool) (v v' : Q) : Prop :=
  v' = v \/ (handle = true /\ nearlyTwo v /\ v' = MAX_F2DOT14).

(** [transformation == (1, 0, 0, 1)] *)
Definition isIdentity (a b c d : Q) : Prop :=
  (a == 1 /\ b == 0 /\ c == 0 /\ d == 1)%Q.

(** The flag [addPoint] stores for a segment type, if it accepts it. *)
Definition flagOf (segmentType : option string) : option Z :=
  match segmentType with
  | None => Some 0
  | Some role =>
    if String.eqb role "qcurve" || String.eqb role "line" then Some 1 else None
  end.

(** Outlines that a pen can replay to the end: closed quadratic contours
    only.  For the segment pen: [moveTo] only between contours, no cubic
    segment, no [qCurveTo] without arguments, no nested component, and
    [closePath] or [endPath] only on a contour that received a point.  For
    the point pen: points with accepted segment types, inside sub-paths. *)
Definition replayStep (open : bool) (c : SegmentCall) : option bool :=
  match c with
  | MoveTo _ => if open then None else Some true
  | LineTo _ => Some true
  | QCurveTo (QArgs offCurve onCurve) =>
    Some (open || truthy offCurve || negb (isNone onCurve))
  | ClosePath | EndPath => if open then Some false else None
  | CurveTo _ | QCurveTo QNoArgs | AddComponent _ _ => None
  end.

Fixpoint replayable (open : bool) (calls : list SegmentCall) : bool :=
  match calls with
  | [] => negb open
  | c :: calls =>
    match replayStep open c with
    | Some open' => replayable open' calls
    | None => false
    end
  end.

Definition replayPointStep (inPath : bool) (c : PointCall) : option bool :=
  match c with
  | BeginPath => if inPath then None else Some true
  | AddPoint _ segmentType =>
    if inPath && negb (isNone (flagOf segmentType)) then Some true else None
  | EndPointPath => if inPath then Some false else None
  | AddPointComponent _ _ => None
  end.

Fixpoint replayablePoints (inPath : bool) (calls : list PointCall) : bool :=
  match calls with
  | [] => negb inPath
  | c :: calls =>
    match replayPointStep inPath c with
    | Some inPath' => replayablePoints inPath' calls
    | None => false
    end
  end.

(** The outlines of the pending components that the glyph set knows can
    be replayed, on the segment pen and on the point pen. *)
Definition replayableOutlines (s : Pen) : Prop :=
  forall name t g,
    (name, t) ∈ components s -> glyphSet s !! name = Some g ->
    replayable false (draw g) = true.

Definition replayablePointOutlines (s : Pen) : Prop :=
  forall name t g,
    (name, t) ∈ components s -> glyphSet s !! name = Some g ->
    replayablePoints false (drawPoints g) = true.

(** The pending components are left as they are. *)
Definition keepsComponents (s s' : Pen) : Prop := components s' = components s.

(** ** Vocabulary of the further properties *)

(** Every flag is 0 (off-curve) or 1 (on-curve). *)
Definition bits (s : Pen) : Prop := Forall (fun f => f = 0 \/ f = 1) (types s).

Definition keepsBits (s s' : Pen) : Prop := bits s -> bits s'.

(** The recorded end indices are strictly increasing and lie between 0 and
    the start of the contour under construction. *)
Definition contoursOrdered (s : Pen) : Prop :=
  StronglySorted Z.lt (endPts s)
  /\ Forall (fun e => 0 <= e < startPt s) (endPts s).

(** The segment pen between calls: ordered contours, one flag per point,
    and the points after the last recorded contour are none ([open =
    false]) or at least one ([open = true]). *)
Definition outlineState (open : bool) (s : Pen) : Prop :=
  contoursOrdered s /\ flagged s
  /\ if open then startPt s < pyLen (points s)
     else startPt s = pyLen (points s).

(** The point pen between calls: ordered contours, one flag per point, and
    the points after the last recorded contour are those of the current
    sub-path (none when there is no sub-path). *)
Definition subpathState (s : Pen) : Prop :=
  contoursOrdered s /\ flagged s
  /\ startPt s + pyLen (default [] (currentPath s)) = pyLen (points s).

Definition keepsSubpathState (s s' : Pen) : Prop :=
  subpathState s -> subpathState s'.

(** In addition, the points after the last recorded contour are those of
    the current sub-path, one by one. *)
Definition subpathTracked (s : Pen) : Prop :=
  subpathState s
  /\ drop (Z.to_nat (startPt s)) (points s) = default [] (currentPath s).

Definition keepsSubpathTracked (s s' : Pen) : Prop :=
  subpathTracked s -> subpathTracked s'.

(** The outline arrays of a glyph fit together: end indices strictly
    increasing and inside the coordinate array, one flag per coordinate. *)
Definition outlineWellFormed (g : Glyph.t) : Prop :=
  StronglySorted Z.lt (Glyph.endPtsOfContours g)
  /\ Forall (fun e => 0 <= e < pyLen (Glyph.coordinates g))
            (Glyph.endPtsOfContours g)
  /\ length (Glyph.flags g) = length (Glyph.coordinates g).

(** The three outline lists are only extended. *)
Definition outlineGrows (s s' : Pen) : Prop :=
  points s `prefix_of` points s'
  /\ types s `prefix_of` types s'
  /\ endPts s `prefix_of` endPts s'.

(** The record [_buildComponents] makes of a component when nothing is
    clamped: rounded offset, quantized transform unless it is the identity. *)
Definition plainComponent `{FontTools} (componentFlags : Z)
    (c : string * Transformation) : GlyphComponent.t :=
  let q := map4 (fun v => floatToFixedToFloat v 14) (linearPart (snd c)) in
  GlyphComponent.mk (fst c) (otRound (t_dx (snd c))) (otRound (t_dy (snd c)))
    (if TTGlyphBasePen.notIdentity q
     then let '(a, b, c, d) := q in Some ((a, b), (c, d))
     else None)
    componentFlags.

(** The calls of a sub-path drawn on the point pen. *)
Definition subpathCalls (pts : list (Point * option string)) : list PointCall :=
  BeginPath :: map (fun p => AddPoint (fst p) (snd p)) pts ++ [EndPointPath].

(** A pen that holds a single one-point contour. *)
Definition penWithDot : Pen :=
  mkPen exampleGlyphSet true [(7, 7)%Q] [0] [1] [] None.

(** Proof automation. *)

Arguments pyPop : simpl never.
Arguments pyIndex : simpl never.
Arguments pyLen : simpl never.
Arguments TTGlyphPen.qCurveTo : simpl never.
Arguments TTGlyphPen.moveTo : simpl never.
Arguments TTGlyphPen.closePath : simpl never.

Ltac split_match :=
  repeat match goal with
         | |- context [match ?x with _ => _ end] => destruct x eqn:?; simpl
         end.

(** A pen that differs from [s] in its accumulated outline only, or by
    components appended. *)
Ltac solve_frame :=
  red; simpl;
  (split;
   [ split; reflexivity
   | solve [ exists []; symmetry; apply app_nil_r | eexists; reflexivity ] ]).

Ltac run_method :=
  unfold bind, get, modify, assert, ret, raise; simpl.

(** * Properties *)

(** ** Reasoning about method calls *)


Section Respects.
Variable R : Pen -> Pen -> Prop.
Hypothesis R_refl : forall s, R s s.
Hypothesis R_trans : forall s1 s2 s3, R s1 s2 -> R s2 s3 -> R s1 s3.

Lemma respects_ret {A} (a : A) : respects R (ret a).
Proof. intros s. apply R_refl. Qed.

Lemma respects_raise {A} e : respects R (@raise A e).
Proof. intros s. apply R_refl. Qed.

Lemma respects_get : respects R get.
Proof. intros s. apply R_refl. Qed.

Lemma respects_assert b : respects R (assert b).
Proof. destruct b; [apply respects_ret | apply respects_raise]. Qed.

Lemma respects_modify f : (forall s, R s (f s)) -> respects R (modify f).
Proof. intros Hf s. apply Hf. Qed.

Lemma respects_bind {A B} (m : Method A) (k : A -> Method B) :
  respects R m -> (forall a, respects R (k a)) -> respects R (bind m k).
Proof.
  intros Hm Hk s. unfold bind. specialize (Hm s).
  destruct (m s) as [a s1|e s1|s1]; simpl in *; trivial.
  eapply R_trans; [exact Hm | apply Hk].
Qed.

(** A continuation that inspects the pen it is handed. *)
Lemma respects_bind_get {B} (k : Pen -> Method B) :
  (forall s, R s (penAfter (k s s))) -> respects R (bind get k).
Proof. intros Hk s. apply Hk. Qed.
End Respects.

(** One step through a [bind], for a transitive relation. *)
Ltac through_bind Htrans := apply (respects_bind _ Htrans); [|intros ?].


Lemma sameConfig_refl s : sameConfig s s.
Proof. split; reflexivity. Qed.

Lemma sameConfig_trans s1 s2 s3 :
  sameConfig s1 s2 -> sameConfig s2 s3 -> sameConfig s1 s3.
Proof. intros [? ?] [? ?]. split; congruence. Qed.

Lemma frame_refl s : frame s s.
Proof.
  split; [apply sameConfig_refl|]. exists []. symmetry. apply app_nil_r.
Qed.

Lemma frame_trans s1 s2 s3 : frame s1 s2 -> frame s2 s3 -> frame s1 s3.
Proof.
  intros [Hc1 [l1 H1]] [Hc2 [l2 H2]]. split; [eapply sameConfig_trans; eassumption|].
  exists (l1 ++ l2). rewrite H2, H1. symmetry. apply app_assoc.
Qed.

Lemma keepsFlagged_refl s : keepsFlagged s s.
Proof. intros ?. assumption. Qed.

Lemma keepsFlagged_trans s1 s2 s3 :
  keepsFlagged s1 s2 -> keepsFlagged s2 s3 -> keepsFlagged s1 s3.
Proof. unfold keepsFlagged. auto. Qed.

Lemma pointsGrow_refl s : pointsGrow s s.
Proof. exists []. symmetry. apply app_nil_r. Qed.

Lemma pointsGrow_trans s1 s2 s3 :
  pointsGrow s1 s2 -> pointsGrow s2 s3 -> pointsGrow s1 s3.
Proof.
  intros [l1 H1] [l2 H2]. exists (l1 ++ l2).
  rewrite H2, H1. symmetry. apply app_assoc.
Qed.

Create HintDb pen.
#[local] Hint Resolve frame_refl frame_trans : pen.
#[local] Hint Resolve sameConfig_refl sameConfig_trans keepsFlagged_refl
  keepsFlagged_trans pointsGrow_refl pointsGrow_trans : pen.
#[local] Hint Resolve respects_ret respects_raise respects_get respects_assert
  : pen.

(** Python lists, as far as the pens use them. *)

Lemma pyPop_app {A} (l : list A) a : pyPop (l ++ [a]) = Some l.
Proof.
  unfold pyPop. rewrite removelast_last.
  destruct l; reflexivity.
Qed.

Lemma pyPop_length {A} (l l' : list A) :
  pyPop l = Some l' -> length l = S (length l').
Proof.
  destruct l as [|a l] using rev_ind; [discriminate|].
  rewrite pyPop_app. intros [= <-]. rewrite length_app. simpl. lia.
Qed.

Lemma pyPop_None {A} (l : list A) : pyPop l = None -> l = [].
Proof. destruct l; [reflexivity | discriminate]. Qed.

Lemma pyLen_app {A} (l l' : list A) : pyLen (l ++ l') = pyLen l + pyLen l'.
Proof. unfold pyLen. rewrite length_app. lia. Qed.

Lemma pyLen_nonneg {A} (l : list A) : 0 <= pyLen l.
Proof. unfold pyLen. lia. Qed.

Lemma pyIndex_app_middle {A} (l l' : list A) a :
  pyIndex (l ++ a :: l') (pyLen l) = Some a.
Proof.
  unfold pyIndex.
  assert (H0 : (0 <=? pyLen l) = true) by (apply Z.leb_le, pyLen_nonneg).
  assert (H1 : (pyLen l <? pyLen (l ++ a :: l')) = true).
  { apply Z.ltb_lt. rewrite pyLen_app. unfold pyLen. simpl length. lia. }
  rewrite H0, H1. cbn [andb]. unfold pyLen. rewrite Nat2Z.id.
  apply list_lookup_middle. reflexivity.
Qed.

Lemma pyIndex_last {A} (l : list A) a :
  pyIndex (l ++ [a]) (pyLen (l ++ [a]) - 1) = Some a.
Proof.
  rewrite pyLen_app. change (pyLen [a]) with 1.
  replace (pyLen l + 1 - 1) with (pyLen l) by lia.
  apply pyIndex_app_middle.
Qed.

Lemma truthy_false {A} (l : list A) : truthy l = false <-> l = [].
Proof. destruct l; simpl; split; congruence. Qed.

Lemma truthy_true {A} (l : list A) : truthy l = true <-> l <> [].
Proof. destruct l; simpl; split; congruence. Qed.


Section Properties.
Context `{FontTools}.

(** ** The segment pen, call by call *)

Lemma _addPoint_eq pt onCurve s :
  TTGlyphPen._addPoint pt onCurve s
  = Returns tt (set_types (types s ++ [onCurve]) (set_points (points s ++ [pt]) s)).
Proof. reflexivity. Qed.

Lemma moveTo_eq pt s :
  TTGlyphPen.moveTo pt s
  = if TTGlyphPen._isClosed s then TTGlyphPen._addPoint pt 1 s
    else Raises AssertionError s.
Proof.
  unfold TTGlyphPen.moveTo. run_method. destruct (TTGlyphPen._isClosed s); reflexivity.
Qed.

Lemma _popPoint_frame : respects frame TTGlyphPen._popPoint.
Proof.
  intros s. unfold TTGlyphPen._popPoint. run_method. split_match; solve_frame.
Qed.

Lemma _popPoint_flagged : respects keepsFlagged TTGlyphPen._popPoint.
Proof.
  intros s. unfold TTGlyphPen._popPoint. run_method.
  destruct (pyPop (points s)) as [l|] eqn:Hp; simpl; [|auto with pen].
  destruct (pyPop (types s)) as [l'|] eqn:Ht; simpl.
  - intros Hs. red in Hs |- *. simpl.
    apply pyPop_length in Hp, Ht. lia.
  - intros Hs. red in Hs. apply pyPop_length in Hp. apply pyPop_None in Ht.
    rewrite Ht in Hs. simpl in Hs. lia.
Qed.

(** On a flagged pen [_popPoint] either removes the last point with its
    flag, or raises without touching the pen. *)
Lemma _popPoint_flagged_eq s :
  flagged s ->
  TTGlyphPen._popPoint s
  = match pyPop (points s), pyPop (types s) with
    | Some l, Some l' => Returns tt (set_types l' (set_points l s))
    | _, _ => Raises IndexError s
    end.
Proof.
  intros Hs. unfold TTGlyphPen._popPoint. run_method.
  destruct (pyPop (points s)) as [l|] eqn:Hp; simpl; [|reflexivity].
  destruct (pyPop (types s)) as [l'|] eqn:Ht; simpl; [reflexivity|].
  red in Hs. apply pyPop_length in Hp. apply pyPop_None in Ht.
  rewrite Ht in Hs. simpl in Hs. lia.
Qed.

Lemma _addPoint_frame pt onCurve : respects frame (TTGlyphPen._addPoint pt onCurve).
Proof. intros s. solve_frame. Qed.

Lemma _addPoint_flagged pt onCurve : respects keepsFlagged (TTGlyphPen._addPoint pt onCurve).
Proof.
  intros s Hs. red in Hs |- *. simpl. rewrite !length_app. simpl. lia.
Qed.

Lemma addOffCurve_frame pts : respects frame (TTGlyphPen.addOffCurve pts).
Proof.
  induction pts as [|pt pts IH]; simpl.
  - auto with pen.
  - through_bind frame_trans; [apply _addPoint_frame | exact IH].
Qed.

Lemma addOffCurve_flagged pts : respects keepsFlagged (TTGlyphPen.addOffCurve pts).
Proof.
  induction pts as [|pt pts IH]; simpl.
  - auto with pen.
  - through_bind keepsFlagged_trans; [apply _addPoint_flagged | exact IH].
Qed.

Lemma closePath_frame : respects frame TTGlyphPen.closePath.
Proof.
  intros s. unfold TTGlyphPen.closePath. unfold bind at 1, get. simpl.
  destruct (_ || _); [apply _popPoint_frame|].
  destruct (pyIndex _ _) as [p1|]; [|apply frame_refl].
  destruct (pyIndex _ _) as [p2|]; [|apply frame_refl].
  through_bind frame_trans.
  - destruct (pointEq p1 p2); auto with pen.
    through_bind frame_trans; auto using _popPoint_frame with pen.
  - apply respects_modify. intros s'. solve_frame.
Qed.

Lemma closePath_flagged : respects keepsFlagged TTGlyphPen.closePath.
Proof.
  intros s. unfold TTGlyphPen.closePath. unfold bind at 1, get. simpl.
  destruct (_ || _); [apply _popPoint_flagged|].
  destruct (pyIndex _ _) as [p1|]; [|apply keepsFlagged_refl].
  destruct (pyIndex _ _) as [p2|]; [|apply keepsFlagged_refl].
  through_bind keepsFlagged_trans.
  - destruct (pointEq p1 p2); auto with pen.
    through_bind keepsFlagged_trans; auto using _popPoint_flagged with pen.
  - apply respects_modify. intros s' Hs. exact Hs.
Qed.

Lemma moveTo_frame pt : respects frame (TTGlyphPen.moveTo pt).
Proof.
  intros s. rewrite moveTo_eq.
  destruct (TTGlyphPen._isClosed s); [apply _addPoint_frame | apply frame_refl].
Qed.

Lemma moveTo_flagged pt : respects keepsFlagged (TTGlyphPen.moveTo pt).
Proof.
  intros s. rewrite moveTo_eq.
  destruct (TTGlyphPen._isClosed s); [apply _addPoint_flagged | apply keepsFlagged_refl].
Qed.

Lemma qCurveTo_frame args : respects frame (TTGlyphPen.qCurveTo args).
Proof.
  destruct args as [|offCurve [pt|]]; unfold TTGlyphPen.qCurveTo; auto with pen;
    through_bind frame_trans;
    auto using addOffCurve_frame, _addPoint_frame with pen.
Qed.

Lemma qCurveTo_flagged args : respects keepsFlagged (TTGlyphPen.qCurveTo args).
Proof.
  destruct args as [|offCurve [pt|]]; unfold TTGlyphPen.qCurveTo; auto with pen;
    through_bind keepsFlagged_trans;
    auto using addOffCurve_flagged, _addPoint_flagged with pen.
Qed.

Lemma addComponent_frame name t :
  respects frame (TTGlyphBasePen.addComponent name t).
Proof. intros s. solve_frame. Qed.

Lemma addComponent_flagged name t :
  respects keepsFlagged (TTGlyphBasePen.addComponent name t).
Proof. intros s Hs. exact Hs. Qed.

Lemma call_frame c : respects frame (TTGlyphPen.call c).
Proof.
  destruct c; simpl; unfold TTGlyphPen.lineTo, TTGlyphPen.curveTo, TTGlyphPen.endPath;
    auto using moveTo_frame, _addPoint_frame, qCurveTo_frame,
      closePath_frame, addComponent_frame with pen.
Qed.

Lemma call_flagged c : respects keepsFlagged (TTGlyphPen.call c).
Proof.
  destruct c; simpl; unfold TTGlyphPen.lineTo, TTGlyphPen.curveTo, TTGlyphPen.endPath;
    auto using moveTo_flagged, _addPoint_flagged, qCurveTo_flagged,
      closePath_flagged, addComponent_flagged with pen.
Qed.

Lemma TransformPen_frame t c : respects frame (TTGlyphPen.TransformPen t c).
Proof.
  destruct c as [| | |[|]| | |]; simpl;
    unfold TTGlyphPen.lineTo, TTGlyphPen.curveTo, TTGlyphPen.endPath;
    auto using moveTo_frame, _addPoint_frame, qCurveTo_frame,
      closePath_frame, addComponent_frame with pen.
Qed.

Lemma TransformPen_flagged t c : respects keepsFlagged (TTGlyphPen.TransformPen t c).
Proof.
  destruct c as [| | |[|]| | |]; simpl;
    unfold TTGlyphPen.lineTo, TTGlyphPen.curveTo, TTGlyphPen.endPath;
    auto using moveTo_flagged, _addPoint_flagged, qCurveTo_flagged,
      closePath_flagged, addComponent_flagged with pen.
Qed.

Lemma drawOn_respects R pen calls :
  (forall s, R s s) ->
  (forall s1 s2 s3, R s1 s2 -> R s2 s3 -> R s1 s3) ->
  (forall c, respects R (pen c)) ->
  respects R (TTGlyphPen.drawOn pen calls).
Proof.
  intros Hrefl Htrans Hpen.
  induction calls as [|c calls IH]; simpl.
  - apply respects_ret, Hrefl.
  - through_bind Htrans; [apply Hpen | exact IH].
Qed.

Lemma segment_decompose_respects R name t :
  (forall s, R s s) ->
  (forall s1 s2 s3, R s1 s2 -> R s2 s3 -> R s1 s3) ->
  (forall c, respects R (TTGlyphPen.TransformPen t c)) ->
  respects R (TTGlyphPen._decompose name t).
Proof.
  intros Hrefl Htrans Hpen s. unfold TTGlyphPen._decompose. run_method.
  destruct (glyphSet s !! name) as [g|]; [|apply Hrefl].
  apply drawOn_respects; assumption.
Qed.

(** ** The point pen, call by call *)

Lemma beginPath_eq s :
  TTGlyphPointPen.beginPath s
  = match currentPath s with
    | None => Returns tt (set_currentPath (Some []) s)
    | Some _ => Raises AssertionError s
    end.
Proof.
  unfold TTGlyphPointPen.beginPath. run_method. destruct (currentPath s); reflexivity.
Qed.

Lemma endPath_eq s :
  TTGlyphPointPen.endPath s
  = match currentPath s with
    | None => Raises AssertionError s
    | Some path =>
      Returns tt
        (set_currentPath None
           (if truthy path
            then set_endPts (endPts s ++ [pyLen (points s) - 1]) s
            else s))
    end.
Proof.
  unfold TTGlyphPointPen.endPath. run_method.
  destruct (currentPath s) as [path|]; [|reflexivity].
  destruct (truthy path); reflexivity.
Qed.


Lemma addPoint_eq pt segmentType s :
  TTGlyphPointPen.addPoint pt segmentType s
  = match currentPath s, flagOf segmentType with
    | None, _ => Raises AssertionError s
    | Some _, None => Raises NotImplementedError s
    | Some path, Some flag =>
      Returns tt
        (set_points (points s ++ [pt])
           (set_currentPath (Some (path ++ [pt]))
              (set_types (types s ++ [flag]) s)))
    end.
Proof.
  unfold TTGlyphPointPen.addPoint, flagOf. run_method.
  destruct (currentPath s) as [path|] eqn:Hpath; simpl; [|reflexivity].
  destruct segmentType as [role|]; simpl.
  - destruct (_ || _); simpl; [|reflexivity]. rewrite Hpath. reflexivity.
  - rewrite Hpath. reflexivity.
Qed.

Lemma point_call_frame c : respects frame (TTGlyphPointPen.call c).
Proof.
  intros s. destruct c; simpl;
    rewrite ?beginPath_eq, ?endPath_eq, ?addPoint_eq;
    split_match; solve_frame.
Qed.

Lemma point_call_flagged c : respects keepsFlagged (TTGlyphPointPen.call c).
Proof.
  intros s Hs. red in Hs |- *. destruct c; simpl;
    rewrite ?beginPath_eq, ?endPath_eq, ?addPoint_eq;
    split_match; simpl; rewrite ?length_app; simpl; lia.
Qed.

Lemma point_call_pointsGrow c : respects pointsGrow (TTGlyphPointPen.call c).
Proof.
  intros s. destruct c; simpl;
    rewrite ?beginPath_eq, ?endPath_eq, ?addPoint_eq;
    split_match; red; simpl;
    solve [ exists []; symmetry; apply app_nil_r | eexists; reflexivity ].
Qed.

Lemma TransformPointPen_call t c :
  exists c', TTGlyphPointPen.TransformPointPen t c = TTGlyphPointPen.call c'.
Proof.
  destruct c; simpl.
  - exists BeginPath. reflexivity.
  - exists (AddPoint (transformPoint t pt) segmentType). reflexivity.
  - exists EndPointPath. reflexivity.
  - exists (AddPointComponent baseGlyphName (transformTransform t transformation)).
    reflexivity.
Qed.

Lemma drawPointsOn_respects R pen calls :
  (forall s, R s s) ->
  (forall s1 s2 s3, R s1 s2 -> R s2 s3 -> R s1 s3) ->
  (forall c, respects R (pen c)) ->
  respects R (TTGlyphPointPen.drawPointsOn pen calls).
Proof.
  intros Hrefl Htrans Hpen.
  induction calls as [|c calls IH]; simpl.
  - apply respects_ret, Hrefl.
  - through_bind Htrans; [apply Hpen | exact IH].
Qed.

Lemma point_decompose_respects R name t :
  (forall s, R s s) ->
  (forall s1 s2 s3, R s1 s2 -> R s2 s3 -> R s1 s3) ->
  (forall c, respects R (TTGlyphPointPen.call c)) ->
  respects R (TTGlyphPointPen._decompose name t).
Proof.
  intros Hrefl Htrans Hpen s. unfold TTGlyphPointPen._decompose. run_method.
  destruct (glyphSet s !! name) as [g|]; [|apply Hrefl].
  apply drawPointsOn_respects; try assumption.
  intros c. destruct (TransformPointPen_call t c) as [c' ->]. apply Hpen.
Qed.
End Properties.

(** ** The base pen, for any [_decompose] *)

Section BasePen.
Context `{FontTools}.
Variable _decompose : string -> Transformation -> Method unit.

#[local] Abbreviation resolveFrom := (TTGlyphBasePen.resolveFrom _decompose).
#[local] Abbreviation _buildComponents := (TTGlyphBasePen._buildComponents _decompose).
#[local] Abbreviation _glyph := (TTGlyphBasePen._glyph _decompose).

Lemma resolveFrom_respects R :
  (forall s, R s s) ->
  (forall s1 s2 s3, R s1 s2 -> R s2 s3 -> R s1 s3) ->
  (forall name t, respects R (_decompose name t)) ->
  forall fuel overflowing flags i built,
    respects R (resolveFrom fuel overflowing flags i built).
Proof.
  intros Hrefl Htrans Hdec fuel overflowing flags.
  induction fuel as [|fuel IH]; intros i built s; simpl.
  - destruct (components s !! i) as [[name t]|]; apply Hrefl.
  - destruct (components s !! i) as [[name t]|]; [|apply Hrefl].
    destruct (glyphSet s !! name); [|apply IH].
    destruct (_ || _); [|apply IH].
    apply (respects_bind R Htrans); [apply Hdec | intros ?; apply IH].
Qed.

Lemma _buildComponents_respects R :
  (forall s, R s s) ->
  (forall s1 s2 s3, R s1 s2 -> R s2 s3 -> R s1 s3) ->
  (forall name t, respects R (_decompose name t)) ->
  forall fuel flags, respects R (_buildComponents fuel flags).
Proof.
  intros Hrefl Htrans Hdec fuel flags s.
  unfold TTGlyphBasePen._buildComponents, bind at 1, get.
  apply resolveFrom_respects; assumption.
Qed.

(** While the condition of line 93 holds at every step, the loop does
    nothing but decompose the known pending components. *)
Lemma resolveFrom_decomposes (I : Pen -> Prop) overflowing flags :
  (forall s, I s ->
     truthy (points s) || (handleOverflowingTransforms s && overflowing) = true) ->
  (forall name t s s', I s -> _decompose name t s = Returns tt s' -> I s') ->
  forall fuel i built s,
    I s ->
    resolveFrom fuel overflowing flags i built s
    = (decomposeKnownFrom _decompose fuel i >> ret built) s.
Proof.
  intros Hcond Hstep fuel.
  induction fuel as [|fuel IH]; intros i built s Hs; simpl; unfold bind.
  - destruct (components s !! i) as [[name t]|]; reflexivity.
  - simpl. destruct (components s !! i) as [[name t]|]; [|reflexivity].
    destruct (glyphSet s !! name).
    + rewrite (Hcond s Hs).
      destruct (_decompose name t s) as [[] s1|e s1|s1] eqn:Hdec; try reflexivity.
      apply IH. eapply Hstep; eassumption.
    + apply IH. exact Hs.
Qed.

(** Every record in the built list was made by [buildComponent] from a
    pending component. *)
Lemma resolveFrom_built overflowing flags :
  (forall name t, respects frame (_decompose name t)) ->
  forall fuel i built s comps s',
    resolveFrom fuel overflowing flags i built s = Returns comps s' ->
    exists kept,
      comps = built ++ kept
      /\ Forall (fun c => exists name t,
                   (name, t) ∈ components s'
                   /\ c = TTGlyphBasePen.buildComponent
                           (handleOverflowingTransforms s) name t flags) kept.
Proof.
  intros Hdec fuel.
  induction fuel as [|fuel IH]; intros i built s comps s'; simpl.
  - destruct (components s !! i) as [[name t]|]; [discriminate|].
    intros [= <- <-]. exists []. split; [symmetry; apply app_nil_r | constructor].
  - destruct (components s !! i) as [[name t]|] eqn:Hi.
    2:{ intros [= <- <-]. exists []. split; [symmetry; apply app_nil_r | constructor]. }
    destruct (glyphSet s !! name); [|apply IH].
    destruct (_ || _).
    + unfold bind. pose proof (Hdec name t s) as Hf.
      destruct (_decompose name t s) as [[] s1|e s1|s1]; try discriminate.
      simpl in Hf. destruct Hf as [[_ Hh] _]. rewrite <- Hh. apply IH.
    + intros Hrun.
      match type of Hrun with
      | TTGlyphBasePen.resolveFrom _ _ _ _ _ ?b _ = _ =>
        pose proof (resolveFrom_respects frame frame_refl frame_trans Hdec
                      fuel overflowing flags (S i) b s) as Hf
      end.
      rewrite Hrun in Hf. simpl in Hf. destruct Hf as [_ [l Hl]].
      apply IH in Hrun. destruct Hrun as (kept & -> & Hkept).
      eexists (_ :: kept). split; [rewrite <- app_assoc; reflexivity|].
      constructor; [|exact Hkept].
      exists name, t. split; [|reflexivity].
      rewrite Hl. apply elem_of_app. left. eapply list_elem_of_lookup_2, Hi.
Qed.

Lemma _buildComponents_eq fuel flags s :
  _buildComponents fuel flags s
  = resolveFrom fuel
      (if handleOverflowingTransforms s
       then TTGlyphBasePen.anyOverflow (components s) else false)
      flags 0 [] s.
Proof. reflexivity. Qed.

Lemma _glyph_respects R :
  (forall s, R s s) ->
  (forall s1 s2 s3, R s1 s2 -> R s2 s3 -> R s1 s3) ->
  (forall name t, respects R (_decompose name t)) ->
  respects R TTGlyphBasePen.init ->
  forall fuel flags, respects R (_glyph fuel flags).
Proof.
  intros Hrefl Htrans Hdec Hinit fuel flags. unfold TTGlyphBasePen._glyph.
  through_bind Htrans; [apply _buildComponents_respects; assumption|].
  apply (respects_bind R Htrans); [apply respects_get, Hrefl | intros s1].
  through_bind Htrans.
  { unfold TTGlyphBasePen.arrayB. destruct (forallb _ _);
      [apply respects_ret | apply respects_raise]; exact Hrefl. }
  through_bind Htrans; [exact Hinit|].
  destruct (truthy a); apply respects_ret, Hrefl.
Qed.

(** What a finalization that returns has done. *)
Lemma _glyph_returns fuel flags s g s' :
  _glyph fuel flags s = Returns g s' ->
  exists comps s1,
    _buildComponents fuel flags s = Returns comps s1
    /\ s' = TTGlyphBasePen.new (glyphSet s1) (handleOverflowingTransforms s1)
    /\ g = Glyph.mk (map (fun p => (toInt (fst p), toInt (snd p))) (points s1))
                    (endPts s1) (types s1)
                    (if truthy comps then -1 else pyLen (endPts s1))
                    (if truthy comps then Some comps else None)
                    (if truthy comps then None else Some []).
Proof.
  unfold TTGlyphBasePen._glyph, bind at 1.
  destruct (_buildComponents fuel flags s) as [comps s1|e s1|s1]; try discriminate.
  unfold bind, get, TTGlyphBasePen.arrayB.
  destruct (forallb _ _); [|discriminate]. simpl.
  destruct (truthy comps) eqn:Hc; intros [= <- <-]; exists comps, s1;
    rewrite Hc; repeat split.
Qed.

(** With no point on the pen and nothing overflowing, the loop ends within
    one iteration per pending component, decomposes nothing and keeps every
    known component. *)
Lemma resolveFrom_keeps overflowing flags fuel :
  forall i built s,
    points s = [] ->
    handleOverflowingTransforms s && overflowing = false ->
    (length (components s) <= fuel + i)%nat ->
    resolveFrom fuel overflowing flags i built s
    = Returns
        (built
         ++ map (fun c => TTGlyphBasePen.buildComponent
                            (handleOverflowingTransforms s) (fst c) (snd c) flags)
              (List.filter (fun c => negb (isNone (glyphSet s !! fst c)))
                 (drop i (components s))))
        s.
Proof.
  induction fuel as [|fuel IH]; intros i built s Hp Ho Hlen; simpl.
  - rewrite (lookup_ge_None_2 (components s) i) by lia.
    rewrite drop_ge by lia. simpl. rewrite app_nil_r. reflexivity.
  - destruct (components s !! i) as [[name t]|] eqn:Hi.
    + rewrite (drop_S _ _ _ Hi). cbn [List.filter fst].
      destruct (glyphSet s !! name) eqn:Hg; cbn [isNone negb].
      * rewrite Hp, Ho. cbn [truthy orb].
        rewrite IH by (trivial; lia). cbn [map fst snd].
        rewrite <- app_assoc. reflexivity.
      * apply IH; trivial; lia.
    + apply lookup_ge_None_1 in Hi. rewrite drop_ge by lia.
      simpl. rewrite app_nil_r. reflexivity.
Qed.

(** A built list and accumulated points exclude each other: a component is
    kept only while the pen holds no point and nothing overflows, and from
    then on nothing is decomposed. *)
Lemma resolveFrom_exclusive overflowing flags fuel :
  forall i built s comps s',
    built = []
    \/ (points s = []
        /\ handleOverflowingTransforms s && overflowing = false) ->
    resolveFrom fuel overflowing flags i built s = Returns comps s' ->
    comps = [] \/ points s' = [].
Proof.
  induction fuel as [|fuel IH]; intros i built s comps s' Hinv; simpl.
  - destruct (components s !! i) as [[name t]|]; [discriminate|].
    intros [= <- <-]. destruct Hinv as [?|[? _]]; auto.
  - destruct (components s !! i) as [[name t]|].
    2:{ intros [= <- <-]. destruct Hinv as [?|[? _]]; auto. }
    destruct (glyphSet s !! name); [|apply IH; exact Hinv].
    destruct (truthy (points s) || _) eqn:Hcond.
    + unfold bind.
      destruct (_decompose name t s) as [[] s1|e s1|s1]; try discriminate.
      apply IH. left. destruct Hinv as [?|[Hp Ho]]; [assumption|].
      rewrite Hp, Ho in Hcond. discriminate.
    + apply IH. right. apply orb_false_iff in Hcond. destruct Hcond as [Hp Ho].
      split; [apply truthy_false; exact Hp | exact Ho].
Qed.
End BasePen.

(** ** Contours of the segment pen *)

Section SegmentContours.
Context `{FontTools}.

Lemma sealed_isClosed s : sealed s -> TTGlyphPen._isClosed s = true.
Proof.
  unfold sealed, startPt, TTGlyphPen._isClosed. intros Hs.
  destruct (points s) as [|p l] eqn:Hp; [reflexivity|]. simpl.
  destruct (last (endPts s)) as [e|].
  - apply Z.eqb_eq. lia.
  - unfold pyLen in Hs. simpl in Hs. lia.
Qed.

(** A pen that passes [_isClosed] and holds points has its contours sealed. *)
Lemma isClosed_sealed s :
  TTGlyphPen._isClosed s = true -> points s <> [] -> sealed s.
Proof.
  unfold sealed, startPt, TTGlyphPen._isClosed. intros Hc Hp.
  apply truthy_true in Hp. rewrite Hp in Hc. simpl in Hc.
  destruct (last (endPts s)) as [e|]; [|discriminate].
  apply Z.eqb_eq in Hc. lia.
Qed.

(** [moveTo] followed at once by [closePath]: the one-point path is
    dropped again, whatever the pen held before. *)
Lemma moveTo_closePath pt s :
  (TTGlyphPen.moveTo pt >> TTGlyphPen.closePath) s
  = if TTGlyphPen._isClosed s then Returns tt s else Raises AssertionError s.
Proof.
  unfold bind at 1. rewrite moveTo_eq.
  destruct (TTGlyphPen._isClosed s) eqn:Hc; [|reflexivity].
  rewrite _addPoint_eq. unfold TTGlyphPen.closePath, bind at 1, get. simpl.
  rewrite pyLen_app. change (pyLen [pt]) with 1.
  replace (pyLen (points s) + 1 - 1) with (pyLen (points s)) by lia.
  assert (Hanchor :
    (pyLen (points s) =? 0)
    || match last (endPts s) with
       | Some e => pyLen (points s) =? e + 1
       | None => false
       end = true).
  { unfold TTGlyphPen._isClosed in Hc.
    destruct (points s) as [|p l]; [reflexivity|]. simpl in Hc.
    destruct (last (endPts s)) as [e|]; [|discriminate].
    apply Z.eqb_eq in Hc. apply orb_true_iff. right. apply Z.eqb_eq. lia. }
  rewrite Hanchor. unfold TTGlyphPen._popPoint. run_method.
  rewrite !pyPop_app. simpl. rewrite pyPop_app. simpl.
  f_equal. destruct s; reflexivity.
Qed.

Lemma closePath_eq s :
  TTGlyphPen.closePath s
  = let endPt := pyLen (points s) - 1 in
    if (endPt =? 0)
       || match last (endPts s) with
          | None => false
          | Some e => endPt =? e + 1
          end
    then TTGlyphPen._popPoint s
    else
      match pyIndex (points s) (startPt s), pyIndex (points s) endPt with
      | Some first, Some final =>
        if pointEq first final
        then match TTGlyphPen._popPoint s with
             | Returns _ s1 => Returns tt (set_endPts (endPts s1 ++ [endPt - 1]) s1)
             | Raises e s1 => Raises e s1
             | OutOfFuel s1 => OutOfFuel s1
             end
        else Returns tt (set_endPts (endPts s ++ [endPt]) s)
      | _, _ => Raises IndexError s
      end.
Proof.
  unfold TTGlyphPen.closePath, bind at 1, get, startPt. simpl.
  destruct (_ || _); [reflexivity|].
  destruct (pyIndex _ _) as [p1|]; [|reflexivity].
  destruct (pyIndex _ _) as [p2|]; [|reflexivity].
  unfold bind. destruct (pointEq p1 p2); [|reflexivity].
  destruct (TTGlyphPen._popPoint s) as [[] s1|e s1|s1]; reflexivity.
Qed.

Lemma _popPoint_app s l pt tys ty :
  points s = l ++ [pt] -> types s = tys ++ [ty] ->
  TTGlyphPen._popPoint s = Returns tt (set_types tys (set_points l s)).
Proof.
  intros Hp Ht. unfold TTGlyphPen._popPoint. run_method.
  rewrite Hp, pyPop_app. simpl. rewrite Ht, pyPop_app. reflexivity.
Qed.

Lemma drawOn_app pen calls calls' s :
  TTGlyphPen.drawOn pen (calls ++ calls') s
  = (TTGlyphPen.drawOn pen calls >> TTGlyphPen.drawOn pen calls') s.
Proof.
  revert s. induction calls as [|c calls IH]; intros s; simpl; [reflexivity|].
  unfold bind. destruct (pen c s) as [[] s1|e s1|s1]; try reflexivity.
  rewrite IH. reflexivity.
Qed.

Lemma withPoints_cons onCurve pt pts s :
  withPoints onCurve pts (withPoints onCurve [pt] s)
  = withPoints onCurve (pt :: pts) s.
Proof.
  unfold withPoints, set_types, set_points. simpl.
  rewrite <- !app_assoc. reflexivity.
Qed.

Lemma withPoints_nil onCurve s : withPoints onCurve [] s = s.
Proof.
  unfold withPoints, set_types, set_points. simpl.
  rewrite !app_nil_r. destruct s; reflexivity.
Qed.

Lemma drawOn_lineTo pts s :
  TTGlyphPen.drawOn TTGlyphPen.call (map LineTo pts) s
  = Returns tt (withPoints 1 pts s).
Proof.
  revert s. induction pts as [|pt pts IH]; intros s; simpl.
  - unfold ret. rewrite withPoints_nil. reflexivity.
  - unfold bind, TTGlyphPen.lineTo. rewrite _addPoint_eq.
    change (set_types (types s ++ [1]) (set_points (points s ++ [pt]) s))
      with (withPoints 1 [pt] s).
    rewrite IH, withPoints_cons. reflexivity.
Qed.

Lemma addOffCurve_eq pts s :
  TTGlyphPen.addOffCurve pts s = Returns tt (withPoints 0 pts s).
Proof.
  revert s. induction pts as [|pt pts IH]; intros s; simpl.
  - unfold ret. rewrite withPoints_nil. reflexivity.
  - unfold bind. rewrite _addPoint_eq.
    change (set_types (types s ++ [0]) (set_points (points s ++ [pt]) s))
      with (withPoints 0 [pt] s).
    rewrite IH, withPoints_cons. reflexivity.
Qed.

Lemma qCurveTo_eq args s :
  TTGlyphPen.qCurveTo args s
  = match args with
    | QNoArgs => Raises AssertionError s
    | QArgs offCurve None => Returns tt (withPoints 0 offCurve s)
    | QArgs offCurve (Some pt) =>
      Returns tt (withPoints 1 [pt] (withPoints 0 offCurve s))
    end.
Proof.
  destruct args as [|offCurve [pt|]]; unfold TTGlyphPen.qCurveTo; [reflexivity| |];
    unfold bind; rewrite addOffCurve_eq; reflexivity.
Qed.

Lemma _popPoint_returns s u s' :
  TTGlyphPen._popPoint s = Returns u s' ->
  exists l tys,
    pyPop (points s) = Some l /\ pyPop (types s) = Some tys
    /\ s' = set_types tys (set_points l s).
Proof.
  unfold TTGlyphPen._popPoint. run_method.
  destruct (pyPop (points s)) as [l|]; [|discriminate]. simpl.
  destruct (pyPop (types s)) as [tys|]; [|discriminate].
  intros [= <-]. eauto.
Qed.
End SegmentContours.

(** * The claims *)

Section Claims.
Context `{FontTools}.

Lemma pointEq_refl p : pointEq p p = true.
Proof.
  unfold pointEq. apply andb_true_iff. split; apply Qeq_bool_iff; reflexivity.
Qed.


(** C5 (amended): the anchor branch of [closePath] applies to every
    one-point contour, [endPt == startPt], whether or not it is the first
    contour of the glyph: the point just appended is removed with its flag
    and no contour is recorded. *)
Theorem anchor_collapse_any_contour s :
  flagged s ->
  points s <> [] ->
  pyLen (points s) - 1 = startPt s ->
  TTGlyphPen.closePath s
  = Returns tt (set_types (removelast (types s))
                  (set_points (removelast (points s)) s)).
Proof.
  intros Hf Hp Hone. rewrite closePath_eq. cbv zeta.
  assert (Hanchor :
    (pyLen (points s) - 1 =? 0)
    || match last (endPts s) with
       | None => false
       | Some e => pyLen (points s) - 1 =? e + 1
       end = true).
  { unfold startPt in Hone. apply orb_true_iff.
    destruct (last (endPts s)) as [e|]; [right | left]; apply Z.eqb_eq; exact Hone. }
  rewrite Hanchor, (_popPoint_flagged_eq s Hf).
  red in Hf. unfold pyPop.
  destruct (points s) as [|p l]; [congruence|].
  destruct (types s) as [|ty tys]; [discriminate|]. reflexivity.
Qed.

(** C4 (amended): on the segment pen a sub-path that receives one on-curve
    point and is ended at once leaves the pen as it was, so it is no contour
    of the finalized glyph; this holds for [closePath] and for [endPath].
    The point pen has no such rule: the same sub-path is recorded as a
    contour of one point. *)
Theorem one_point_subpath pt s :
  (TTGlyphPen.moveTo pt >> TTGlyphPen.closePath) s
  = (if TTGlyphPen._isClosed s then Returns tt s else Raises AssertionError s)
  /\ (TTGlyphPen.moveTo pt >> TTGlyphPen.endPath) s
     = (if TTGlyphPen._isClosed s then Returns tt s else Raises AssertionError s)
  /\ Forall
       (fun role =>
          (TTGlyphPointPen.beginPath >>
           TTGlyphPointPen.addPoint pt (Some role) >>
           TTGlyphPointPen.endPath) s
          = match currentPath s with
            | Some _ => Raises AssertionError s
            | None =>
              Returns tt
                (mkPen (glyphSet s) (handleOverflowingTransforms s)
                       (points s ++ [pt]) (endPts s ++ [pyLen (points s)])
                       (types s ++ [1]) (components s) None)
            end)
       ["line"; "qcurve"]%string.
Proof.
  split; [apply moveTo_closePath|]. split; [apply moveTo_closePath|].
  apply Forall_forall. intros role Hrole. apply list_elem_of_In in Hrole.
  unfold bind.
  rewrite beginPath_eq. destruct (currentPath s) eqn:Hpath; [reflexivity|].
  rewrite addPoint_eq. simpl currentPath.
  assert (Hflag : flagOf (Some role) = Some 1).
  { destruct Hrole as [<-|[<-|[]]]; reflexivity. }
  rewrite Hflag, endPath_eq. simpl.
  rewrite pyLen_app. change (pyLen [pt]) with 1.
  replace (pyLen (points s) + 1 - 1) with (pyLen (points s)) by lia.
  destruct ([] ++ [pt]) eqn:Hnil; [discriminate|]. reflexivity.
Qed.

(** C8: cubic input is refused.  [curveTo] raises for every argument list,
    and [addPoint] raises for every segment type that is neither absent nor
    "line" nor "qcurve"; in both cases the pen is left as it was. *)
Theorem cubic_input_raises :
  (forall pts s, TTGlyphPen.curveTo pts s = Raises NotImplementedError s)
  /\ (forall pt role s,
        role <> "line"%string -> role <> "qcurve"%string ->
        TTGlyphPointPen.addPoint pt (Some role) s
        = Raises (if isNone (currentPath s) then AssertionError
                  else NotImplementedError) s).
Proof.
  split; [reflexivity|].
  intros pt role s Hline Hq. rewrite addPoint_eq. unfold flagOf.
  apply String.eqb_neq in Hline, Hq. rewrite Hline, Hq.
  destruct (currentPath s); reflexivity.
Qed.

(** ** Finalization *)

Lemma segment_decompose_frame name t : respects frame (TTGlyphPen._decompose name t).
Proof.
  apply segment_decompose_respects; auto using TransformPen_frame with pen.
  apply frame_trans.
Qed.

Lemma point_decompose_frame name t : respects frame (TTGlyphPointPen._decompose name t).
Proof.
  apply point_decompose_respects; auto using point_call_frame with pen.
  apply frame_trans.
Qed.

Lemma segment_decompose_flagged name t :
  respects keepsFlagged (TTGlyphPen._decompose name t).
Proof.
  apply segment_decompose_respects; auto using TransformPen_flagged with pen.
  apply keepsFlagged_trans.
Qed.

Lemma point_decompose_flagged name t :
  respects keepsFlagged (TTGlyphPointPen._decompose name t).
Proof.
  apply point_decompose_respects; auto using point_call_flagged with pen.
  apply keepsFlagged_trans.
Qed.

Lemma segment_glyph_eq fuel flags s :
  TTGlyphPen.glyph fuel flags s
  = if TTGlyphPen._isClosed s
    then TTGlyphBasePen._glyph TTGlyphPen._decompose fuel flags s
    else Raises AssertionError s.
Proof.
  unfold TTGlyphPen.glyph. run_method. destruct (TTGlyphPen._isClosed s); reflexivity.
Qed.

Lemma point_glyph_eq fuel flags s :
  TTGlyphPointPen.glyph fuel flags s
  = match currentPath s with
    | None => TTGlyphBasePen._glyph TTGlyphPointPen._decompose fuel flags s
    | Some _ => Raises AssertionError s
    end.
Proof.
  unfold TTGlyphPointPen.glyph. run_method. destruct (currentPath s); reflexivity.
Qed.

(** A finalization that returns leaves the pen as [__init__] made it. *)
Lemma _glyph_resets _decompose fuel flags s g s' :
  (forall name t, respects frame (_decompose name t)) ->
  TTGlyphBasePen._glyph _decompose fuel flags s = Returns g s' ->
  s' = TTGlyphBasePen.new (glyphSet s) (handleOverflowingTransforms s).
Proof.
  intros Hdec Hrun. apply _glyph_returns in Hrun.
  destruct Hrun as (comps & s1 & Hbuild & -> & _).
  pose proof (_buildComponents_respects _decompose frame frame_refl frame_trans
                Hdec fuel flags s) as Hf.
  rewrite Hbuild in Hf. destruct Hf as [[Hg Hh] _]. simpl in Hg, Hh.
  rewrite Hg, Hh. reflexivity.
Qed.

(** C9: after a finalization that returns a glyph, on either pen, the point
    list, the flag list, the contour end indices, the pending components
    and the current sub-path are those of a new pen (of the same glyph set
    and the same overflow setting): nothing of the glyph just built is
    carried over. *)
Theorem finalization_resets_pen fuel flags s g s' :
  TTGlyphPen.glyph fuel flags s = Returns g s'
  \/ TTGlyphPointPen.glyph fuel flags s = Returns g s' ->
  s' = TTGlyphBasePen.new (glyphSet s) (handleOverflowingTransforms s)
  /\ points s' = [] /\ types s' = [] /\ endPts s' = []
  /\ components s' = [] /\ currentPath s' = None.
Proof.
  intros Hrun.
  assert (Hnew : s' = TTGlyphBasePen.new (glyphSet s) (handleOverflowingTransforms s)).
  { destruct Hrun as [Hrun|Hrun].
    - rewrite segment_glyph_eq in Hrun.
      destruct (TTGlyphPen._isClosed s); [|discriminate].
      eapply _glyph_resets; [apply segment_decompose_frame | exact Hrun].
    - rewrite point_glyph_eq in Hrun.
      destruct (currentPath s); [discriminate|].
      eapply _glyph_resets; [apply point_decompose_frame | exact Hrun]. }
  rewrite Hnew. repeat split.
Qed.

(** ** Points and flags *)

Lemma init_flagged : respects keepsFlagged TTGlyphBasePen.init.
Proof. intros s _. reflexivity. Qed.

Lemma segment_glyph_flagged fuel flags :
  respects keepsFlagged (TTGlyphPen.glyph fuel flags).
Proof.
  intros s. rewrite segment_glyph_eq.
  destruct (TTGlyphPen._isClosed s); [|apply keepsFlagged_refl].
  apply _glyph_respects;
    auto using segment_decompose_flagged, init_flagged with pen.
  apply keepsFlagged_trans.
Qed.

Lemma point_glyph_flagged fuel flags :
  respects keepsFlagged (TTGlyphPointPen.glyph fuel flags).
Proof.
  intros s. rewrite point_glyph_eq.
  destruct (currentPath s); [apply keepsFlagged_refl|].
  apply _glyph_respects;
    auto using point_decompose_flagged, init_flagged with pen.
  apply keepsFlagged_trans.
Qed.

(** A drawing call of the segment pen that raises has changed nothing. *)
Lemma segment_call_raises c s e s' :
  flagged s -> TTGlyphPen.call c s = Raises e s' -> s' = s.
Proof.
  intros Hf.
  assert (Hclose : TTGlyphPen.closePath s = Raises e s' -> s' = s).
  { rewrite closePath_eq, (_popPoint_flagged_eq s Hf). cbv zeta.
    destruct (_ || _).
    - destruct (pyPop (points s)); [|congruence].
      destruct (pyPop (types s)); [discriminate|congruence].
    - destruct (pyIndex _ _) as [p1|]; [|congruence].
      destruct (pyIndex _ _) as [p2|]; [|congruence].
      destruct (pointEq p1 p2); [|discriminate].
      destruct (pyPop (points s)); [|congruence].
      destruct (pyPop (types s)); [discriminate|congruence]. }
  destruct c; simpl; try exact Hclose; try discriminate.
  - rewrite moveTo_eq. destruct (TTGlyphPen._isClosed s); [discriminate|congruence].
  - unfold TTGlyphPen.curveTo, raise. congruence.
  - rewrite qCurveTo_eq. destruct args as [|offCurve [pt|]]; [congruence|discriminate..].
Qed.

(** A drawing call of the point pen that raises has changed nothing. *)
Lemma point_call_raises c s e s' :
  TTGlyphPointPen.call c s = Raises e s' -> s' = s.
Proof.
  destruct c; simpl; rewrite ?beginPath_eq, ?endPath_eq, ?addPoint_eq;
    try discriminate; split_match; congruence.
Qed.

(** C10 (amended): a new pen has as many flags as points, and every
    operation of either pen keeps it so, whether the operation returns or
    raises: the drawing calls (move-to, line-to, curve-to, close-path,
    end-path, begin-path, add-point, add-component) and finalization.  A
    drawing call that raises leaves the pen unchanged, so it appends to
    neither list. *)
Theorem points_and_flags_aligned :
  (forall gs handle, flagged (TTGlyphBasePen.new gs handle))
  /\ forall s,
       flagged s ->
       (forall c, flagged (penAfter (TTGlyphPen.call c s)))
       /\ (forall c, flagged (penAfter (TTGlyphPointPen.call c s)))
       /\ (forall fuel flags, flagged (penAfter (TTGlyphPen.glyph fuel flags s)))
       /\ (forall fuel flags, flagged (penAfter (TTGlyphPointPen.glyph fuel flags s)))
       /\ (forall c e s', TTGlyphPen.call c s = Raises e s' -> s' = s)
       /\ (forall c e s', TTGlyphPointPen.call c s = Raises e s' -> s' = s).
Proof.
  split; [reflexivity|]. intros s Hf.
  refine (conj _ (conj _ (conj _ (conj _ (conj _ _))))).
  - intros c. apply call_flagged, Hf.
  - intros c. apply point_call_flagged, Hf.
  - intros fuel flags. apply segment_glyph_flagged, Hf.
  - intros fuel flags. apply point_glyph_flagged, Hf.
  - intros c e s'. apply segment_call_raises, Hf.
  - intros c e s'. apply point_call_raises.
Qed.

(** ** Kept components *)

Lemma Qlt_bool_iff a b : Qlt_bool a b = true <-> (a < b)%Q.
Proof.
  unfold Qlt_bool. rewrite negb_true_iff. split.
  - intros Hle. apply Qnot_le_lt. intros Hc.
    apply Qle_bool_iff in Hc. congruence.
  - intros Hlt. destruct (Qle_bool b a) eqn:Hle; [|reflexivity].
    apply Qle_bool_iff in Hle. exfalso. revert Hle. apply Qlt_not_le, Hlt.
Qed.

Lemma almostTwo_iff v : TTGlyphBasePen.almostTwo v = true <-> nearlyTwo v.
Proof.
  unfold TTGlyphBasePen.almostTwo, nearlyTwo.
  rewrite andb_true_iff, Qlt_bool_iff, Qle_bool_iff. reflexivity.
Qed.

Lemma notIdentity_false a b c d :
  TTGlyphBasePen.notIdentity (a, b, c, d) = false <-> isIdentity a b c d.
Proof.
  unfold TTGlyphBasePen.notIdentity, isIdentity.
  rewrite negb_false_iff, !andb_true_iff, !Qeq_bool_iff. tauto.
Qed.

Lemma identity_not_nearlyTwo a b c d :
  isIdentity a b c d ->
  ~ (nearlyTwo a \/ nearlyTwo b \/ nearlyTwo c \/ nearlyTwo d).
Proof.
  unfold isIdentity, nearlyTwo.
  intros (Ha & Hb & Hc & Hd) [[Hn _]|[[Hn _]|[[Hn _]|[Hn _]]]];
    [rewrite Ha in Hn|rewrite Hb in Hn|rewrite Hc in Hn|rewrite Hd in Hn];
    revert Hn; apply Qle_not_lt; discriminate.
Qed.

Lemma clamp_clampedFrom v :
  clampedFrom v (if TTGlyphBasePen.almostTwo v then MAX_F2DOT14 else v).
Proof.
  split.
  - intros Hn. apply almostTwo_iff in Hn. rewrite Hn. reflexivity.
  - intros Hle. destruct (TTGlyphBasePen.almostTwo v) eqn:Ha; [|reflexivity].
    apply almostTwo_iff in Ha. destruct Ha as [Hlt _].
    exfalso. revert Hlt. apply Qle_not_lt, Hle.
Qed.

Lemma clamp_storedFrom handle v :
  handle = true ->
  storedFrom handle v (if TTGlyphBasePen.almostTwo v then MAX_F2DOT14 else v).
Proof.
  intros Hh. destruct (TTGlyphBasePen.almostTwo v) eqn:Ha.
  - right. apply almostTwo_iff in Ha. auto.
  - left. reflexivity.
Qed.

(** The transform field of a kept component, case by case. *)
Lemma buildComponent_transform handle name t flags :
  let a := floatToFixedToFloat (t_a t) 14 in
  let b := floatToFixedToFloat (t_b t) 14 in
  let c := floatToFixedToFloat (t_c t) 14 in
  let d := floatToFixedToFloat (t_d t) 14 in
  let clamp v := if TTGlyphBasePen.almostTwo v then MAX_F2DOT14 else v in
  GlyphComponent.transform (TTGlyphBasePen.buildComponent handle name t flags)
  = if TTGlyphBasePen.notIdentity (a, b, c, d) then
      if handle && any4 TTGlyphBasePen.almostTwo (a, b, c, d)
      then Some ((clamp a, clamp b), (clamp c, clamp d))
      else Some ((a, b), (c, d))
    else None.
Proof.
  intros a b c d clamp. unfold TTGlyphBasePen.buildComponent.
  cbn [GlyphComponent.transform linearPart map4].
  fold a b c d. destruct (TTGlyphBasePen.notIdentity (a, b, c, d)); [|reflexivity].
  destruct (handle && any4 TTGlyphBasePen.almostTwo (a, b, c, d)); reflexivity.
Qed.

Lemma any4_almostTwo a b c d :
  any4 TTGlyphBasePen.almostTwo (a, b, c, d) = true
  <-> nearlyTwo a \/ nearlyTwo b \/ nearlyTwo c \/ nearlyTwo d.
Proof.
  unfold any4. rewrite !orb_true_iff, !almostTwo_iff. tauto.
Qed.

(** Both pens build their component list from pending components with
    [buildComponent]. *)
Lemma built_components fuel flags s comps s' :
  TTGlyphBasePen._buildComponents TTGlyphPen._decompose fuel flags s
    = Returns comps s'
  \/ TTGlyphBasePen._buildComponents TTGlyphPointPen._decompose fuel flags s
     = Returns comps s' ->
  Forall (fun c => exists name t,
            (name, t) ∈ components s'
            /\ c = TTGlyphBasePen.buildComponent
                    (handleOverflowingTransforms s) name t flags) comps.
Proof.
  intros [Hrun|Hrun]; rewrite _buildComponents_eq in Hrun;
    eapply resolveFrom_built in Hrun;
    auto using segment_decompose_frame, point_decompose_frame;
    destruct Hrun as (kept & -> & Hkept); exact Hkept.
Qed.

(** C3: with overflow handling on, take any component that either pen
    keeps in its built list (it is not decomposed), and let [a b c d] be
    its transform values after quantization.  If one of them lies in
    (MAX_F2DOT14, 2], the record stores a transform in which every value of
    that range is replaced by exactly MAX_F2DOT14 and every value that is
    at most MAX_F2DOT14 is stored as it is. *)
Theorem almost_two_is_clamped fuel flags s comps s' :
  handleOverflowingTransforms s = true ->
  TTGlyphBasePen._buildComponents TTGlyphPen._decompose fuel flags s
    = Returns comps s'
  \/ TTGlyphBasePen._buildComponents TTGlyphPointPen._decompose fuel flags s
     = Returns comps s' ->
  Forall (fun component => exists name t,
            (name, t) ∈ components s'
            /\ GlyphComponent.glyphName component = name
            /\ let a := floatToFixedToFloat (t_a t) 14 in
               let b := floatToFixedToFloat (t_b t) 14 in
               let c := floatToFixedToFloat (t_c t) 14 in
               let d := floatToFixedToFloat (t_d t) 14 in
               (nearlyTwo a \/ nearlyTwo b \/ nearlyTwo c \/ nearlyTwo d ->
                exists a' b' c' d',
                  GlyphComponent.transform component = Some ((a', b'), (c', d'))
                  /\ clampedFrom a a' /\ clampedFrom b b'
                  /\ clampedFrom c c' /\ clampedFrom d d')) comps.
Proof.
  intros Hh Hrun. apply built_components in Hrun.
  eapply Forall_impl; [exact Hrun|]. clear Hrun.
  intros component (name & t & Hin & ->). exists name, t.
  split; [exact Hin|]. split; [reflexivity|].
  intros a b c d Hn. rewrite buildComponent_transform. fold a b c d.
  destruct (TTGlyphBasePen.notIdentity (a, b, c, d)) eqn:Hid.
  - rewrite Hh. apply any4_almostTwo in Hn. rewrite Hn. cbn [andb].
    eexists _, _, _, _. split; [reflexivity|].
    auto using clamp_clampedFrom.
  - apply notIdentity_false in Hid. apply identity_not_nearlyTwo in Hid.
    contradiction.
Qed.

(** C7: take any component that either pen keeps in its built list, and
    let [a b c d] be its transform values after quantization to the 2.14
    grid.  If they equal (1, 0, 0, 1), the record has no transform field.
    Otherwise it has one, and each value stored is the quantized value, or
    MAX_F2DOT14 where overflow handling clamped a value of (MAX_F2DOT14, 2]. *)
Theorem identity_transform_omitted fuel flags s comps s' :
  TTGlyphBasePen._buildComponents TTGlyphPen._decompose fuel flags s
    = Returns comps s'
  \/ TTGlyphBasePen._buildComponents TTGlyphPointPen._decompose fuel flags s
     = Returns comps s' ->
  Forall (fun component => exists name t,
            (name, t) ∈ components s'
            /\ GlyphComponent.glyphName component = name
            /\ let a := floatToFixedToFloat (t_a t) 14 in
               let b := floatToFixedToFloat (t_b t) 14 in
               let c := floatToFixedToFloat (t_c t) 14 in
               let d := floatToFixedToFloat (t_d t) 14 in
               let handle := handleOverflowingTransforms s in
               (isIdentity a b c d ->
                GlyphComponent.transform component = None)
               /\ (~ isIdentity a b c d ->
                   exists a' b' c' d',
                     GlyphComponent.transform component = Some ((a', b'), (c', d'))
                     /\ storedFrom handle a a' /\ storedFrom handle b b'
                     /\ storedFrom handle c c' /\ storedFrom handle d d')) comps.
Proof.
  intros Hrun. apply built_components in Hrun.
  eapply Forall_impl; [exact Hrun|]. clear Hrun.
  intros component (name & t & Hin & ->). exists name, t.
  split; [exact Hin|]. split; [reflexivity|].
  intros a b c d handle. rewrite buildComponent_transform. fold a b c d handle.
  destruct (TTGlyphBasePen.notIdentity (a, b, c, d)) eqn:Hid.
  - split.
    + intros Hi. apply notIdentity_false in Hi. congruence.
    + intros _. destruct (handle && _) eqn:Hclamp.
      * apply andb_true_iff in Hclamp. destruct Hclamp as [Hh _].
        eexists _, _, _, _. split; [reflexivity|].
        auto using clamp_storedFrom.
      * eexists _, _, _, _. split; [reflexivity|].
        unfold storedFrom. auto.
  - apply notIdentity_false in Hid. split; [reflexivity|].
    intros Hn. contradiction.
Qed.

(** With no point on the pen and no overflow, finalization needs no more
    iterations than there are pending components, and the glyph is the
    composite of the known ones (or the empty simple glyph if there is
    none): the built list is total on such pens, for any [_decompose]. *)
Lemma _buildComponents_keeps
    (_decompose : string -> Transformation -> Method unit) flags s :
  points s = [] ->
  (handleOverflowingTransforms s = true ->
   TTGlyphBasePen.anyOverflow (components s) = false) ->
  TTGlyphBasePen._buildComponents _decompose (length (components s)) flags s
  = Returns
      (map (fun c => TTGlyphBasePen.buildComponent
                       (handleOverflowingTransforms s) (fst c) (snd c) flags)
           (knownComponents s))
      s.
Proof.
  intros Hp Ho. rewrite _buildComponents_eq.
  rewrite resolveFrom_keeps; [reflexivity | exact Hp | | lia].
  destruct (handleOverflowingTransforms s); [|reflexivity].
  rewrite Ho; reflexivity.
Qed.

(** ** Decomposition *)

Lemma contourState_withPoints onCurve pts open s :
  contourState open s ->
  contourState (open || truthy pts) (withPoints onCurve pts s).
Proof.
  intros (e & Hl & He & Hlen). exists e. split; [exact Hl|]. split; [exact He|].
  simpl points. rewrite pyLen_app.
  pose proof (pyLen_nonneg pts) as Hn.
  destruct open; simpl; [lia|].
  destruct pts as [|p pts]; simpl.
  - change (pyLen (@nil Point)) with 0. lia.
  - unfold pyLen in *. simpl length. lia.
Qed.

Lemma contourState_closePath s s' :
  contourState true s ->
  TTGlyphPen.closePath s = Returns tt s' ->
  contourState false s'.
Proof.
  intros (e & Hl & He & Hlen). rewrite closePath_eq. cbv zeta.
  unfold startPt. rewrite Hl.
  replace (pyLen (points s) - 1 =? 0) with false
    by (symmetry; apply Z.eqb_neq; lia).
  cbn [orb].
  destruct (pyLen (points s) - 1 =? e + 1) eqn:Hanchor.
  - apply Z.eqb_eq in Hanchor. intros Hpop.
    apply _popPoint_returns in Hpop. destruct Hpop as (l & tys & Hp & _ & ->).
    exists e. split; [exact Hl|]. split; [exact He|].
    apply pyPop_length in Hp. simpl points. unfold pyLen in *. lia.
  - apply Z.eqb_neq in Hanchor.
    destruct (pyIndex _ _) as [p1|]; [|discriminate].
    destruct (pyIndex _ _) as [p2|]; [|discriminate].
    destruct (pointEq p1 p2).
    + destruct (TTGlyphPen._popPoint s) as [[] s1|e1 s1|s1] eqn:Hpop; try discriminate.
      intros [= <-].
      apply _popPoint_returns in Hpop. destruct Hpop as (l & tys & Hp & _ & ->).
      apply pyPop_length in Hp.
      eexists. simpl endPts. rewrite last_snoc. split; [reflexivity|].
      simpl points. unfold pyLen in *. lia.
    + intros [= <-].
      eexists. simpl endPts. rewrite last_snoc. split; [reflexivity|].
      simpl points. lia.
Qed.

Lemma TransformPen_bracket t c open open' s s' :
  bracketStep open c = Some open' ->
  contourState open s ->
  TTGlyphPen.TransformPen t c s = Returns tt s' ->
  contourState open' s'.
Proof.
  intros Hstep Hs.
  destruct c as [pt|pt|pts|[|offCurve onCurve]| | |name u];
    cbn [TTGlyphPen.TransformPen bracketStep] in *.
  - injection Hstep as <-. rewrite moveTo_eq.
    destruct (TTGlyphPen._isClosed s); [|discriminate].
    rewrite _addPoint_eq. intros [= <-].
    apply (contourState_withPoints 1 [transformPoint t pt]) in Hs.
    rewrite orb_true_r in Hs. exact Hs.
  - injection Hstep as <-. unfold TTGlyphPen.lineTo. rewrite _addPoint_eq.
    intros [= <-].
    apply (contourState_withPoints 1 [transformPoint t pt]) in Hs.
    rewrite orb_true_r in Hs. exact Hs.
  - discriminate.
  - discriminate.
  - injection Hstep as <-. rewrite qCurveTo_eq.
    apply (contourState_withPoints 0 (map (transformPoint t) offCurve)) in Hs.
    assert (Hmap : truthy (map (transformPoint t) offCurve) = truthy offCurve)
      by (destruct offCurve; reflexivity).
    rewrite Hmap in Hs.
    destruct onCurve as [pt|]; simpl option_map; intros [= <-].
    + apply (contourState_withPoints 1 [transformPoint t pt]) in Hs.
      simpl. rewrite orb_true_r in *. exact Hs.
    + simpl. rewrite orb_false_r. exact Hs.
  - destruct open; [|discriminate]. injection Hstep as <-.
    apply contourState_closePath, Hs.
  - destruct open; [|discriminate]. injection Hstep as <-.
    apply contourState_closePath, Hs.
  - injection Hstep as <-. intros [= <-]. exact Hs.
Qed.

Lemma drawOn_bracket t calls :
  forall open s s',
    wellBracketed open calls = true ->
    contourState open s ->
    TTGlyphPen.drawOn (TTGlyphPen.TransformPen t) calls s = Returns tt s' ->
    contourState false s'.
Proof.
  induction calls as [|c calls IH]; intros open s s'; simpl.
  - intros Hopen Hs [= <-]. destruct open; [discriminate | exact Hs].
  - destruct (bracketStep open c) as [open'|] eqn:Hstep; [|discriminate].
    intros Hwb Hs. unfold bind.
    destruct (TTGlyphPen.TransformPen t c s) as [[] s1|e s1|s1] eqn:Hcall;
      try discriminate.
    apply (IH open'); [exact Hwb|].
    eapply TransformPen_bracket; eassumption.
Qed.

(** On a pen with closed contours and at least one point, decomposing a
    well-bracketed outline leaves closed contours and at least one point. *)
Lemma segment_decompose_bracket gs name t s s' :
  wellBracketedGlyphSet gs ->
  contourState false s /\ glyphSet s = gs ->
  TTGlyphPen._decompose name t s = Returns tt s' ->
  contourState false s' /\ glyphSet s' = gs.
Proof.
  intros Hwf [Hs Hgs] Hrun. split.
  - revert Hrun. unfold TTGlyphPen._decompose, bind at 1, get.
    destruct (glyphSet s !! name) as [g|] eqn:Hg; [|discriminate].
    apply drawOn_bracket with (open := false); [|exact Hs].
    eapply Hwf. rewrite <- Hgs. exact Hg.
  - pose proof (segment_decompose_frame name t s) as Hf.
    rewrite Hrun in Hf. destruct Hf as [[Hg _] _]. simpl in Hg. congruence.
Qed.

Lemma contourState_points s : contourState false s -> truthy (points s) = true.
Proof.
  intros (e & _ & He & Hlen). destruct (points s); [|reflexivity].
  change (pyLen (@nil Point)) with 0 in Hlen. lia.
Qed.

Lemma isClosed_contourState s :
  TTGlyphPen._isClosed s = true -> points s <> [] -> contourState false s.
Proof.
  unfold TTGlyphPen._isClosed. intros Hc Hp.
  apply truthy_true in Hp. rewrite Hp in Hc. simpl in Hc.
  destruct (last (endPts s)) as [e|] eqn:Hl; [|discriminate].
  apply Z.eqb_eq in Hc. exists e. split; [exact Hl|].
  destruct (points s); [discriminate|].
  unfold pyLen in *. simpl length in *. lia.
Qed.

(** The point pen never removes a point. *)
Lemma point_decompose_keeps_points name t s s' :
  points s <> [] ->
  TTGlyphPointPen._decompose name t s = Returns tt s' ->
  points s' <> [].
Proof.
  intros Hp Hrun.
  pose proof (point_decompose_respects pointsGrow name t pointsGrow_refl
                pointsGrow_trans point_call_pointsGrow s) as [l Hl].
  rewrite Hrun in Hl. simpl in Hl. rewrite Hl.
  destruct (points s); [congruence | discriminate].
Qed.

Lemma decomposes_returns (_decompose : string -> Transformation -> Method unit)
    fuel (built comps : list GlyphComponent.t) s s' :
  (decomposeKnownFrom _decompose fuel 0 >> ret built) s = Returns comps s' ->
  decomposeKnownFrom _decompose fuel 0 s = Returns tt s' /\ comps = built.
Proof.
  unfold bind, ret.
  destruct (decomposeKnownFrom _decompose fuel 0 s) as [[] s1|e s1|s1];
    try discriminate.
  intros [= <- <-]. auto.
Qed.

(** When the condition of line 93 holds throughout, the finalized glyph is
    the simple glyph of the decomposed outline. *)
Lemma _glyph_decomposed (_decompose : string -> Transformation -> Method unit)
    (I : Pen -> Prop) fuel flags s g s' :
  (forall s1, I s1 ->
     truthy (points s1)
     || (handleOverflowingTransforms s1
         && (if handleOverflowingTransforms s
             then TTGlyphBasePen.anyOverflow (components s) else false)) = true) ->
  (forall name t s1 s2, I s1 -> _decompose name t s1 = Returns tt s2 -> I s2) ->
  I s ->
  TTGlyphBasePen._glyph _decompose fuel flags s = Returns g s' ->
  decomposedGlyph _decompose fuel s g.
Proof.
  intros Hcond Hstep Hs Hrun. apply _glyph_returns in Hrun.
  destruct Hrun as (comps & s1 & Hbuild & _ & ->).
  rewrite _buildComponents_eq in Hbuild.
  rewrite (resolveFrom_decomposes _decompose I _ flags Hcond Hstep fuel 0 [] s Hs)
    in Hbuild.
  apply decomposes_returns in Hbuild. destruct Hbuild as [Hdec ->].
  exists s1. split; [exact Hdec | reflexivity].
Qed.

Lemma anyOverflow_true cs name t :
  (name, t) ∈ cs ->
  outOfRange (t_a t) \/ outOfRange (t_b t)
  \/ outOfRange (t_c t) \/ outOfRange (t_d t) ->
  TTGlyphBasePen.anyOverflow cs = true.
Proof.
  intros Hin Hout. unfold TTGlyphBasePen.anyOverflow.
  apply existsb_exists. exists (name, t).
  split; [apply list_elem_of_In, Hin|].
  unfold outOfRange in Hout. cbn [snd linearPart any4].
  rewrite !orb_true_iff, !Qlt_bool_iff. tauto.
Qed.

Lemma decompose_keeps_handle
    (_decompose : string -> Transformation -> Method unit) name t s s' :
  (forall name t, respects frame (_decompose name t)) ->
  handleOverflowingTransforms s = true ->
  _decompose name t s = Returns tt s' ->
  handleOverflowingTransforms s' = true.
Proof.
  intros Hdec Hh Hrun. pose proof (Hdec name t s) as Hf.
  rewrite Hrun in Hf. destruct Hf as [[_ Hh'] _]. simpl in Hh'. congruence.
Qed.

Lemma _glyph_exclusive (_decompose : string -> Transformation -> Method unit)
    fuel flags s g s' :
  TTGlyphBasePen._glyph _decompose fuel flags s = Returns g s' ->
  (Glyph.coordinates g = [] \/ Glyph.components g = None)
  /\ forall comps,
       Glyph.components g = Some comps ->
       comps <> [] /\ Glyph.numberOfContours g = -1
       /\ Glyph.coordinates g = [] /\ Glyph.program g = None.
Proof.
  intros Hrun. apply _glyph_returns in Hrun.
  destruct Hrun as (comps & s1 & Hbuild & _ & ->).
  rewrite _buildComponents_eq in Hbuild.
  apply resolveFrom_exclusive in Hbuild; [|left; reflexivity].
  cbn [Glyph.coordinates Glyph.components Glyph.numberOfContours Glyph.program].
  destruct comps as [|c comps]; cbn [truthy].
  - split; [right; reflexivity | discriminate].
  - destruct Hbuild as [?|Hp]; [discriminate|]. rewrite Hp.
    split; [left; reflexivity|]. intros ? [= <-]. repeat split. discriminate.
Qed.

End Claims.

(** * Concrete runs

    The properties at explicit pens, with the imported helpers computed
    exactly ([exactFontTools]). *)

(** The three examples of the specification. *)

Example square_has_four_points :
  (TTGlyphPen.drawOn TTGlyphPen.call
     [MoveTo (0, 0)%Q; LineTo (0, 100)%Q; LineTo (100, 100)%Q;
      LineTo (100, 0)%Q; ClosePath] >>
   @TTGlyphPen.glyph exactFontTools 0 4) freshPen
  = Returns (Glyph.mk [(0, 0); (0, 100); (100, 100); (100, 0)] [3]
                      [1; 1; 1; 1] 1 None (Some []))
            freshPen.
Proof. vm_compute. reflexivity. Qed.

Example identity_component_is_composite :
  (TTGlyphBasePen.addComponent "A" (Affine 1 0 0 1 10 20) >>
   @TTGlyphPen.glyph exactFontTools 1 4) freshPen
  = Returns (Glyph.mk [] [] [] (-1)
                      (Some [GlyphComponent.mk "A" 10 20 None 4]) None)
            freshPen.
Proof. vm_compute. reflexivity. Qed.

Example overflowing_component_is_decomposed :
  (TTGlyphBasePen.addComponent "A" (Affine 3 0 0 1 0 0) >>
   @TTGlyphPen.glyph exactFontTools 1 4) freshPen
  = Returns (Glyph.mk [(0, 0); (0, 100); (300, 0)] [2] [1; 1; 1] 1
                      None (Some []))
            freshPen.
Proof. vm_compute. reflexivity. Qed.

(** A decomposed glyph that adds itself as a component keeps the loop of
    [_buildComponents] going: here 50 iterations do not end it. *)
Example self_reference_runs_out_of_fuel :
  let loop := mkGlyphObject [AddComponent "L" (Affine 1 0 0 1 0 0)] [] in
  let s := mkPen (<["L"%string := loop]> ∅) true [] [] []
                 [("L"%string, Affine 3 0 0 1 0 0)] None in
  exists s', @TTGlyphPen.glyph exactFontTools 50 4 s = OutOfFuel s'.
Proof. eexists. vm_compute. reflexivity. Qed.

Lemma exampleGlyphSet_wellBracketed : wellBracketedGlyphSet exampleGlyphSet.
Proof.
  intros name g Hg. unfold exampleGlyphSet in Hg.
  apply lookup_insert_Some in Hg as [[_ <-]|[_ Hg]]; [reflexivity|].
  apply lookup_insert_Some in Hg as [[_ <-]|[_ Hg]]; [reflexivity|].
  rewrite lookup_empty in Hg. discriminate.
Defined.

(** C3 at a new pen with one pending component whose first value is 2: it
    is kept, and 2 is stored as MAX_F2DOT14. *)
Lemma almost_two_is_clamped_witness :
  let s := set_components [("A"%string, Affine 2 0 0 (3 # 2) 0 0)] freshPen in
  let kept := GlyphComponent.mk "A" 0 0
                (Some ((MAX_F2DOT14, 0%Q), (0%Q, 3 # 2))) 4 in
  handleOverflowingTransforms s = true
  /\ @TTGlyphBasePen._buildComponents exactFontTools
       (@TTGlyphPen._decompose exactFontTools) 1 4 s = Returns [kept] s
  /\ exists name t,
       (name, t) ∈ components s
       /\ GlyphComponent.glyphName kept = name
       /\ (nearlyTwo (@floatToFixedToFloat exactFontTools (t_a t) 14)
           \/ nearlyTwo (@floatToFixedToFloat exactFontTools (t_b t) 14)
           \/ nearlyTwo (@floatToFixedToFloat exactFontTools (t_c t) 14)
           \/ nearlyTwo (@floatToFixedToFloat exactFontTools (t_d t) 14) ->
           exists a' b' c' d',
             GlyphComponent.transform kept = Some ((a', b'), (c', d'))
             /\ clampedFrom (@floatToFixedToFloat exactFontTools (t_a t) 14) a'
             /\ clampedFrom (@floatToFixedToFloat exactFontTools (t_b t) 14) b'
             /\ clampedFrom (@floatToFixedToFloat exactFontTools (t_c t) 14) c'
             /\ clampedFrom (@floatToFixedToFloat exactFontTools (t_d t) 14) d').
Proof.
  intros s kept.
  assert (Hrun : @TTGlyphBasePen._buildComponents exactFontTools
                   (@TTGlyphPen._decompose exactFontTools) 1 4 s
                 = Returns [kept] s) by (vm_compute; reflexivity).
  split; [reflexivity|]. split; [exact Hrun|].
  exact (Forall_inv (@almost_two_is_clamped exactFontTools 1 4 s [kept] s
                       eq_refl (or_introl Hrun))).
Defined.

(** C7 at a new pen with one pending component of identity transform: it
    is kept without a transform field, with its offset (10, 20). *)
Lemma identity_transform_omitted_witness :
  let s := set_components [("A"%string, Affine 1 0 0 1 10 20)] freshPen in
  let kept := GlyphComponent.mk "A" 10 20 None 4 in
  @TTGlyphBasePen._buildComponents exactFontTools
    (@TTGlyphPen._decompose exactFontTools) 1 4 s = Returns [kept] s
  /\ exists name t,
       (name, t) ∈ components s
       /\ GlyphComponent.glyphName kept = name
       /\ (isIdentity (@floatToFixedToFloat exactFontTools (t_a t) 14)
                      (@floatToFixedToFloat exactFontTools (t_b t) 14)
                      (@floatToFixedToFloat exactFontTools (t_c t) 14)
                      (@floatToFixedToFloat exactFontTools (t_d t) 14) ->
           GlyphComponent.transform kept = None).
Proof.
  intros s kept.
  assert (Hrun : @TTGlyphBasePen._buildComponents exactFontTools
                   (@TTGlyphPen._decompose exactFontTools) 1 4 s
                 = Returns [kept] s) by (vm_compute; reflexivity).
  split; [exact Hrun|].
  destruct (Forall_inv (@identity_transform_omitted exactFontTools 1 4 s [kept] s
                          (or_introl Hrun)))
    as (name & t & Hin & Hname & Hid & _).
  exists name, t. auto.
Defined.

(** C9 at the point pen after one sub-path: finalization returns the glyph
    and leaves a new pen. *)
Lemma finalization_resets_pen_witness :
  let s := penAfter ((TTGlyphPointPen.beginPath >>
                      TTGlyphPointPen.addPoint (0, 0)%Q (Some "line"%string) >>
                      TTGlyphPointPen.addPoint (5, 5)%Q None >>
                      TTGlyphPointPen.endPath) freshPen) in
  let g := Glyph.mk [(0, 0); (5, 5)] [1] [1; 0] 1 None (Some []) in
  @TTGlyphPointPen.glyph exactFontTools 0 4 s = Returns g freshPen
  /\ points s = [(0, 0); (5, 5)]%Q
  /\ points freshPen = [] /\ types freshPen = [] /\ endPts freshPen = []
  /\ components freshPen = [] /\ currentPath freshPen = None.
Proof.
  intros s g.
  assert (Hrun : @TTGlyphPointPen.glyph exactFontTools 0 4 s = Returns g freshPen)
    by (vm_compute; reflexivity).
  split; [exact Hrun|]. split; [reflexivity|].
  exact (proj2 (@finalization_resets_pen exactFontTools 0 4 s g freshPen
                  (or_intror Hrun))).
Defined.


(** C5 (amended) at the very first contour of a glyph: one point, no
    contour recorded yet; [closePath] removes the point. *)
Lemma anchor_collapse_any_contour_witness :
  let s := penAfter (TTGlyphPen.moveTo (0, 0)%Q freshPen) in
  endPts s = [] /\ points s = [(0, 0)%Q]
  /\ TTGlyphPen.closePath s = Returns tt freshPen.
Proof.
  intros s. split; [reflexivity|]. split; [reflexivity|].
  refine (anchor_collapse_any_contour s _ _ _).
  - reflexivity.
  - discriminate.
  - reflexivity.
Defined.

(** C5 as the specification words it: a very first contour of a single
    point is not removed by the anchor branch.  It is. *)
Lemma first_anchor_is_removed :
  ~ (forall s,
       flagged s -> endPts s = [] -> pyLen (points s) = 1 ->
       points (penAfter (TTGlyphPen.closePath s)) = points s).
Proof.
  intros Hclaim.
  specialize (Hclaim (penAfter (TTGlyphPen.moveTo (0, 0)%Q freshPen))
                eq_refl eq_refl eq_refl).
  vm_compute in Hclaim. discriminate.
Qed.

(** C4 as the specification words it, for the point pen: a sub-path with
    one on-curve point, ended at once, adds no contour to the finalized
    glyph.  It adds one. *)
Lemma point_pen_keeps_one_point_contour :
  ~ (forall s pt fuel flags g s',
       (TTGlyphPointPen.beginPath >>
        TTGlyphPointPen.addPoint pt (Some "line"%string) >>
        TTGlyphPointPen.endPath >>
        @TTGlyphPointPen.glyph exactFontTools fuel flags) s = Returns g s' ->
       Glyph.endPtsOfContours g = endPts s).
Proof.
  intros Hclaim.
  specialize (Hclaim freshPen (0, 0)%Q 0%nat 4
                (Glyph.mk [(0, 0)] [0] [1] 1 None (Some [])) freshPen).
  assert (Hrun :
    (TTGlyphPointPen.beginPath >>
     TTGlyphPointPen.addPoint (0, 0)%Q (Some "line"%string) >>
     TTGlyphPointPen.endPath >>
     @TTGlyphPointPen.glyph exactFontTools 0 4) freshPen
    = Returns (Glyph.mk [(0, 0)] [0] [1] 1 None (Some [])) freshPen)
    by (vm_compute; reflexivity).
  apply Hclaim in Hrun. discriminate.
Qed.

(** C8 at a cubic segment type, inside a sub-path. *)
Lemma cubic_input_raises_witness :
  let s := set_currentPath (Some []) freshPen in
  "curve"%string <> "line"%string /\ "curve"%string <> "qcurve"%string
  /\ TTGlyphPointPen.addPoint (0, 0)%Q (Some "curve"%string) s
     = Raises NotImplementedError s.
Proof.
  intros s.
  assert (H1 : "curve"%string <> "line"%string) by discriminate.
  assert (H2 : "curve"%string <> "qcurve"%string) by discriminate.
  split; [exact H1|]. split; [exact H2|].
  exact (proj2 cubic_input_raises (0, 0)%Q "curve"%string s H1 H2).
Defined.

(** C10 (amended) at a pen that holds a contour. *)
Lemma points_and_flags_aligned_witness :
  flagged penWithContour
  /\ flagged (penAfter (TTGlyphPen.call (LineTo (5, 5)%Q) penWithContour))
  /\ flagged (penAfter (@TTGlyphPen.glyph exactFontTools 0 4 penWithContour)).
Proof.
  assert (Hf : flagged penWithContour) by reflexivity.
  destruct (proj2 (@points_and_flags_aligned exactFontTools) penWithContour Hf)
    as (Hcall & _ & Hglyph & _).
  split; [exact Hf|]. split; [apply Hcall | apply Hglyph].
Defined.

(** C10 as stated, for finalization: an operation that raises appends to
    neither list.  Finalizing a glyph whose component "C" must be
    decomposed draws the first point of "C", then raises on its cubic
    segment: the point and its flag stay on the pen. *)
Lemma raising_finalization_appends :
  ~ (forall fuel flags s e s',
       flagged s ->
       @TTGlyphPen.glyph exactFontTools fuel flags s = Raises e s' ->
       points s' = points s /\ types s' = types s).
Proof.
  intros Hclaim.
  specialize (Hclaim 1%nat 4
                (set_components [("C"%string, Affine 3 0 0 1 0 0)] freshPen)
                NotImplementedError
                (mkPen exampleGlyphSet true [(0, 0)%Q] [] [1]
                       [("C"%string, Affine 3 0 0 1 0 0)] None)
                eq_refl).
  assert (Hrun :
    @TTGlyphPen.glyph exactFontTools 1 4
      (set_components [("C"%string, Affine 3 0 0 1 0 0)] freshPen)
    = Raises NotImplementedError
        (mkPen exampleGlyphSet true [(0, 0)%Q] [] [1]
               [("C"%string, Affine 3 0 0 1 0 0)] None))
    by (vm_compute; reflexivity).
  apply Hclaim in Hrun. destruct Hrun as [Hp _]. discriminate.
Qed.

(** * Further properties *)

(** ** Component resolution *)

Section Resolution.
Context `{FontTools}.
Variable _decompose : string -> Transformation -> Method unit.

(** An invariant that every returning decomposition keeps holds of the pen
    a returning loop leaves. *)
Lemma resolveFrom_invariant (I : Pen -> Prop) overflowing flags :
  (forall name t s s', I s -> _decompose name t s = Returns tt s' -> I s') ->
  forall fuel i built s comps s',
    I s ->
    TTGlyphBasePen.resolveFrom _decompose fuel overflowing flags i built s
    = Returns comps s' ->
    I s'.
Proof.
  intros Hstep fuel.
  induction fuel as [|fuel IH]; intros i built s comps s' Hs; simpl.
  - destruct (components s !! i) as [[name t]|]; [discriminate|].
    intros [= _ <-]. exact Hs.
  - destruct (components s !! i) as [[name t]|]; [|intros [= _ <-]; exact Hs].
    destruct (glyphSet s !! name); [|apply IH; exact Hs].
    destruct (_ || _); [|apply IH; exact Hs].
    unfold bind.
    destruct (_decompose name t s) as [[] s1|e s1|s1] eqn:Hdec; try discriminate.
    apply IH. eapply Hstep; eassumption.
Qed.

Lemma resolveFrom_skips overflowing flags fuel :
  forall i built s,
    Forall (fun c => glyphSet s !! fst c = None) (drop i (components s)) ->
    (length (components s) <= fuel + i)%nat ->
    TTGlyphBasePen.resolveFrom _decompose fuel overflowing flags i built s
    = Returns built s.
Proof.
  induction fuel as [|fuel IH]; intros i built s Hunknown Hlen; simpl.
  - rewrite (lookup_ge_None_2 (components s) i) by lia. reflexivity.
  - destruct (components s !! i) as [[name t]|] eqn:Hi; [|reflexivity].
    rewrite (drop_S _ _ _ Hi) in Hunknown.
    apply Forall_cons in Hunknown. destruct Hunknown as [Hname Hrest].
    simpl in Hname. rewrite Hname. apply IH; [exact Hrest | lia].
Qed.

(** X2: pending components whose names the glyph set does not know are
    skipped: when none is known, the loop ends after one iteration per
    pending component with an empty list, and the pen is untouched,
    whatever it holds and whatever [_decompose] would do. *)
Theorem unknown_components_are_skipped flags s :
  Forall (fun c => glyphSet s !! fst c = None) (components s) ->
  TTGlyphBasePen._buildComponents _decompose (length (components s)) flags s
  = Returns [] s.
Proof.
  intros Hunknown. rewrite _buildComponents_eq.
  apply resolveFrom_skips; [exact Hunknown | lia].
Qed.

(** X1: on a pen that holds no point, with no pending value out of range
    when overflow handling is on, nothing is decomposed: the loop ends
    after one iteration per pending component, leaves the pen untouched and
    returns one record for each pending component the glyph set knows, in
    the order in which they were added. *)
Theorem known_components_are_kept_in_order flags s :
  points s = [] ->
  (handleOverflowingTransforms s = true ->
   TTGlyphBasePen.anyOverflow (components s) = false) ->
  TTGlyphBasePen._buildComponents _decompose (length (components s)) flags s
  = Returns
      (map (fun c => TTGlyphBasePen.buildComponent
                       (handleOverflowingTransforms s) (fst c) (snd c) flags)
           (knownComponents s))
      s.
Proof.
  intros Hp Ho. rewrite _buildComponents_eq.
  rewrite resolveFrom_keeps; [reflexivity | exact Hp | | lia].
  destruct (handleOverflowingTransforms s); [|reflexivity].
  rewrite Ho; reflexivity.
Qed.

(** X14: with overflow handling off, no transform value forces a
    decomposition and none is clamped: on a pen without points every known
    pending component is kept, values above 2 or below -2 included, with
    its quantized values stored as they are (or no transform field for the
    identity) and its offset rounded. *)
Theorem overflow_handling_off_keeps_and_never_clamps flags s :
  handleOverflowingTransforms s = false ->
  points s = [] ->
  TTGlyphBasePen._buildComponents _decompose (length (components s)) flags s
  = Returns (map (plainComponent flags) (knownComponents s)) s.
Proof.
  intros Hh Hp. rewrite _buildComponents_keeps; [|exact Hp|congruence].
  rewrite Hh. reflexivity.
Qed.
End Resolution.

(** ** What no operation changes *)

Section Configuration.
Context `{FontTools}.

Lemma respects_weaken {A} (R R' : Pen -> Pen -> Prop) (m : Method A) :
  (forall s s', R s s' -> R' s s') -> respects R m -> respects R' m.
Proof. intros Hsub Hm s. apply Hsub, Hm. Qed.

Lemma frame_sameConfig s s' : frame s s' -> sameConfig s s'.
Proof. intros [Hc _]. exact Hc. Qed.

Lemma init_sameConfig : respects sameConfig TTGlyphBasePen.init.
Proof. intros s. split; reflexivity. Qed.

(** X3: the glyph set and the overflow setting given to the constructor
    are never reassigned: after any drawing call and after finalization, on
    either pen, returning or raising, decomposition included, they are
    what they were. *)
Theorem configuration_is_never_changed s :
  (forall c, sameConfig s (penAfter (TTGlyphPen.call c s)))
  /\ (forall c, sameConfig s (penAfter (TTGlyphPointPen.call c s)))
  /\ (forall fuel flags, sameConfig s (penAfter (TTGlyphPen.glyph fuel flags s)))
  /\ (forall fuel flags,
        sameConfig s (penAfter (TTGlyphPointPen.glyph fuel flags s))).
Proof.
  refine (conj _ (conj _ (conj _ _))).
  - intros c. apply frame_sameConfig, call_frame.
  - intros c. apply frame_sameConfig, point_call_frame.
  - intros fuel flags. rewrite segment_glyph_eq.
    destruct (TTGlyphPen._isClosed s); [|apply sameConfig_refl].
    apply (_glyph_respects TTGlyphPen._decompose sameConfig sameConfig_refl
             sameConfig_trans); [|apply init_sameConfig].
    intros name t. eapply respects_weaken;
      [apply frame_sameConfig | apply segment_decompose_frame].
  - intros fuel flags. rewrite point_glyph_eq.
    destruct (currentPath s); [apply sameConfig_refl|].
    apply (_glyph_respects TTGlyphPointPen._decompose sameConfig sameConfig_refl
             sameConfig_trans); [|apply init_sameConfig].
    intros name t. eapply respects_weaken;
      [apply frame_sameConfig | apply point_decompose_frame].
Qed.

(** X12: a glyph that either pen returns from a pen with one flag per
    point has one flag per coordinate; it is composite (component list,
    [numberOfContours] -1, no program) or simple (no component list, as
    many contours as end indices, the empty program), never a mixture. *)
Theorem returned_glyph_shape fuel flags s g s' :
  flagged s ->
  TTGlyphPen.glyph fuel flags s = Returns g s'
  \/ TTGlyphPointPen.glyph fuel flags s = Returns g s' ->
  length (Glyph.flags g) = length (Glyph.coordinates g)
  /\ ((exists comps,
         Glyph.components g = Some comps /\ comps <> []
         /\ Glyph.numberOfContours g = -1 /\ Glyph.program g = None)
      \/ (Glyph.components g = None
          /\ Glyph.numberOfContours g = pyLen (Glyph.endPtsOfContours g)
          /\ Glyph.program g = Some [])).
Proof.
  intros Hf Hrun.
  assert (Hshape : exists comps s1,
             flagged s1
             /\ g = Glyph.mk (map (fun p => (toInt (fst p), toInt (snd p))) (points s1))
                      (endPts s1) (types s1)
                      (if truthy comps then -1 else pyLen (endPts s1))
                      (if truthy comps then Some comps else None)
                      (if truthy comps then None else Some [])).
  { destruct Hrun as [Hrun|Hrun].
    - rewrite segment_glyph_eq in Hrun.
      destruct (TTGlyphPen._isClosed s); [|discriminate].
      apply _glyph_returns in Hrun. destruct Hrun as (comps & s1 & Hb & _ & Hg).
      exists comps, s1. split; [|exact Hg].
      pose proof (_buildComponents_respects TTGlyphPen._decompose keepsFlagged
                    keepsFlagged_refl keepsFlagged_trans segment_decompose_flagged
                    fuel flags s) as Hk.
      rewrite Hb in Hk. apply Hk, Hf.
    - rewrite point_glyph_eq in Hrun.
      destruct (currentPath s); [discriminate|].
      apply _glyph_returns in Hrun. destruct Hrun as (comps & s1 & Hb & _ & Hg).
      exists comps, s1. split; [|exact Hg].
      pose proof (_buildComponents_respects TTGlyphPointPen._decompose keepsFlagged
                    keepsFlagged_refl keepsFlagged_trans point_decompose_flagged
                    fuel flags s) as Hk.
      rewrite Hb in Hk. apply Hk, Hf. }
  destruct Hshape as (comps & s1 & Hf1 & ->).
  cbn [Glyph.flags Glyph.coordinates Glyph.components Glyph.numberOfContours
       Glyph.program Glyph.endPtsOfContours].
  split; [rewrite length_map; symmetry; exact Hf1|].
  destruct comps as [|c comps]; cbn [truthy].
  - right. auto.
  - left. exists (c :: comps). repeat split. discriminate.
Qed.
End Configuration.

(** ** Flags *)

Section Flags.
Context `{FontTools}.

Lemma keepsBits_refl s : keepsBits s s.
Proof. intros ?. assumption. Qed.

Lemma keepsBits_trans s1 s2 s3 :
  keepsBits s1 s2 -> keepsBits s2 s3 -> keepsBits s1 s3.
Proof. unfold keepsBits. auto. Qed.

Lemma _addPoint_bits pt onCurve :
  onCurve = 0 \/ onCurve = 1 ->
  respects keepsBits (TTGlyphPen._addPoint pt onCurve).
Proof.
  intros Hbit s Hs. red in Hs |- *. simpl.
  apply Forall_app. split; [exact Hs|]. constructor; [exact Hbit | constructor].
Qed.

Lemma pyPop_Forall {A} (P : A -> Prop) (l l' : list A) :
  pyPop l = Some l' -> Forall P l -> Forall P l'.
Proof.
  destruct l as [|a l _] using rev_ind; [discriminate|].
  rewrite pyPop_app. intros [= <-] Hl. apply Forall_app in Hl. apply Hl.
Qed.

Lemma _popPoint_bits : respects keepsBits TTGlyphPen._popPoint.
Proof.
  intros s. unfold TTGlyphPen._popPoint. run_method.
  destruct (pyPop (points s)) as [l|]; simpl; [|apply keepsBits_refl].
  destruct (pyPop (types s)) as [tys|] eqn:Ht; simpl.
  - intros Hs. red in Hs |- *. simpl. eapply pyPop_Forall; eassumption.
  - intros Hs. exact Hs.
Qed.

Lemma closePath_bits : respects keepsBits TTGlyphPen.closePath.
Proof.
  intros s. unfold TTGlyphPen.closePath. unfold bind at 1, get. simpl.
  destruct (_ || _); [apply _popPoint_bits|].
  destruct (pyIndex _ _) as [p1|]; [|apply keepsBits_refl].
  destruct (pyIndex _ _) as [p2|]; [|apply keepsBits_refl].
  through_bind keepsBits_trans.
  - destruct (pointEq p1 p2).
    + through_bind keepsBits_trans; [apply _popPoint_bits|].
      apply respects_ret, keepsBits_refl.
    + apply respects_ret, keepsBits_refl.
  - apply respects_modify. intros s' Hs. exact Hs.
Qed.

Lemma addOffCurve_bits pts : respects keepsBits (TTGlyphPen.addOffCurve pts).
Proof.
  induction pts as [|pt pts IH]; simpl.
  - apply respects_ret, keepsBits_refl.
  - through_bind keepsBits_trans; [apply _addPoint_bits; auto | exact IH].
Qed.

Lemma call_bits c : respects keepsBits (TTGlyphPen.call c).
Proof.
  destruct c as [pt|pt|pts|args| | |name t]; simpl.
  - intros s. rewrite moveTo_eq.
    destruct (TTGlyphPen._isClosed s); [apply _addPoint_bits; auto|apply keepsBits_refl].
  - apply _addPoint_bits. auto.
  - apply respects_raise, keepsBits_refl.
  - destruct args as [|offCurve [pt|]]; unfold TTGlyphPen.qCurveTo.
    + apply respects_raise, keepsBits_refl.
    + through_bind keepsBits_trans;
        [apply addOffCurve_bits | apply _addPoint_bits; auto].
    + through_bind keepsBits_trans;
        [apply addOffCurve_bits | apply respects_ret, keepsBits_refl].
  - apply closePath_bits.
  - apply closePath_bits.
  - intros s Hs. exact Hs.
Qed.

(** What [TransformPen] forwards is a call on the pen, or (for
    [qCurveTo] without arguments) an exception raised before the pen is
    reached. *)
Lemma TransformPen_call t c :
  (exists c', TTGlyphPen.TransformPen t c = TTGlyphPen.call c'
              /\ forall open, bracketStep open c' = bracketStep open c)
  \/ TTGlyphPen.TransformPen t c = raise IndexError.
Proof.
  destruct c as [pt|pt|pts|[|offCurve onCurve]| | |name u].
  - left. exists (MoveTo (transformPoint t pt)). split; reflexivity.
  - left. exists (LineTo (transformPoint t pt)). split; reflexivity.
  - left. exists (CurveTo (map (option_map (transformPoint t)) pts)).
    split; reflexivity.
  - right. reflexivity.
  - left.
    exists (QCurveTo (QArgs (map (transformPoint t) offCurve)
                            (option_map (transformPoint t) onCurve))).
    split; [reflexivity|]. intros open. simpl.
    destruct offCurve, onCurve; reflexivity.
  - left. exists ClosePath. split; reflexivity.
  - left. exists EndPath. split; reflexivity.
  - left. exists (AddComponent name (transformTransform t u)). split; reflexivity.
Qed.

Lemma segment_decompose_bits name t : respects keepsBits (TTGlyphPen._decompose name t).
Proof.
  apply segment_decompose_respects;
    [apply keepsBits_refl | apply keepsBits_trans |].
  intros c. destruct (TransformPen_call t c) as [(c' & -> & _)| ->];
    [apply call_bits | apply respects_raise, keepsBits_refl].
Qed.

Lemma point_call_bits c : respects keepsBits (TTGlyphPointPen.call c).
Proof.
  intros s Hs. red in Hs |- *. destruct c; simpl;
    rewrite ?beginPath_eq, ?endPath_eq, ?addPoint_eq;
    split_match; simpl; trivial.
  apply Forall_app. split; [exact Hs|]. constructor; [|constructor].
  unfold flagOf in *. destruct segmentType as [role|].
  - destruct (_ || _); [|discriminate]. right. congruence.
  - left. congruence.
Qed.

Lemma point_decompose_bits name t :
  respects keepsBits (TTGlyphPointPen._decompose name t).
Proof.
  apply point_decompose_respects;
    [apply keepsBits_refl | apply keepsBits_trans | apply point_call_bits].
Qed.

Lemma arrayB_bits s : bits s -> TTGlyphBasePen.arrayB (types s) s = Returns (types s) s.
Proof.
  intros Hs. unfold TTGlyphBasePen.arrayB.
  replace (forallb _ (types s)) with true; [reflexivity|].
  symmetry. apply forallb_forall. intros v Hv.
  red in Hs. rewrite Forall_forall in Hs. apply list_elem_of_In in Hv.
  destruct (Hs v Hv) as [-> | ->]; reflexivity.
Qed.

Lemma _glyph_after_build (_decompose : string -> Transformation -> Method unit)
    fuel flags s comps s1 :
  TTGlyphBasePen._buildComponents _decompose fuel flags s = Returns comps s1 ->
  bits s1 ->
  exists g,
    TTGlyphBasePen._glyph _decompose fuel flags s
    = Returns g (TTGlyphBasePen.new (glyphSet s1) (handleOverflowingTransforms s1)).
Proof.
  intros Hb Hs1. unfold TTGlyphBasePen._glyph, bind at 1. rewrite Hb.
  unfold bind at 1, get. unfold bind at 1. rewrite (arrayB_bits s1 Hs1).
  unfold bind, TTGlyphBasePen.init, modify, ret.
  destruct (truthy comps); eexists; reflexivity.
Qed.

(** X4: the flags a pen stores are 0 or 1.  A new pen has none; every
    drawing call of either pen keeps the property, returning or raising;
    and because decomposition keeps it too, the conversion of the flags to
    a byte array cannot fail: whenever the component list of a glyph is
    built, the finalizer returns a glyph and resets the pen. *)
Theorem flags_are_bits :
  (forall gs handle, bits (TTGlyphBasePen.new gs handle))
  /\ forall s,
       bits s ->
       (forall c, bits (penAfter (TTGlyphPen.call c s)))
       /\ (forall c, bits (penAfter (TTGlyphPointPen.call c s)))
       /\ (forall fuel flags comps s1,
             TTGlyphBasePen._buildComponents TTGlyphPen._decompose fuel flags s
             = Returns comps s1 ->
             exists g,
               TTGlyphBasePen._glyph TTGlyphPen._decompose fuel flags s
               = Returns g (TTGlyphBasePen.new (glyphSet s)
                              (handleOverflowingTransforms s)))
       /\ (forall fuel flags comps s1,
             TTGlyphBasePen._buildComponents TTGlyphPointPen._decompose fuel flags s
             = Returns comps s1 ->
             exists g,
               TTGlyphBasePen._glyph TTGlyphPointPen._decompose fuel flags s
               = Returns g (TTGlyphBasePen.new (glyphSet s)
                              (handleOverflowingTransforms s))).
Proof.
  split; [intros gs handle; constructor|]. intros s Hs.
  refine (conj _ (conj _ (conj _ _))).
  - intros c. apply call_bits, Hs.
  - intros c. apply point_call_bits, Hs.
  - intros fuel flags comps s1 Hb.
    pose proof (_buildComponents_respects TTGlyphPen._decompose keepsBits
                  keepsBits_refl keepsBits_trans segment_decompose_bits
                  fuel flags s) as Hk.
    pose proof (_buildComponents_respects TTGlyphPen._decompose frame
                  frame_refl frame_trans segment_decompose_frame
                  fuel flags s) as Hf.
    rewrite Hb in Hk, Hf. simpl in Hk, Hf. destruct Hf as [[Hg Hh] _].
    rewrite <- Hg, <- Hh. eapply _glyph_after_build; [exact Hb | apply Hk, Hs].
  - intros fuel flags comps s1 Hb.
    pose proof (_buildComponents_respects TTGlyphPointPen._decompose keepsBits
                  keepsBits_refl keepsBits_trans point_decompose_bits
                  fuel flags s) as Hk.
    pose proof (_buildComponents_respects TTGlyphPointPen._decompose frame
                  frame_refl frame_trans point_decompose_frame
                  fuel flags s) as Hf.
    rewrite Hb in Hk, Hf. simpl in Hk, Hf. destruct Hf as [[Hg Hh] _].
    rewrite <- Hg, <- Hh. eapply _glyph_after_build; [exact Hb | apply Hk, Hs].
Qed.
End Flags.

(** ** Contours of the segment pen, in general *)

Section SegmentOutline.
Context `{FontTools}.

Lemma startPt_nonneg s : contoursOrdered s -> 0 <= startPt s.
Proof.
  intros [_ Hb]. unfold startPt in *.
  destruct (last (endPts s)) as [e|] eqn:Hl; [|lia].
  apply last_Some_elem_of in Hl. rewrite Forall_forall in Hb.
  specialize (Hb e Hl). lia.
Qed.

Lemma contoursOrdered_same s s' :
  endPts s' = endPts s -> contoursOrdered s -> contoursOrdered s'.
Proof. unfold contoursOrdered, startPt. intros ->. trivial. Qed.

Lemma contoursOrdered_append s s' e :
  endPts s' = endPts s ++ [e] ->
  startPt s <= e ->
  contoursOrdered s ->
  contoursOrdered s' /\ startPt s' = e + 1.
Proof.
  intros He Hle Hs. pose proof (startPt_nonneg s Hs) as H0.
  destruct Hs as [Hsorted Hb].
  assert (Hst : startPt s' = e + 1).
  { unfold startPt. rewrite He, last_snoc. reflexivity. }
  split; [|exact Hst]. split.
  - rewrite He. apply StronglySorted_app_2.
    + intros x1 x2 H1 H2. apply list_elem_of_singleton in H2. subst x2.
      rewrite Forall_forall in Hb. specialize (Hb x1 H1). lia.
    + exact Hsorted.
    + repeat constructor.
  - rewrite Hst, He. apply Forall_app. split.
    + eapply Forall_impl; [exact Hb|]. simpl. intros x Hx. lia.
    + constructor; [lia | constructor].
Qed.

Lemma pyIndex_is_Some {A} (l : list A) i :
  0 <= i < pyLen l -> is_Some (pyIndex l i).
Proof.
  intros Hi. unfold pyIndex.
  replace (0 <=? i) with true by (symmetry; apply Z.leb_le; lia).
  replace (i <? pyLen l) with true by (symmetry; apply Z.ltb_lt; lia).
  cbn [andb]. apply lookup_lt_is_Some. unfold pyLen in Hi. lia.
Qed.

Lemma pyIndex_out {A} (l : list A) : pyIndex l (pyLen l) = None.
Proof.
  unfold pyIndex. pose proof (pyLen_nonneg l) as Hn.
  replace (pyLen l <? pyLen l) with false by (symmetry; apply Z.ltb_ge; lia).
  rewrite andb_false_r.
  replace (pyLen l <? 0) with false by (symmetry; apply Z.ltb_ge; lia).
  rewrite andb_false_r. reflexivity.
Qed.

Lemma outlineState_withPoints onCurve pts open s :
  outlineState open s ->
  outlineState (open || truthy pts) (withPoints onCurve pts s).
Proof.
  intros (Ho & Hf & Hlen). refine (conj _ (conj _ _)).
  - eapply contoursOrdered_same; [|exact Ho]. reflexivity.
  - red in Hf |- *. simpl. rewrite !length_app, length_map. lia.
  - change (startPt (withPoints onCurve pts s)) with (startPt s).
    simpl points. rewrite pyLen_app. pose proof (pyLen_nonneg pts) as Hn.
    destruct open; simpl; [lia|].
    destruct pts as [|p pts]; simpl.
    + change (pyLen (@nil Point)) with 0. lia.
    + unfold pyLen in *. simpl length. lia.
Qed.

Lemma closePath_open s :
  outlineState true s ->
  exists s',
    TTGlyphPen.closePath s = Returns tt s'
    /\ outlineState false s'
    /\ (points s' = points s \/ pyPop (points s) = Some (points s'))
    /\ (endPts s' = endPts s
        \/ endPts s' = endPts s ++ [pyLen (points s') - 1]).
Proof.
  intros (Ho & Hf & Hlen). pose proof (startPt_nonneg s Ho) as H0.
  rewrite closePath_eq, (_popPoint_flagged_eq s Hf). cbv zeta.
  destruct (pyPop (points s)) as [l|] eqn:Hp.
  2:{ apply pyPop_None in Hp. rewrite Hp in Hlen.
      change (pyLen (@nil Point)) with 0 in Hlen. lia. }
  destruct (pyPop (types s)) as [tys|] eqn:Ht.
  2:{ apply pyPop_None in Ht. red in Hf. rewrite Ht in Hf.
      apply pyPop_length in Hp. simpl in Hf. lia. }
  assert (Hl : pyLen l = pyLen (points s) - 1).
  { apply pyPop_length in Hp. unfold pyLen. lia. }
  assert (Hfl : flagged (set_types tys (set_points l s))).
  { red in Hf |- *. simpl. apply pyPop_length in Hp, Ht. lia. }
  destruct (_ || _) eqn:Hanchor.
  - eexists. split; [reflexivity|]. simpl points. simpl endPts.
    refine (conj (conj _ (conj Hfl _)) (conj _ _)); [| |right; reflexivity|left; reflexivity].
    + eapply contoursOrdered_same; [|exact Ho]. reflexivity.
    + change (startPt (set_types tys (set_points l s))) with (startPt s).
      simpl points. rewrite Hl.
      apply orb_true_iff in Hanchor. unfold startPt in *.
      destruct Hanchor as [Hz|Hn].
      * apply Z.eqb_eq in Hz. lia.
      * destruct (last (endPts s)); [|discriminate]. apply Z.eqb_eq in Hn. lia.
  - assert (Hlt : startPt s < pyLen (points s) - 1).
    { apply orb_false_iff in Hanchor. destruct Hanchor as [Hz Hn].
      apply Z.eqb_neq in Hz. unfold startPt in *.
      destruct (last (endPts s)); [apply Z.eqb_neq in Hn|]; lia. }
    destruct (pyIndex_is_Some (points s) (startPt s)) as [p1 ->]; [lia|].
    destruct (pyIndex_is_Some (points s) (pyLen (points s) - 1)) as [p2 ->]; [lia|].
    destruct (pointEq p1 p2).
    + eexists. split; [reflexivity|]. simpl points. simpl endPts.
      destruct (contoursOrdered_append s
                  (set_endPts (endPts s ++ [pyLen (points s) - 1 - 1])
                     (set_types tys (set_points l s)))
                  (pyLen (points s) - 1 - 1) eq_refl ltac:(lia) Ho) as [Ho' Hst].
      refine (conj (conj Ho' (conj Hfl _)) (conj _ _)).
      * rewrite Hst. simpl points. lia.
      * right. reflexivity.
      * right. rewrite Hl. reflexivity.
    + eexists. split; [reflexivity|]. simpl points. simpl endPts.
      destruct (contoursOrdered_append s
                  (set_endPts (endPts s ++ [pyLen (points s) - 1]) s)
                  (pyLen (points s) - 1) eq_refl ltac:(lia) Ho) as [Ho' Hst].
      refine (conj (conj Ho' (conj Hf _)) (conj _ _)).
      * rewrite Hst. simpl points. lia.
      * left. reflexivity.
      * right. reflexivity.
Qed.

(** X7: closing an open contour never fails.  On a pen with at least one
    point after the last recorded contour, [closePath] returns; it removes
    no point or only the last one, records no end index (anchor) or the
    index of the last remaining point, and leaves every point inside a
    recorded contour. *)
Theorem closePath_on_open_contour s :
  outlineState true s ->
  exists s',
    TTGlyphPen.closePath s = Returns tt s'
    /\ outlineState false s'
    /\ (points s' = points s \/ pyPop (points s) = Some (points s'))
    /\ (endPts s' = endPts s
        \/ endPts s' = endPts s ++ [pyLen (points s') - 1]).
Proof.
  intros Hs. destruct (closePath_open s Hs) as (s' & Hrun & Hs' & Hp & He).
  exists s'. auto.
Qed.

Lemma outlineState_isClosed open s :
  outlineState open s -> TTGlyphPen._isClosed s = negb open.
Proof.
  intros (Ho & Hf & Hlen). pose proof (startPt_nonneg s Ho) as H0.
  unfold TTGlyphPen._isClosed, startPt in *.
  destruct (points s) as [|p l] eqn:Hp.
  - change (pyLen (@nil Point)) with 0 in Hlen.
    destruct open; [lia | reflexivity].
  - cbn [truthy negb orb].
    assert (Hn : pyLen (p :: l) = pyLen l + 1) by (unfold pyLen; simpl length; lia).
    pose proof (pyLen_nonneg l) as Hl.
    destruct (last (endPts s)) as [e|]; destruct open; cbn [negb];
      try reflexivity; try (apply Z.eqb_neq; lia); try (apply Z.eqb_eq; lia); lia.
Qed.

(** X5: while a contour is open, a new one cannot be begun and the glyph
    cannot be finalized: [moveTo] and [glyph] both fail their assertion and
    leave the pen as it is. *)
Theorem open_contour_blocks_moveTo_and_glyph s :
  outlineState true s ->
  (forall pt, TTGlyphPen.moveTo pt s = Raises AssertionError s)
  /\ (forall fuel flags, TTGlyphPen.glyph fuel flags s = Raises AssertionError s).
Proof.
  intros Hs. apply outlineState_isClosed in Hs. simpl in Hs. split.
  - intros pt. rewrite moveTo_eq, Hs. reflexivity.
  - intros fuel flags. rewrite segment_glyph_eq, Hs. reflexivity.
Qed.

(** X6: [closePath] with no open contour.  On a pen all of whose points
    lie in recorded contours it raises [IndexError] and changes nothing,
    except when the pen holds exactly one point: then that point and its
    flag are removed, while its end index stays recorded. *)
Theorem closePath_without_open_contour s :
  outlineState false s ->
  TTGlyphPen.closePath s
  = if pyLen (points s) =? 1
    then Returns tt (set_types [] (set_points [] s))
    else Raises IndexError s.
Proof.
  intros (Ho & Hf & Hlen). rewrite closePath_eq, (_popPoint_flagged_eq s Hf).
  cbv zeta. rewrite Hlen.
  destruct (pyLen (points s) =? 1) eqn:Hone.
  - apply Z.eqb_eq in Hone.
    replace (pyLen (points s) - 1 =? 0) with true
      by (symmetry; apply Z.eqb_eq; lia).
    cbn [orb]. red in Hf. unfold pyLen in Hone.
    destruct (points s) as [|p [|p' l]]; simpl in Hone; try lia.
    destruct (types s) as [|f [|f' tys]]; simpl in Hf; try lia.
    reflexivity.
  - apply Z.eqb_neq in Hone.
    replace (pyLen (points s) - 1 =? 0) with false
      by (symmetry; apply Z.eqb_neq; lia).
    assert (Hn : match last (endPts s) with
                 | Some e => pyLen (points s) - 1 =? e + 1
                 | None => false
                 end = false).
    { unfold startPt in Hlen. destruct (last (endPts s)); [|reflexivity].
      apply Z.eqb_neq. lia. }
    rewrite Hn. cbn [orb]. rewrite pyIndex_out. reflexivity.
Qed.

(** One call on the segment pen, followed through [bracketStep]. *)
Lemma call_outline c open open' s s' :
  bracketStep open c = Some open' ->
  outlineState open s ->
  TTGlyphPen.call c s = Returns tt s' ->
  outlineState open' s'.
Proof.
  intros Hstep Hs.
  destruct c as [pt|pt|pts|[|offCurve onCurve]| | |name u];
    cbn [TTGlyphPen.call bracketStep] in *.
  - injection Hstep as <-. rewrite moveTo_eq.
    destruct (TTGlyphPen._isClosed s); [|discriminate].
    rewrite _addPoint_eq. intros [= <-].
    apply (outlineState_withPoints 1 [pt]) in Hs.
    rewrite orb_true_r in Hs. exact Hs.
  - injection Hstep as <-. unfold TTGlyphPen.lineTo. rewrite _addPoint_eq.
    intros [= <-].
    apply (outlineState_withPoints 1 [pt]) in Hs.
    rewrite orb_true_r in Hs. exact Hs.
  - discriminate.
  - discriminate.
  - injection Hstep as <-. rewrite qCurveTo_eq.
    apply (outlineState_withPoints 0 offCurve) in Hs.
    destruct onCurve as [pt|]; intros [= <-].
    + apply (outlineState_withPoints 1 [pt]) in Hs.
      simpl. rewrite orb_true_r in *. exact Hs.
    + simpl. rewrite orb_false_r. exact Hs.
  - destruct open; [|discriminate]. injection Hstep as <-. intros Hrun.
    destruct (closePath_open s Hs) as (s1 & Hrun1 & Hs1 & _).
    congruence.
  - destruct open; [|discriminate]. injection Hstep as <-. intros Hrun.
    destruct (closePath_open s Hs) as (s1 & Hrun1 & Hs1 & _).
    unfold TTGlyphPen.endPath in Hrun. congruence.
  - injection Hstep as <-. intros [= <-]. exact Hs.
Qed.

Lemma drawOn_outline pen calls :
  (forall c open open' s s',
     bracketStep open c = Some open' -> outlineState open s ->
     pen c s = Returns tt s' -> outlineState open' s') ->
  forall open s s',
    wellBracketed open calls = true ->
    outlineState open s ->
    TTGlyphPen.drawOn pen calls s = Returns tt s' ->
    outlineState false s'.
Proof.
  intros Hpen. induction calls as [|c calls IH]; intros open s s'; simpl.
  - intros Hopen Hs [= <-]. destruct open; [discriminate | exact Hs].
  - destruct (bracketStep open c) as [open'|] eqn:Hstep; [|discriminate].
    intros Hwb Hs. unfold bind.
    destruct (pen c s) as [[] s1|e s1|s1] eqn:Hcall; try discriminate.
    apply (IH open'); [exact Hwb|]. eapply Hpen; eassumption.
Qed.

Lemma TransformPen_outline t c open open' s s' :
  bracketStep open c = Some open' ->
  outlineState open s ->
  TTGlyphPen.TransformPen t c s = Returns tt s' ->
  outlineState open' s'.
Proof.
  intros Hstep Hs.
  destruct (TransformPen_call t c) as [(c' & -> & Hc')| ->]; [|discriminate].
  apply (call_outline c' open open' s s'); [rewrite Hc'; exact Hstep | exact Hs].
Qed.

(** X8: a well-bracketed sequence of calls (every [closePath] or [endPath]
    closes a contour with at least one point, none is left open) drawn on a
    pen in good state, a new pen for one, leaves a pen in good state when it
    returns: end indices strictly increasing and within the point list, one
    flag per point, every point inside a recorded contour; so [glyph] will
    pass its assertion. *)
Theorem well_bracketed_drawing_keeps_contours calls s s' :
  wellBracketed false calls = true ->
  outlineState false s ->
  TTGlyphPen.drawOn TTGlyphPen.call calls s = Returns tt s' ->
  outlineState false s' /\ TTGlyphPen._isClosed s' = true.
Proof.
  intros Hwb Hs Hrun.
  assert (Hs' : outlineState false s').
  { eapply (drawOn_outline TTGlyphPen.call calls call_outline false s s');
      eassumption. }
  split; [exact Hs'|]. apply (outlineState_isClosed false s' Hs').
Qed.

Lemma contours_wellFormed s n comps prog :
  contoursOrdered s -> flagged s -> startPt s <= pyLen (points s) ->
  outlineWellFormed
    (Glyph.mk (map (fun p => (toInt (fst p), toInt (snd p))) (points s))
              (endPts s) (types s) n comps prog).
Proof.
  intros [Hsorted Hb] Hf Hlen.
  refine (conj Hsorted (conj _ _)); cbn.
  - eapply Forall_impl; [exact Hb|]. simpl. intros e He.
    assert (Hm : pyLen (map (fun p : Q * Q => (toInt (fst p), toInt (snd p)))
                        (points s)) = pyLen (points s))
      by (unfold pyLen; rewrite length_map; reflexivity).
    rewrite Hm. lia.
  - rewrite length_map. symmetry. exact Hf.
Qed.

Lemma segment_decompose_outline gs name t s s' :
  wellBracketedGlyphSet gs ->
  outlineState false s /\ glyphSet s = gs ->
  TTGlyphPen._decompose name t s = Returns tt s' ->
  outlineState false s' /\ glyphSet s' = gs.
Proof.
  intros Hwf [Hs Hgs] Hrun. split.
  - revert Hrun. unfold TTGlyphPen._decompose, bind at 1, get.
    destruct (glyphSet s !! name) as [g|] eqn:Hg; [|discriminate].
    apply (drawOn_outline (TTGlyphPen.TransformPen t) (draw g)
             (TransformPen_outline t) false s s'); [|exact Hs].
    eapply Hwf. rewrite <- Hgs. exact Hg.
  - pose proof (segment_decompose_frame name t s) as Hf.
    rewrite Hrun in Hf. destruct Hf as [[Hg _] _]. simpl in Hg. congruence.
Qed.

(** X15: the outline arrays of a glyph returned by the segment pen fit
    together (end indices strictly increasing and inside the coordinate
    array, one flag per coordinate), when the pen was in good state and the
    outlines of the glyph set, which decomposition replays, are well
    bracketed. *)
Theorem segment_glyph_outline_is_well_formed fuel flags s g s' :
  wellBracketedGlyphSet (glyphSet s) ->
  outlineState false s ->
  TTGlyphPen.glyph fuel flags s = Returns g s' ->
  outlineWellFormed g.
Proof.
  intros Hwf Hs. rewrite segment_glyph_eq.
  destruct (TTGlyphPen._isClosed s); [|discriminate].
  intros Hrun. apply _glyph_returns in Hrun.
  destruct Hrun as (comps & s1 & Hbuild & _ & ->).
  rewrite _buildComponents_eq in Hbuild.
  apply (resolveFrom_invariant TTGlyphPen._decompose
           (fun s1 => outlineState false s1 /\ glyphSet s1 = glyphSet s)) in Hbuild.
  - destruct Hbuild as [(Ho & Hf & Hlen) _].
    apply contours_wellFormed; [exact Ho | exact Hf | lia].
  - intros name t s2 s3. apply segment_decompose_outline, Hwf.
  - split; [exact Hs | reflexivity].
Qed.
End SegmentOutline.

(** ** Sub-paths of the point pen *)

Section PointOutline.
Context `{FontTools}.

Lemma keepsSubpathState_refl s : keepsSubpathState s s.
Proof. intros ?. assumption. Qed.

Lemma keepsSubpathState_trans s1 s2 s3 :
  keepsSubpathState s1 s2 -> keepsSubpathState s2 s3 -> keepsSubpathState s1 s3.
Proof. unfold keepsSubpathState. auto. Qed.

Lemma point_call_subpathState c : respects keepsSubpathState (TTGlyphPointPen.call c).
Proof.
  intros s Hs. pose proof Hs as (Ho & Hf & Hlen).
  destruct c as [|pt segmentType| |name t]; simpl.
  - rewrite beginPath_eq.
    destruct (currentPath s) eqn:Hpath; simpl; [exact Hs|].
    refine (conj Ho (conj Hf _)). exact Hlen.
  - rewrite addPoint_eq.
    destruct (currentPath s) as [path|] eqn:Hpath; simpl; [|exact Hs].
    destruct (flagOf segmentType) as [flag|]; simpl; [|exact Hs].
    refine (conj Ho (conj _ _)).
    + red in Hf |- *. simpl. rewrite !length_app. simpl. lia.
    + change (startPt _) with (startPt s). simpl.
      rewrite !pyLen_app. simpl in Hlen. change (pyLen [pt]) with 1. lia.
  - rewrite endPath_eq.
    destruct (currentPath s) as [path|] eqn:Hpath; simpl; [|exact Hs].
    simpl in Hlen. destruct path as [|p path]; cbn [truthy].
    + refine (conj Ho (conj Hf _)). simpl. exact Hlen.
    + assert (Hp : 1 <= pyLen (p :: path))
        by (unfold pyLen; simpl length; lia).
      destruct (contoursOrdered_append s
                  (set_currentPath None
                     (set_endPts (endPts s ++ [pyLen (points s) - 1]) s))
                  (pyLen (points s) - 1) eq_refl ltac:(lia) Ho) as [Ho' Hst].
      refine (conj Ho' (conj Hf _)). rewrite Hst. simpl.
      change (pyLen (@nil Point)) with 0. lia.
  - refine (conj Ho (conj Hf _)). exact Hlen.
Qed.

Lemma point_decompose_subpathState name t :
  respects keepsSubpathState (TTGlyphPointPen._decompose name t).
Proof.
  apply point_decompose_respects;
    [apply keepsSubpathState_refl | apply keepsSubpathState_trans
    | apply point_call_subpathState].
Qed.

Lemma new_subpathState gs handle : subpathState (TTGlyphBasePen.new gs handle).
Proof.
  refine (conj (conj _ _) (conj _ _)); try reflexivity; constructor.
Qed.

Lemma keepsSubpathTracked_refl s : keepsSubpathTracked s s.
Proof. intros ?. assumption. Qed.

Lemma keepsSubpathTracked_trans s1 s2 s3 :
  keepsSubpathTracked s1 s2 -> keepsSubpathTracked s2 s3 ->
  keepsSubpathTracked s1 s3.
Proof. unfold keepsSubpathTracked. auto. Qed.

Lemma point_call_subpathTracked c :
  respects keepsSubpathTracked (TTGlyphPointPen.call c).
Proof.
  intros s [Hs Hd]. split; [apply point_call_subpathState, Hs|].
  pose proof Hs as (Ho & Hf & Hlen). pose proof (startPt_nonneg s Ho) as H0.
  destruct c as [|pt segmentType| |name t]; simpl.
  - rewrite beginPath_eq.
    destruct (currentPath s) eqn:Hpath; simpl; [rewrite Hpath; exact Hd|].
    exact Hd.
  - rewrite addPoint_eq.
    destruct (currentPath s) as [path|] eqn:Hpath; simpl;
      [|rewrite Hpath; exact Hd].
    destruct (flagOf segmentType) as [flag|]; simpl;
      [|rewrite Hpath; exact Hd].
    change (startPt _) with (startPt s). simpl in Hd, Hlen.
    pose proof (pyLen_nonneg path) as Hn.
    rewrite drop_app_le by (unfold pyLen in *; lia).
    rewrite Hd. reflexivity.
  - rewrite endPath_eq.
    destruct (currentPath s) as [path|] eqn:Hpath; simpl;
      [|rewrite Hpath; exact Hd].
    destruct path as [|p path]; cbn [truthy].
    + exact Hd.
    + unfold startPt. simpl endPts. rewrite last_snoc. simpl points.
      apply drop_ge. unfold pyLen. lia.
  - exact Hd.
Qed.

Lemma point_decompose_subpathTracked name t :
  respects keepsSubpathTracked (TTGlyphPointPen._decompose name t).
Proof.
  apply point_decompose_respects;
    [apply keepsSubpathTracked_refl | apply keepsSubpathTracked_trans
    | apply point_call_subpathTracked].
Qed.

Lemma new_subpathTracked gs handle : subpathTracked (TTGlyphBasePen.new gs handle).
Proof. split; [apply new_subpathState | reflexivity]. Qed.

(** X10: the point pen keeps its outline lists consistent under every
    call, in any order, returning or raising: end indices strictly
    increasing, one flag per point, and the points after the last recorded
    contour are exactly those of the current sub-path, one by one (none
    when no sub-path is open).  A new pen is in this state, and
    finalization keeps it. *)
Theorem point_pen_keeps_outline_consistent :
  (forall gs handle, subpathTracked (TTGlyphBasePen.new gs handle))
  /\ forall s,
       subpathTracked s ->
       (forall c, subpathTracked (penAfter (TTGlyphPointPen.call c s)))
       /\ (forall fuel flags,
             subpathTracked (penAfter (TTGlyphPointPen.glyph fuel flags s))).
Proof.
  split; [apply new_subpathTracked|]. intros s Hs. split.
  - intros c. apply point_call_subpathTracked, Hs.
  - intros fuel flags. rewrite point_glyph_eq.
    destruct (currentPath s); [exact Hs|].
    apply (_glyph_respects TTGlyphPointPen._decompose keepsSubpathTracked
             keepsSubpathTracked_refl keepsSubpathTracked_trans
             point_decompose_subpathTracked); [|exact Hs].
    intros s1 _. apply new_subpathTracked.
Qed.

(** X11: the outline arrays of every glyph the point pen returns fit
    together: end indices strictly increasing and inside the coordinate
    array, one flag per coordinate.  No assumption on the glyph set is
    needed. *)
Theorem point_glyph_outline_is_well_formed fuel flags s g s' :
  subpathState s ->
  TTGlyphPointPen.glyph fuel flags s = Returns g s' ->
  outlineWellFormed g.
Proof.
  intros Hs. rewrite point_glyph_eq.
  destruct (currentPath s); [discriminate|].
  intros Hrun. apply _glyph_returns in Hrun.
  destruct Hrun as (comps & s1 & Hbuild & _ & ->).
  pose proof (_buildComponents_respects TTGlyphPointPen._decompose
                keepsSubpathState keepsSubpathState_refl keepsSubpathState_trans
                point_decompose_subpathState fuel flags s) as Hk.
  rewrite Hbuild in Hk. destruct (Hk Hs) as (Ho & Hf & Hlen).
  apply contours_wellFormed; [exact Ho | exact Hf|].
  pose proof (pyLen_nonneg (default [] (currentPath s1))). simpl in *. lia.
Qed.

Lemma outlineGrows_refl s : outlineGrows s s.
Proof. repeat split; reflexivity. Qed.

Lemma outlineGrows_trans s1 s2 s3 :
  outlineGrows s1 s2 -> outlineGrows s2 s3 -> outlineGrows s1 s3.
Proof.
  intros (Hp1 & Ht1 & He1) (Hp2 & Ht2 & He2).
  repeat split; etrans; eassumption.
Qed.

Lemma point_call_outlineGrows c : respects outlineGrows (TTGlyphPointPen.call c).
Proof.
  intros s. destruct c as [|pt segmentType| |name t]; simpl;
    rewrite ?beginPath_eq, ?endPath_eq, ?addPoint_eq;
    split_match; try apply outlineGrows_refl;
    repeat split; simpl; try reflexivity; apply prefix_app_r; reflexivity.
Qed.

(** X13: the point pen never removes or rewrites what it has accumulated:
    every call only extends the point, flag and end-index lists, and so
    does decomposition.  The outline of a glyph it returns therefore begins
    with the outline the pen held when [glyph] was called, decomposed
    components coming after it. *)
Theorem point_pen_only_appends s :
  (forall c, outlineGrows s (penAfter (TTGlyphPointPen.call c s)))
  /\ forall fuel flags g s',
       TTGlyphPointPen.glyph fuel flags s = Returns g s' ->
       map (fun p => (toInt (fst p), toInt (snd p))) (points s)
         `prefix_of` Glyph.coordinates g
       /\ types s `prefix_of` Glyph.flags g
       /\ endPts s `prefix_of` Glyph.endPtsOfContours g.
Proof.
  split; [intros c; apply point_call_outlineGrows|].
  intros fuel flags g s'. rewrite point_glyph_eq.
  destruct (currentPath s); [discriminate|].
  intros Hrun. apply _glyph_returns in Hrun.
  destruct Hrun as (comps & s1 & Hbuild & _ & ->).
  assert (Hdec : forall name t,
             respects outlineGrows (TTGlyphPointPen._decompose name t)).
  { intros name t. apply point_decompose_respects;
      [apply outlineGrows_refl | apply outlineGrows_trans
      | apply point_call_outlineGrows]. }
  pose proof (_buildComponents_respects TTGlyphPointPen._decompose outlineGrows
                outlineGrows_refl outlineGrows_trans Hdec fuel flags s) as Hg.
  rewrite Hbuild in Hg. destruct Hg as ([l Hp] & Ht & He).
  cbn [Glyph.coordinates Glyph.flags Glyph.endPtsOfContours].
  refine (conj _ (conj Ht He)).
  simpl in Hp. rewrite Hp, map_app. apply prefix_app_r. reflexivity.
Qed.

(** Accepted points added inside a sub-path. *)
Lemma drawPointsOn_addPoints pts rest :
  forall s path,
    currentPath s = Some path ->
    Forall (fun p => flagOf (snd p) <> None) pts ->
    TTGlyphPointPen.drawPointsOn TTGlyphPointPen.call
      (map (fun p => AddPoint (fst p) (snd p)) pts ++ rest) s
    = TTGlyphPointPen.drawPointsOn TTGlyphPointPen.call rest
        (mkPen (glyphSet s) (handleOverflowingTransforms s)
               (points s ++ map fst pts) (endPts s)
               (types s ++ map (fun p => default 0 (flagOf (snd p))) pts)
               (components s) (Some (path ++ map fst pts))).
Proof.
  induction pts as [|[pt seg] pts IH]; intros s path Hpath Hacc; simpl.
  - rewrite !app_nil_r, <- Hpath. destruct s; reflexivity.
  - apply Forall_cons in Hacc. destruct Hacc as [Hseg Hacc]. simpl in Hseg.
    unfold bind at 1. rewrite addPoint_eq, Hpath.
    destruct (flagOf seg) as [flag|] eqn:Hflag; [|congruence].
    rewrite (IH _ (path ++ [pt])); [|reflexivity|exact Hacc].
    simpl. rewrite <- !app_assoc. reflexivity.
Qed.

(** X9: a sub-path drawn on an idle point pen ([beginPath], points with
    accepted segment types, [endPath]) returns, appends exactly its points
    and their flags in order, and records one end index, that of its last
    point; a sub-path without points records nothing and leaves the pen as
    it was. *)
Theorem subpath_records_one_contour pts s :
  currentPath s = None ->
  Forall (fun p => flagOf (snd p) <> None) pts ->
  TTGlyphPointPen.drawPointsOn TTGlyphPointPen.call (subpathCalls pts) s
  = Returns tt
      (if truthy pts
       then mkPen (glyphSet s) (handleOverflowingTransforms s)
                  (points s ++ map fst pts)
                  (endPts s ++ [pyLen (points s) + pyLen pts - 1])
                  (types s ++ map (fun p => default 0 (flagOf (snd p))) pts)
                  (components s) None
       else s).
Proof.
  intros Hidle Hacc. unfold subpathCalls.
  cbn [TTGlyphPointPen.drawPointsOn TTGlyphPointPen.call]. unfold bind at 1.
  rewrite beginPath_eq, Hidle.
  rewrite (drawPointsOn_addPoints pts [EndPointPath] _ []); [|reflexivity|exact Hacc].
  cbn [TTGlyphPointPen.drawPointsOn TTGlyphPointPen.call]. unfold bind, ret.
  rewrite endPath_eq. simpl.
  destruct pts as [|p pts]; simpl.
  - rewrite !app_nil_r. f_equal. destruct s; simpl in *; subst; reflexivity.
  - f_equal. unfold set_currentPath, set_endPts. simpl. f_equal. f_equal. f_equal.
    rewrite pyLen_app. unfold pyLen. simpl length. rewrite length_map. lia.
Qed.

(** X16: the sub-path bracketing of the point pen is enforced.  On an idle
    pen [addPoint] and [endPath] fail their assertion; after [beginPath]
    and any accepted points, [beginPath] and [glyph] fail theirs; the pen
    is unchanged each time. *)
Theorem subpath_bracketing_is_enforced pts s :
  currentPath s = None ->
  Forall (fun p => flagOf (snd p) <> None) pts ->
  (forall pt segmentType,
     TTGlyphPointPen.addPoint pt segmentType s = Raises AssertionError s)
  /\ TTGlyphPointPen.endPath s = Raises AssertionError s
  /\ exists s',
       TTGlyphPointPen.drawPointsOn TTGlyphPointPen.call
         (BeginPath :: map (fun p => AddPoint (fst p) (snd p)) pts) s
       = Returns tt s'
       /\ TTGlyphPointPen.beginPath s' = Raises AssertionError s'
       /\ forall fuel flags,
            TTGlyphPointPen.glyph fuel flags s' = Raises AssertionError s'.
Proof.
  intros Hidle Hacc. refine (conj _ (conj _ _)).
  - intros pt segmentType. rewrite addPoint_eq, Hidle. reflexivity.
  - rewrite endPath_eq, Hidle. reflexivity.
  - cbn [TTGlyphPointPen.drawPointsOn TTGlyphPointPen.call]. unfold bind at 1.
    rewrite beginPath_eq, Hidle.
    rewrite <- (app_nil_r (map _ pts)).
    rewrite (drawPointsOn_addPoints pts [] _ []); [|reflexivity|exact Hacc].
    eexists. split; [reflexivity|]. split.
    + rewrite beginPath_eq. reflexivity.
    + intros fuel flags. rewrite point_glyph_eq. reflexivity.
Qed.
End PointOutline.

(** ** Concrete runs of the further properties *)

Lemma penWithContour_outlineState : outlineState false penWithContour.
Proof.
  unfold outlineState, contoursOrdered, flagged, startPt, pyLen. simpl.
  repeat split; repeat constructor; lia.
Defined.

(** X1 at a new pen with three pending components, the second unknown. *)
Lemma known_components_are_kept_in_order_witness :
  let s := set_components [("A"%string, Affine 1 0 0 1 10 20);
                           ("Z"%string, Affine 1 0 0 1 0 0);
                           ("A"%string, Affine (1 # 2) 0 0 (1 # 2) 0 0)]
                          freshPen in
  points s = []
  /\ @TTGlyphBasePen._buildComponents exactFontTools
       (@TTGlyphPen._decompose exactFontTools) 3 4 s
     = Returns [GlyphComponent.mk "A" 10 20 None 4;
                GlyphComponent.mk "A" 0 0 (Some ((1 # 2, 0%Q), (0%Q, 1 # 2))) 4] s.
Proof.
  intros s. split; [reflexivity|].
  exact (@known_components_are_kept_in_order exactFontTools
           (@TTGlyphPen._decompose exactFontTools) 4 s eq_refl (fun _ => eq_refl)).
Defined.

(** X2 at a pen that holds a contour, with two pending components unknown
    to the glyph set, one of them out of range. *)
Lemma unknown_components_are_skipped_witness :
  let s := set_components [("Z"%string, Affine 1 0 0 1 0 0);
                           ("Y"%string, Affine 3 0 0 1 0 0)] penWithContour in
  Forall (fun c => glyphSet s !! fst c = None) (components s)
  /\ @TTGlyphBasePen._buildComponents exactFontTools
       (@TTGlyphPen._decompose exactFontTools) 2 4 s = Returns [] s.
Proof.
  intros s.
  assert (Hunknown : Forall (fun c => glyphSet s !! fst c = None) (components s))
    by (repeat constructor).
  split; [exact Hunknown|].
  exact (@unknown_components_are_skipped exactFontTools
           (@TTGlyphPen._decompose exactFontTools) 4 s Hunknown).
Defined.

(** X14 at a pen with overflow handling off and one pending component
    scaled by 3. *)
Lemma overflow_handling_off_keeps_and_never_clamps_witness :
  let s := mkPen exampleGlyphSet false [] [] []
                 [("A"%string, Affine 3 0 0 1 0 0)] None in
  handleOverflowingTransforms s = false /\ points s = []
  /\ @TTGlyphBasePen._buildComponents exactFontTools
       (@TTGlyphPen._decompose exactFontTools) 1 4 s
     = Returns [GlyphComponent.mk "A" 0 0 (Some ((3%Q, 0%Q), (0%Q, 1%Q))) 4] s.
Proof.
  intros s. split; [reflexivity|]. split; [reflexivity|].
  exact (@overflow_handling_off_keeps_and_never_clamps exactFontTools
           (@TTGlyphPen._decompose exactFontTools) 4 s eq_refl eq_refl).
Defined.

(** X12 at a pen that holds a contour. *)
Lemma returned_glyph_shape_witness :
  let g := Glyph.mk [(0, 0); (10, 0); (0, 10)] [2] [1; 1; 1] 1 None (Some []) in
  flagged penWithContour
  /\ @TTGlyphPen.glyph exactFontTools 0 4 penWithContour = Returns g freshPen
  /\ length (Glyph.flags g) = length (Glyph.coordinates g).
Proof.
  intros g.
  assert (Hrun : @TTGlyphPen.glyph exactFontTools 0 4 penWithContour
                 = Returns g freshPen) by (vm_compute; reflexivity).
  split; [reflexivity|]. split; [exact Hrun|].
  exact (proj1 (@returned_glyph_shape exactFontTools 0 4 penWithContour g freshPen
                  eq_refl (or_introl Hrun))).
Defined.

(** X4 at a pen that holds a contour. *)
Lemma flags_are_bits_witness :
  bits penWithContour
  /\ bits (penAfter (TTGlyphPen.call (QCurveTo (QArgs [(1, 1)%Q] None))
                       penWithContour)).
Proof.
  assert (Hb : bits penWithContour) by (repeat constructor; auto).
  split; [exact Hb|].
  exact (proj1 (proj2 (@flags_are_bits exactFontTools) penWithContour Hb) _).
Defined.

(** X5 after a [moveTo] on a new pen. *)
Lemma open_contour_blocks_moveTo_and_glyph_witness :
  let s := penAfter (TTGlyphPen.moveTo (0, 0)%Q freshPen) in
  outlineState true s
  /\ TTGlyphPen.moveTo (1, 1)%Q s = Raises AssertionError s.
Proof.
  intros s.
  assert (Hs : outlineState true s).
  { unfold outlineState, contoursOrdered, flagged, startPt, pyLen. simpl.
    repeat split; repeat constructor; lia. }
  split; [exact Hs|].
  exact (proj1 (@open_contour_blocks_moveTo_and_glyph exactFontTools s Hs) _).
Defined.

(** X6 at a pen that holds one one-point contour, and at one that holds a
    contour of three points. *)
Lemma closePath_without_open_contour_witness :
  outlineState false penWithDot
  /\ TTGlyphPen.closePath penWithDot
     = Returns tt (mkPen exampleGlyphSet true [] [0] [] [] None)
  /\ TTGlyphPen.closePath penWithContour = Raises IndexError penWithContour.
Proof.
  assert (Hs : outlineState false penWithDot).
  { unfold outlineState, contoursOrdered, flagged, startPt, pyLen. simpl.
    repeat split; repeat constructor; lia. }
  split; [exact Hs|]. split.
  - exact (closePath_without_open_contour penWithDot Hs).
  - exact (closePath_without_open_contour penWithContour
             penWithContour_outlineState).
Defined.

(** X7 at a contour whose last point repeats the first. *)
Lemma closePath_on_open_contour_witness :
  let s := mkPen exampleGlyphSet true [(0, 0); (5, 5); (0, 0)]%Q [] [1; 1; 1]
                 [] None in
  outlineState true s
  /\ exists s',
       TTGlyphPen.closePath s = Returns tt s' /\ outlineState false s'.
Proof.
  intros s.
  assert (Hs : outlineState true s).
  { unfold outlineState, contoursOrdered, flagged, startPt, pyLen. simpl.
    repeat split; repeat constructor; lia. }
  split; [exact Hs|].
  destruct (closePath_on_open_contour s Hs) as (s' & Hrun & Hs' & _).
  exists s'. auto.
Defined.

(** X8 for a triangle drawn after the contour a pen holds. *)
Lemma well_bracketed_drawing_keeps_contours_witness :
  let calls := [MoveTo (0, 0)%Q; LineTo (0, 100)%Q; LineTo (100, 0)%Q; ClosePath] in
  let s' := mkPen exampleGlyphSet true
                  [(0, 0); (10, 0); (0, 10); (0, 0); (0, 100); (100, 0)]%Q
                  [2; 5] [1; 1; 1; 1; 1; 1] [] None in
  wellBracketed false calls = true
  /\ TTGlyphPen.drawOn TTGlyphPen.call calls penWithContour = Returns tt s'
  /\ TTGlyphPen._isClosed s' = true.
Proof.
  intros calls s'.
  assert (Hrun : TTGlyphPen.drawOn TTGlyphPen.call calls penWithContour
                 = Returns tt s') by (vm_compute; reflexivity).
  split; [reflexivity|]. split; [exact Hrun|].
  exact (proj2 (well_bracketed_drawing_keeps_contours calls
                  penWithContour s' eq_refl penWithContour_outlineState Hrun)).
Defined.

(** X15 at a pen that holds a contour and one pending component "A". *)
Lemma segment_glyph_outline_is_well_formed_witness :
  let s := set_components [("A"%string, Affine 1 0 0 1 10 20)] penWithContour in
  let g := Glyph.mk [(0, 0); (10, 0); (0, 10); (10, 20); (10, 120); (110, 20)]
                    [2; 5] [1; 1; 1; 1; 1; 1] 2 None (Some []) in
  outlineState false s
  /\ @TTGlyphPen.glyph exactFontTools 1 4 s = Returns g freshPen
  /\ outlineWellFormed g.
Proof.
  intros s g.
  assert (Hrun : @TTGlyphPen.glyph exactFontTools 1 4 s = Returns g freshPen)
    by (vm_compute; reflexivity).
  split; [exact penWithContour_outlineState|]. split; [exact Hrun|].
  exact (@segment_glyph_outline_is_well_formed exactFontTools 1 4 s g freshPen
           exampleGlyphSet_wellBracketed penWithContour_outlineState Hrun).
Defined.

(** X9 for a sub-path of an on-curve and an off-curve point. *)
Lemma subpath_records_one_contour_witness :
  let pts := [((0, 0)%Q, Some "line"%string); ((5, 5)%Q, None)] in
  Forall (fun p => flagOf (snd p) <> None) pts
  /\ TTGlyphPointPen.drawPointsOn TTGlyphPointPen.call (subpathCalls pts)
       penWithContour
     = Returns tt
         (mkPen exampleGlyphSet true [(0, 0); (10, 0); (0, 10); (0, 0); (5, 5)]%Q
                [2; 4] [1; 1; 1; 1; 0] [] None).
Proof.
  intros pts.
  assert (Hacc : Forall (fun p => flagOf (snd p) <> None) pts)
    by (repeat constructor; discriminate).
  split; [exact Hacc|].
  exact (subpath_records_one_contour pts penWithContour eq_refl Hacc).
Defined.

(** X10 at a pen inside a sub-path, with a recorded contour before it: the
    point added is the second of the sub-path, after the last contour. *)
Lemma point_pen_keeps_outline_consistent_witness :
  let s := mkPen exampleGlyphSet true [(1, 1); (2, 2); (5, 6)]%Q [1] [1; 0; 1]
                 [] (Some [(5, 6)%Q]) in
  let s' := penAfter (TTGlyphPointPen.call
                        (AddPoint (3, 4)%Q (Some "qcurve"%string)) s) in
  subpathTracked s
  /\ subpathTracked s'
  /\ currentPath s' = Some [(5, 6); (3, 4)]%Q
  /\ drop 2 (points s') = [(5, 6); (3, 4)]%Q.
Proof.
  intros s s'.
  assert (Hs : subpathTracked s).
  { unfold subpathTracked, subpathState, contoursOrdered, flagged, startPt, pyLen.
    simpl. repeat split; repeat constructor; lia. }
  split; [exact Hs|].
  split; [|split; reflexivity].
  exact (proj1 (proj2 (@point_pen_keeps_outline_consistent exactFontTools) s Hs) _).
Defined.

(** X11 and X13 at a point pen that holds a sub-path and must decompose a
    component scaled by 3. *)
Lemma point_glyph_outline_is_well_formed_witness :
  let s := mkPen exampleGlyphSet true [(1, 1); (2, 2)]%Q [1] [1; 0]
                 [("A"%string, Affine 3 0 0 1 0 0)] None in
  let g := Glyph.mk [(1, 1); (2, 2); (0, 0); (0, 100); (300, 0)] [1; 4]
                    [1; 0; 1; 1; 1] 2 None (Some []) in
  subpathState s
  /\ @TTGlyphPointPen.glyph exactFontTools 1 4 s = Returns g freshPen
  /\ outlineWellFormed g.
Proof.
  intros s g.
  assert (Hs : subpathState s).
  { unfold subpathState, contoursOrdered, flagged, startPt, pyLen. simpl.
    repeat split; repeat constructor; lia. }
  assert (Hrun : @TTGlyphPointPen.glyph exactFontTools 1 4 s = Returns g freshPen)
    by (vm_compute; reflexivity).
  split; [exact Hs|]. split; [exact Hrun|].
  exact (@point_glyph_outline_is_well_formed exactFontTools 1 4 s g freshPen Hs Hrun).
Defined.

Lemma point_pen_only_appends_witness :
  let s := mkPen exampleGlyphSet true [(1, 1); (2, 2)]%Q [1] [1; 0]
                 [("A"%string, Affine 3 0 0 1 0 0)] None in
  let g := Glyph.mk [(1, 1); (2, 2); (0, 0); (0, 100); (300, 0)] [1; 4]
                    [1; 0; 1; 1; 1] 2 None (Some []) in
  @TTGlyphPointPen.glyph exactFontTools 1 4 s = Returns g freshPen
  /\ endPts s `prefix_of` Glyph.endPtsOfContours g.
Proof.
  intros s g.
  assert (Hrun : @TTGlyphPointPen.glyph exactFontTools 1 4 s = Returns g freshPen)
    by (vm_compute; reflexivity).
  split; [exact Hrun|].
  exact (proj2 (proj2 (proj2 (@point_pen_only_appends exactFontTools s)
                         1%nat 4 g freshPen Hrun))).
Defined.

(** X16 at a new pen, with one point in the sub-path. *)
Lemma subpath_bracketing_is_enforced_witness :
  let pts := [((0, 0)%Q, Some "line"%string)] in
  Forall (fun p => flagOf (snd p) <> None) pts
  /\ TTGlyphPointPen.endPath freshPen = Raises AssertionError freshPen.
Proof.
  intros pts.
  assert (Hacc : Forall (fun p => flagOf (snd p) <> None) pts)
    by (repeat constructor; discriminate).
  split; [exact Hacc|].
  exact (proj1 (proj2 (@subpath_bracketing_is_enforced exactFontTools pts freshPen
                         eq_refl Hacc))).
Defined.

(** ** Reuse and self-reference *)

Section Reuse.
Context `{FontTools}.

Lemma glyph_of_new_pen gs handle :
  (forall fuel flags,
     TTGlyphPen.glyph fuel flags (TTGlyphBasePen.new gs handle)
     = Returns (Glyph.mk [] [] [] 0 None (Some [])) (TTGlyphBasePen.new gs handle))
  /\ (forall fuel flags,
        TTGlyphPointPen.glyph fuel flags (TTGlyphBasePen.new gs handle)
        = Returns (Glyph.mk [] [] [] 0 None (Some [])) (TTGlyphBasePen.new gs handle)).
Proof.
  split; intros fuel flags;
    [rewrite segment_glyph_eq | rewrite point_glyph_eq]; simpl;
    unfold TTGlyphBasePen._glyph, bind at 1;
    rewrite _buildComponents_eq; destruct fuel; destruct handle; reflexivity.
Qed.

(** X18: a pen can be reused at once.  After a finalization that returns, a
    second [glyph] on the same pen, on either pen and for any bound and
    flag value, returns the empty simple glyph: no points, no contours, no
    components. *)
Theorem second_glyph_is_empty fuel flags s g s' :
  TTGlyphPen.glyph fuel flags s = Returns g s'
  \/ TTGlyphPointPen.glyph fuel flags s = Returns g s' ->
  forall fuel' flags',
    TTGlyphPen.glyph fuel' flags' s'
    = Returns (Glyph.mk [] [] [] 0 None (Some [])) s'
    /\ TTGlyphPointPen.glyph fuel' flags' s'
       = Returns (Glyph.mk [] [] [] 0 None (Some [])) s'.
Proof.
  intros Hrun fuel' flags'.
  assert (Hnew : s' = TTGlyphBasePen.new (glyphSet s) (handleOverflowingTransforms s)).
  { destruct Hrun as [Hrun|Hrun].
    - rewrite segment_glyph_eq in Hrun.
      destruct (TTGlyphPen._isClosed s); [|discriminate].
      eapply _glyph_resets; [apply segment_decompose_frame | exact Hrun].
    - rewrite point_glyph_eq in Hrun.
      destruct (currentPath s); [discriminate|].
      eapply _glyph_resets; [apply point_decompose_frame | exact Hrun]. }
  rewrite Hnew. split; apply glyph_of_new_pen.
Qed.

(** The loop over a glyph that adds itself: from position [i] on, every
    pending component names that glyph, and each decomposition appends one
    more. *)
Lemma resolveFrom_self_reference name u g overflowing flags fuel :
  draw g = [AddComponent name u] ->
  forall i built s,
    glyphSet s !! name = Some g ->
    truthy (points s) || (handleOverflowingTransforms s && overflowing) = true ->
    (i < length (components s))%nat ->
    Forall (fun c => fst c = name) (drop i (components s)) ->
    exists s',
      TTGlyphBasePen.resolveFrom TTGlyphPen._decompose fuel overflowing flags
        i built s
      = OutOfFuel s'.
Proof.
  intros Hdraw. induction fuel as [|fuel IH]; intros i built s Hg Hcond Hi Hall.
  - simpl. destruct (lookup_lt_is_Some_2 (components s) i Hi) as [[n t] Hc].
    rewrite Hc. eauto.
  - simpl. destruct (lookup_lt_is_Some_2 (components s) i Hi) as [[n t] Hc].
    rewrite Hc. rewrite (drop_S _ _ _ Hc) in Hall.
    apply Forall_cons in Hall. destruct Hall as [Hn Hall]. simpl in Hn. subst n.
    rewrite Hg, Hcond.
    unfold bind at 1, TTGlyphPen._decompose at 1. unfold bind at 1, get.
    rewrite Hg, Hdraw. cbn [TTGlyphPen.drawOn TTGlyphPen.TransformPen].
    unfold bind, TTGlyphBasePen.addComponent, modify, ret.
    apply IH; simpl.
    + exact Hg.
    + exact Hcond.
    + rewrite length_app. simpl. lia.
    + rewrite drop_app_le by lia. apply Forall_app. split; [exact Hall|].
      repeat constructor.
Qed.

(** X17: a component that refers to itself is never finished.  If the
    outline of glyph [name] is a single component reference to [name], and
    the pending component [name] must be decomposed (the pen holds points,
    or overflow handling is on and a pending value is out of range), then
    the loop of [_buildComponents] is still running after any number of
    iterations: the segment pen's [glyph] neither returns nor raises. *)
Theorem self_reference_never_ends name u g t flags s :
  glyphSet s !! name = Some g ->
  draw g = [AddComponent name u] ->
  components s = [(name, t)] ->
  TTGlyphPen._isClosed s = true ->
  points s <> []
  \/ (handleOverflowingTransforms s = true
      /\ TTGlyphBasePen.anyOverflow (components s) = true) ->
  forall fuel, exists s', TTGlyphPen.glyph fuel flags s = OutOfFuel s'.
Proof.
  intros Hg Hdraw Hcomps Hclosed Hcond fuel.
  rewrite segment_glyph_eq, Hclosed.
  unfold TTGlyphBasePen._glyph, bind at 1. rewrite _buildComponents_eq.
  destruct (resolveFrom_self_reference name u g
              (if handleOverflowingTransforms s
               then TTGlyphBasePen.anyOverflow (components s) else false)
              flags fuel Hdraw 0 [] s Hg) as [s' Hrun].
  - destruct Hcond as [Hp|[Hh Ho]].
    + apply truthy_true in Hp. rewrite Hp. reflexivity.
    + rewrite Hh, Ho. apply orb_true_r.
  - rewrite Hcomps. simpl. lia.
  - rewrite Hcomps. repeat constructor.
  - rewrite Hrun. eauto.
Qed.
End Reuse.

(** X18 after the finalization of a pen that holds a contour. *)
Lemma second_glyph_is_empty_witness :
  let g := Glyph.mk [(0, 0); (10, 0); (0, 10)] [2] [1; 1; 1] 1 None (Some []) in
  @TTGlyphPen.glyph exactFontTools 0 4 penWithContour = Returns g freshPen
  /\ @TTGlyphPen.glyph exactFontTools 7 4 freshPen
     = Returns (Glyph.mk [] [] [] 0 None (Some [])) freshPen.
Proof.
  intros g.
  assert (Hrun : @TTGlyphPen.glyph exactFontTools 0 4 penWithContour
                 = Returns g freshPen) by (vm_compute; reflexivity).
  split; [exact Hrun|].
  exact (proj1 (@second_glyph_is_empty exactFontTools 0 4 penWithContour g freshPen
                  (or_introl Hrun) 7%nat 4)).
Defined.

(** X17 at a glyph set whose glyph "L" is a reference to itself. *)
Lemma self_reference_never_ends_witness :
  let loop := mkGlyphObject [AddComponent "L" (Affine 1 0 0 1 0 0)] [] in
  let s := mkPen (<["L"%string := loop]> ∅) true [] [] []
                 [("L"%string, Affine 3 0 0 1 0 0)] None in
  glyphSet s !! "L"%string = Some loop
  /\ exists s', @TTGlyphPen.glyph exactFontTools 1000 4 s = OutOfFuel s'.
Proof.
  intros loop s.
  assert (Hg : glyphSet s !! "L"%string = Some loop) by reflexivity.
  split; [exact Hg|].
  exact (@self_reference_never_ends exactFontTools "L"%string
           (Affine 1 0 0 1 0 0) loop (Affine 3 0 0 1 0 0) 4 s Hg eq_refl eq_refl
           eq_refl (or_intror (conj eq_refl eq_refl)) 1000%nat).
Defined.

(** * Decomposition against the words of the specification

    What the pens draw when they decompose a component is compared with
    the outline of the referenced glyph transformed and drawn by hand, and
    finalization is shown to return. *)

Section Decomposition.
Context `{FontTools}.

(** ** The transforming pens forward what a hand would draw *)

Lemma TransformPen_hand_drawn t c :
  c <> QCurveTo QNoArgs ->
  TTGlyphPen.TransformPen t c = TTGlyphPen.call (transformCall t c).
Proof.
  destruct c as [pt|pt|pts|[|offCurve onCurve]| | |name u]; intros Hc;
    try reflexivity.
  congruence.
Qed.

Lemma TransformPen_returns_hand_drawn t c s u s' :
  TTGlyphPen.TransformPen t c s = Returns u s' ->
  TTGlyphPen.call (transformCall t c) s = Returns u s'.
Proof.
  destruct c as [pt|pt|pts|[|offCurve onCurve]| | |name u'];
    try (intros Hrun; exact Hrun).
  discriminate.
Qed.

Lemma drawOn_hand_drawn t calls :
  forall s s',
    TTGlyphPen.drawOn (TTGlyphPen.TransformPen t) calls s = Returns tt s' ->
    TTGlyphPen.drawOn TTGlyphPen.call (map (transformCall t) calls) s
    = Returns tt s'.
Proof.
  induction calls as [|c calls IH]; intros s s'; simpl; [trivial|].
  unfold bind.
  destruct (TTGlyphPen.TransformPen t c s) as [[] s1|e s1|s1] eqn:Hcall;
    try discriminate.
  rewrite (TransformPen_returns_hand_drawn t c s tt s1 Hcall). apply IH.
Qed.

Lemma segment_decompose_hand_drawn name t s s' :
  TTGlyphPen._decompose name t s = Returns tt s' ->
  drawTransformed name t s = Returns tt s'.
Proof.
  unfold TTGlyphPen._decompose, drawTransformed, bind at 1, get.
  destruct (glyphSet s !! name) as [g|]; [apply drawOn_hand_drawn | discriminate].
Qed.

Lemma TransformPointPen_hand_drawn t c :
  TTGlyphPointPen.TransformPointPen t c
  = TTGlyphPointPen.call (transformPointCall t c).
Proof. destruct c; reflexivity. Qed.

Lemma drawPointsOn_hand_drawn t calls :
  forall s,
    TTGlyphPointPen.drawPointsOn (TTGlyphPointPen.TransformPointPen t) calls s
    = TTGlyphPointPen.drawPointsOn TTGlyphPointPen.call
        (map (transformPointCall t) calls) s.
Proof.
  induction calls as [|c calls IH]; intros s; simpl; [reflexivity|].
  rewrite TransformPointPen_hand_drawn. unfold bind.
  destruct (TTGlyphPointPen.call (transformPointCall t c) s) as [[] s1|e s1|s1];
    try reflexivity.
  apply IH.
Qed.

Lemma point_decompose_hand_drawn name t s :
  TTGlyphPointPen._decompose name t s = drawPointsTransformed name t s.
Proof.
  unfold TTGlyphPointPen._decompose, drawPointsTransformed, bind at 1, get.
  destruct (glyphSet s !! name) as [g|]; [apply drawPointsOn_hand_drawn | reflexivity].
Qed.

(** A loop of decompositions that returns, returns the same pen when each
    step is replaced by one that returns whatever the first returns. *)
Lemma decomposeKnownFrom_step
    (dec step : string -> Transformation -> Method unit) :
  (forall name t s s',
     dec name t s = Returns tt s' -> step name t s = Returns tt s') ->
  forall fuel i s s',
    decomposeKnownFrom dec fuel i s = Returns tt s' ->
    decomposeKnownFrom step fuel i s = Returns tt s'.
Proof.
  intros Hstep fuel.
  induction fuel as [|fuel IH]; intros i s s'; simpl.
  - trivial.
  - destruct (components s !! i) as [[name t]|]; [|trivial].
    destruct (glyphSet s !! name); [|apply IH].
    unfold bind.
    destruct (dec name t s) as [[] s1|e s1|s1] eqn:Hdec; try discriminate.
    rewrite (Hstep name t s s1 Hdec). apply IH.
Qed.

Lemma decomposedGlyph_step
    (dec step : string -> Transformation -> Method unit) fuel s g :
  (forall name t s s',
     dec name t s = Returns tt s' -> step name t s = Returns tt s') ->
  decomposedGlyph dec fuel s g -> decomposedGlyph step fuel s g.
Proof.
  intros Hstep (s1 & Hrun & Hg). exists s1. split; [|exact Hg].
  eapply decomposeKnownFrom_step; eassumption.
Qed.

Lemma segment_decomposedGlyph fuel s g :
  decomposedGlyph TTGlyphPen._decompose fuel s g ->
  decomposedGlyph drawTransformed fuel s g.
Proof. apply decomposedGlyph_step, segment_decompose_hand_drawn. Qed.

Lemma point_decomposedGlyph fuel s g :
  decomposedGlyph TTGlyphPointPen._decompose fuel s g ->
  decomposedGlyph drawPointsTransformed fuel s g.
Proof.
  apply decomposedGlyph_step. intros name t s1 s2.
  rewrite point_decompose_hand_drawn. trivial.
Qed.
(** ** Replaying an outline never fails *)

Lemma keepsComponents_refl s : keepsComponents s s.
Proof. reflexivity. Qed.

Lemma keepsComponents_trans s1 s2 s3 :
  keepsComponents s1 s2 -> keepsComponents s2 s3 -> keepsComponents s1 s3.
Proof. unfold keepsComponents. congruence. Qed.

Lemma _popPoint_keepsComponents : respects keepsComponents TTGlyphPen._popPoint.
Proof.
  intros s. unfold TTGlyphPen._popPoint. run_method. split_match; reflexivity.
Qed.

Lemma closePath_keepsComponents : respects keepsComponents TTGlyphPen.closePath.
Proof.
  intros s. unfold TTGlyphPen.closePath. unfold bind at 1, get. simpl.
  destruct (_ || _); [apply _popPoint_keepsComponents|].
  destruct (pyIndex _ _) as [p1|]; [|apply keepsComponents_refl].
  destruct (pyIndex _ _) as [p2|]; [|apply keepsComponents_refl].
  through_bind keepsComponents_trans.
  - destruct (pointEq p1 p2).
    + through_bind keepsComponents_trans; [apply _popPoint_keepsComponents|].
      apply respects_ret, keepsComponents_refl.
    + apply respects_ret, keepsComponents_refl.
  - apply respects_modify. intros s'. reflexivity.
Qed.

Lemma replayStep_bracketStep open c open' :
  replayStep open c = Some open' -> bracketStep open c = Some open'.
Proof.
  destruct c as [pt|pt|pts|[|offCurve onCurve]| | |name u], open; simpl;
    congruence.
Qed.

Lemma transformCall_replayStep t c open :
  replayStep open (transformCall t c) = replayStep open c.
Proof.
  destruct c as [pt|pt|pts|[|offCurve onCurve]| | |name u]; try reflexivity.
  simpl. destruct offCurve, onCurve; reflexivity.
Qed.

(** A replayable call on a pen in good state returns, and touches the
    outline only. *)
Lemma call_replays c open open' s :
  replayStep open c = Some open' ->
  outlineState open s ->
  exists s',
    TTGlyphPen.call c s = Returns tt s'
    /\ outlineState open' s'
    /\ components s' = components s.
Proof.
  intros Hstep Hs.
  assert (Hrun : exists s',
            TTGlyphPen.call c s = Returns tt s'
            /\ components s' = components s).
  { destruct c as [pt|pt|pts|[|offCurve onCurve]| | |name u];
      cbn [TTGlyphPen.call replayStep] in *; try discriminate.
    - destruct open; [discriminate|].
      rewrite moveTo_eq, (outlineState_isClosed false s Hs). cbn [negb].
      rewrite _addPoint_eq. eexists. split; reflexivity.
    - unfold TTGlyphPen.lineTo. rewrite _addPoint_eq.
      eexists. split; reflexivity.
    - rewrite qCurveTo_eq. destruct onCurve; eexists; split; reflexivity.
    - destruct open; [|discriminate].
      destruct (closePath_open s Hs) as (s' & Hrun & _).
      exists s'. split; [exact Hrun|].
      pose proof (closePath_keepsComponents s) as Hk.
      rewrite Hrun in Hk. exact Hk.
    - destruct open; [|discriminate]. unfold TTGlyphPen.endPath.
      destruct (closePath_open s Hs) as (s' & Hrun & _).
      exists s'. split; [exact Hrun|].
      pose proof (closePath_keepsComponents s) as Hk.
      rewrite Hrun in Hk. exact Hk. }
  destruct Hrun as (s' & Hrun & Hc). exists s'.
  refine (conj Hrun (conj _ Hc)).
  eapply call_outline; [apply replayStep_bracketStep| |]; eassumption.
Qed.

Lemma replayStep_TransformPen t c open open' :
  replayStep open c = Some open' ->
  TTGlyphPen.TransformPen t c = TTGlyphPen.call (transformCall t c).
Proof.
  intros Hstep. apply TransformPen_hand_drawn. intros ->.
  destruct open; discriminate.
Qed.

Lemma drawOn_replays t calls :
  forall open s,
    replayable open calls = true ->
    outlineState open s ->
    exists s',
      TTGlyphPen.drawOn (TTGlyphPen.TransformPen t) calls s = Returns tt s'
      /\ outlineState false s'
      /\ components s' = components s.
Proof.
  induction calls as [|c calls IH]; intros open s; simpl.
  - intros Hopen Hs. destruct open; [discriminate|].
    exists s. auto.
  - destruct (replayStep open c) as [open'|] eqn:Hstep; [|discriminate].
    intros Hrest Hs.
    rewrite (replayStep_TransformPen t c open open' Hstep).
    destruct (call_replays (transformCall t c) open open' s) as (s1 & Hrun & Hs1 & Hc1);
      [rewrite transformCall_replayStep; exact Hstep | exact Hs|].
    destruct (IH open' s1 Hrest Hs1) as (s' & Hrun' & Hs' & Hc').
    exists s'. unfold bind. rewrite Hrun.
    refine (conj Hrun' (conj Hs' _)). congruence.
Qed.

Lemma segment_decompose_replays name t g s :
  glyphSet s !! name = Some g ->
  replayable false (draw g) = true ->
  outlineState false s ->
  exists s',
    TTGlyphPen._decompose name t s = Returns tt s'
    /\ outlineState false s'
    /\ components s' = components s.
Proof.
  intros Hg Hreplay Hs. unfold TTGlyphPen._decompose, bind at 1, get.
  rewrite Hg. apply (drawOn_replays t (draw g) false s Hreplay Hs).
Qed.

Lemma transformPointCall_replayPointStep t c inPath :
  replayPointStep inPath (transformPointCall t c) = replayPointStep inPath c.
Proof. destruct c; reflexivity. Qed.

Lemma point_call_replays c inPath inPath' s :
  replayPointStep inPath c = Some inPath' ->
  isNone (currentPath s) = negb inPath ->
  exists s',
    TTGlyphPointPen.call c s = Returns tt s'
    /\ isNone (currentPath s') = negb inPath'
    /\ components s' = components s.
Proof.
  intros Hstep Hs.
  destruct c as [|pt segmentType| |name u];
    cbn [TTGlyphPointPen.call replayPointStep] in *.
  - destruct inPath; [discriminate|]. injection Hstep as <-.
    rewrite beginPath_eq. destruct (currentPath s); [discriminate|].
    eexists. repeat split.
  - destruct inPath; [|discriminate]. cbn [andb] in Hstep.
    rewrite addPoint_eq. destruct (currentPath s) as [path|]; [|discriminate].
    destruct (flagOf segmentType) as [flag|]; [|discriminate].
    injection Hstep as <-. eexists. repeat split.
  - destruct inPath; [|discriminate]. injection Hstep as <-.
    rewrite endPath_eq. destruct (currentPath s) as [path|]; [|discriminate].
    eexists. split; [reflexivity|]. destruct (truthy path); split; reflexivity.
  - discriminate.
Qed.

Lemma drawPointsOn_replays t calls :
  forall inPath s,
    replayablePoints inPath calls = true ->
    isNone (currentPath s) = negb inPath ->
    exists s',
      TTGlyphPointPen.drawPointsOn (TTGlyphPointPen.TransformPointPen t) calls s
      = Returns tt s'
      /\ currentPath s' = None
      /\ components s' = components s.
Proof.
  induction calls as [|c calls IH]; intros inPath s; simpl.
  - intros Hin Hs. destruct inPath; [discriminate|].
    exists s. destruct (currentPath s); [discriminate | auto].
  - destruct (replayPointStep inPath c) as [inPath'|] eqn:Hstep; [|discriminate].
    intros Hrest Hs. rewrite TransformPointPen_hand_drawn.
    destruct (point_call_replays (transformPointCall t c) inPath inPath' s)
      as (s1 & Hrun & Hs1 & Hc1);
      [rewrite transformPointCall_replayPointStep; exact Hstep | exact Hs|].
    destruct (IH inPath' s1 Hrest Hs1) as (s' & Hrun' & Hs' & Hc').
    exists s'. unfold bind. rewrite Hrun.
    refine (conj Hrun' (conj Hs' _)). congruence.
Qed.

Lemma point_decompose_replays name t g s :
  glyphSet s !! name = Some g ->
  replayablePoints false (drawPoints g) = true ->
  currentPath s = None ->
  exists s',
    TTGlyphPointPen._decompose name t s = Returns tt s'
    /\ currentPath s' = None
    /\ components s' = components s.
Proof.
  intros Hg Hreplay Hs. unfold TTGlyphPointPen._decompose, bind at 1, get.
  rewrite Hg. apply (drawPointsOn_replays t (drawPoints g) false s Hreplay).
  rewrite Hs. reflexivity.
Qed.

(** ** The loop of [_buildComponents] ends *)

(** When the decomposition of every known pending component returns and
    keeps the invariant [I], under which at most [n] components are
    pending, the loop ends within [n] iterations. *)
Lemma resolveFrom_returns
    (_decompose : string -> Transformation -> Method unit)
    (I : Pen -> Prop) (n : nat) overflowing flags :
  (forall s, I s -> (length (components s) <= n)%nat) ->
  (forall name t g s,
     I s -> (name, t) ∈ components s -> glyphSet s !! name = Some g ->
     exists s', _decompose name t s = Returns tt s' /\ I s') ->
  forall fuel i built s,
    I s -> (n <= fuel + i)%nat ->
    exists comps s',
      TTGlyphBasePen.resolveFrom _decompose fuel overflowing flags i built s
      = Returns comps s'
      /\ I s'.
Proof.
  intros Hn Hdec fuel.
  induction fuel as [|fuel IH]; intros i built s Hs Hlen; simpl.
  - rewrite (lookup_ge_None_2 (components s) i) by (specialize (Hn s Hs); lia).
    eauto.
  - destruct (components s !! i) as [[name t]|] eqn:Hi; [|eauto].
    destruct (glyphSet s !! name) as [g|] eqn:Hg.
    + destruct (_ || _).
      * destruct (Hdec name t g s Hs) as (s1 & Hrun & Hs1);
          [eapply list_elem_of_lookup_2, Hi | exact Hg|].
        unfold bind. rewrite Hrun. apply IH; [exact Hs1 | lia].
      * apply IH; [exact Hs | lia].
    + apply IH; [exact Hs | lia].
Qed.

(** The segment pen: from a pen in good state whose flags are bits, with
    replayable outlines and one unit of fuel per pending component,
    [glyph] returns. *)
Lemma segment_glyph_replays fuel flags s :
  outlineState false s ->
  bits s ->
  replayableOutlines s ->
  (length (components s) <= fuel)%nat ->
  exists g,
    TTGlyphPen.glyph fuel flags s
    = Returns g (TTGlyphBasePen.new (glyphSet s) (handleOverflowingTransforms s)).
Proof.
  intros Hs Hb Hreplay Hfuel.
  rewrite segment_glyph_eq, (outlineState_isClosed false s Hs). cbn [negb].
  set (I := fun s1 : Pen =>
              outlineState false s1 /\ bits s1
              /\ sameConfig s s1 /\ components s1 = components s).
  destruct (resolveFrom_returns TTGlyphPen._decompose I (length (components s))
              (if handleOverflowingTransforms s
               then TTGlyphBasePen.anyOverflow (components s) else false)
              flags) with (fuel := fuel) (i := 0%nat) (built := @nil GlyphComponent.t)
              (s := s) as (comps & s1 & Hrun & Hs1).
  - intros s1 (_ & _ & _ & ->). lia.
  - intros name t g s1 (Ho & Hb1 & [Hgs Hh] & Hc) Hin Hg.
    destruct (segment_decompose_replays name t g s1 Hg) as (s2 & Hrun & Ho2 & Hc2);
      [|exact Ho|].
    { apply (Hreplay name t g); [rewrite <- Hc; exact Hin | rewrite <- Hgs; exact Hg]. }
    exists s2. split; [exact Hrun|].
    pose proof (segment_decompose_bits name t s1 Hb1) as Hb2.
    pose proof (segment_decompose_frame name t s1) as [[Hgs2 Hh2] _].
    rewrite Hrun in Hb2, Hgs2, Hh2. simpl in Hb2, Hgs2, Hh2.
    refine (conj Ho2 (conj Hb2 (conj _ _))); [split|]; congruence.
  - refine (conj Hs (conj Hb (conj _ _))); [apply sameConfig_refl | reflexivity].
  - lia.
  - destruct Hs1 as (_ & Hb1 & [Hgs Hh] & _).
    rewrite <- _buildComponents_eq in Hrun.
    destruct (_glyph_after_build _ fuel flags s comps s1 Hrun Hb1) as [g Hg].
    exists g. rewrite Hg, Hgs, Hh. reflexivity.
Qed.

(** The point pen: the same, from a pen with no sub-path open. *)
Lemma point_glyph_replays fuel flags s :
  currentPath s = None ->
  bits s ->
  replayablePointOutlines s ->
  (length (components s) <= fuel)%nat ->
  exists g,
    TTGlyphPointPen.glyph fuel flags s
    = Returns g (TTGlyphBasePen.new (glyphSet s) (handleOverflowingTransforms s)).
Proof.
  intros Hs Hb Hreplay Hfuel.
  rewrite point_glyph_eq, Hs.
  set (I := fun s1 : Pen =>
              currentPath s1 = None /\ bits s1
              /\ sameConfig s s1 /\ components s1 = components s).
  destruct (resolveFrom_returns TTGlyphPointPen._decompose I (length (components s))
              (if handleOverflowingTransforms s
               then TTGlyphBasePen.anyOverflow (components s) else false)
              flags) with (fuel := fuel) (i := 0%nat) (built := @nil GlyphComponent.t)
              (s := s) as (comps & s1 & Hrun & Hs1).
  - intros s1 (_ & _ & _ & ->). lia.
  - intros name t g s1 (Ho & Hb1 & [Hgs Hh] & Hc) Hin Hg.
    destruct (point_decompose_replays name t g s1 Hg) as (s2 & Hrun & Ho2 & Hc2);
      [|exact Ho|].
    { apply (Hreplay name t g); [rewrite <- Hc; exact Hin | rewrite <- Hgs; exact Hg]. }
    exists s2. split; [exact Hrun|].
    pose proof (point_decompose_bits name t s1 Hb1) as Hb2.
    pose proof (point_decompose_frame name t s1) as [[Hgs2 Hh2] _].
    rewrite Hrun in Hb2, Hgs2, Hh2. simpl in Hb2, Hgs2, Hh2.
    refine (conj Ho2 (conj Hb2 (conj _ _))); [split|]; congruence.
  - refine (conj Hs (conj Hb (conj _ _))); [apply sameConfig_refl | reflexivity].
  - lia.
  - destruct Hs1 as (_ & Hb1 & [Hgs Hh] & _).
    rewrite <- _buildComponents_eq in Hrun.
    destruct (_glyph_after_build _ fuel flags s comps s1 Hrun Hb1) as [g Hg].
    exists g. rewrite Hg, Hgs, Hh. reflexivity.
Qed.
(** ** The points a decomposition on the point pen adds *)

Lemma point_call_points c s s' :
  TTGlyphPointPen.call c s = Returns tt s' ->
  points s' = points s ++ outlinePoints [c].
Proof.
  destruct c as [|pt segmentType| |name u]; cbn [TTGlyphPointPen.call];
    rewrite ?beginPath_eq, ?endPath_eq, ?addPoint_eq.
  - destruct (currentPath s); [discriminate|]. intros [= <-].
    simpl. rewrite app_nil_r. reflexivity.
  - destruct (currentPath s); [|discriminate].
    destruct (flagOf segmentType); [|discriminate]. intros [= <-]. reflexivity.
  - destruct (currentPath s) as [path|]; [|discriminate]. intros [= <-].
    simpl. rewrite app_nil_r. destruct (truthy path); reflexivity.
  - intros [= <-]. simpl. rewrite app_nil_r. reflexivity.
Qed.

Lemma drawPointsOn_points calls :
  forall s s',
    TTGlyphPointPen.drawPointsOn TTGlyphPointPen.call calls s = Returns tt s' ->
    points s' = points s ++ outlinePoints calls.
Proof.
  induction calls as [|c calls IH]; intros s s'; simpl.
  - intros [= <-]. rewrite app_nil_r. reflexivity.
  - unfold bind.
    destruct (TTGlyphPointPen.call c s) as [[] s1|e s1|s1] eqn:Hcall;
      try discriminate.
    intros Hrun. rewrite (IH s1 s' Hrun), (point_call_points c s s1 Hcall).
    rewrite <- app_assoc. f_equal. simpl. rewrite app_nil_r. reflexivity.
Qed.

Lemma outlinePoints_transformed t calls :
  outlinePoints (map (transformPointCall t) calls)
  = map (transformPoint t) (outlinePoints calls).
Proof.
  induction calls as [|c calls IH]; [reflexivity|].
  unfold outlinePoints in *. cbn [map flat_map].
  rewrite map_app, <- IH. destruct c; reflexivity.
Qed.

Lemma drawPointsTransformed_points name t s s' :
  drawPointsTransformed name t s = Returns tt s' ->
  points s' = points s ++ componentPoints (glyphSet s) (name, t).
Proof.
  unfold drawPointsTransformed, componentPoints. cbn [fst snd].
  destruct (glyphSet s !! name) as [g|]; [|discriminate].
  intros Hrun. rewrite (drawPointsOn_points _ s s' Hrun).
  rewrite outlinePoints_transformed. reflexivity.
Qed.

Lemma drawPointsTransformed_frame name t :
  respects frame (drawPointsTransformed name t).
Proof.
  intros s. rewrite <- point_decompose_hand_drawn. apply point_decompose_frame.
Qed.

(** The loop of decompositions adds, for each component it visits, the
    transformed points of the referenced outline. *)
Lemma decomposeKnownFrom_points fuel :
  forall i s s1,
    decomposeKnownFrom drawPointsTransformed fuel i s = Returns tt s1 ->
    frame s s1
    /\ points s1
       = points s
         ++ flat_map (componentPoints (glyphSet s)) (drop i (components s1)).
Proof.
  induction fuel as [|fuel IH]; intros i s s1; simpl.
  - destruct (components s !! i) as [[name t]|] eqn:Hi; [discriminate|].
    intros [= <-]. split; [apply frame_refl|].
    rewrite drop_ge by (apply lookup_ge_None_1, Hi).
    simpl. rewrite app_nil_r. reflexivity.
  - destruct (components s !! i) as [[name t]|] eqn:Hi.
    2:{ intros [= <-]. split; [apply frame_refl|].
        rewrite drop_ge by (apply lookup_ge_None_1, Hi).
        simpl. rewrite app_nil_r. reflexivity. }
    destruct (glyphSet s !! name) as [g|] eqn:Hg.
    + unfold bind.
      destruct (drawPointsTransformed name t s) as [[] s2|e s2|s2] eqn:Hstep;
        try discriminate.
      intros Hrun. apply IH in Hrun. destruct Hrun as [Hf2 Hp2].
      pose proof (drawPointsTransformed_frame name t s) as Hf.
      rewrite Hstep in Hf. simpl in Hf.
      pose proof (frame_trans _ _ _ Hf Hf2) as Hf1. split; [exact Hf1|].
      destruct Hf1 as [_ [l Hl]]. destruct Hf as [[Hgs _] _].
      assert (Hi1 : components s1 !! i = Some (name, t)).
      { rewrite Hl. apply lookup_app_l_Some, Hi. }
      rewrite (drop_S _ _ _ Hi1). cbn [flat_map].
      rewrite Hp2, (drawPointsTransformed_points name t s s2 Hstep), Hgs.
      apply eq_sym, app_assoc.
    + intros Hrun. apply IH in Hrun. destruct Hrun as [Hf1 Hp1].
      split; [exact Hf1|]. destruct Hf1 as [_ [l Hl]].
      assert (Hi1 : components s1 !! i = Some (name, t)).
      { rewrite Hl. apply lookup_app_l_Some, Hi. }
      rewrite (drop_S _ _ _ Hi1). cbn [flat_map].
      unfold componentPoints at 1. cbn [fst]. rewrite Hg. exact Hp1.
Qed.

(** An invariant of the pen that every decomposition of a pending
    component keeps, holds after the loop. *)
Lemma decomposeKnownFrom_invariant
    (step : string -> Transformation -> Method unit) (I : Pen -> Prop) :
  (forall name t g s s',
     I s -> (name, t) ∈ components s -> glyphSet s !! name = Some g ->
     step name t s = Returns tt s' -> I s') ->
  forall fuel i s s1,
    I s -> decomposeKnownFrom step fuel i s = Returns tt s1 -> I s1.
Proof.
  intros Hstep fuel.
  induction fuel as [|fuel IH]; intros i s s1 Hs; simpl.
  - destruct (components s !! i) as [[name t]|]; [discriminate|].
    intros [= <-]. exact Hs.
  - destruct (components s !! i) as [[name t]|] eqn:Hi.
    2:{ intros [= <-]. exact Hs. }
    destruct (glyphSet s !! name) as [g|] eqn:Hg; [|apply IH; exact Hs].
    unfold bind.
    destruct (step name t s) as [[] s2|e s2|s2] eqn:Hrun; try discriminate.
    apply IH. eapply Hstep; try eassumption.
    eapply list_elem_of_lookup_2, Hi.
Qed.

(** On the point pen, the coordinates of a decomposed glyph are the
    rounded points of the pen followed by the transformed outline points of
    its pending components. *)
Lemma point_decomposed_coordinates fuel s g :
  currentPath s = None ->
  replayablePointOutlines s ->
  decomposedGlyph drawPointsTransformed fuel s g ->
  Glyph.coordinates g
  = map (fun p => (toInt (fst p), toInt (snd p))) (decomposedPoints s).
Proof.
  intros Hs Hreplay (s1 & Hrun & ->). cbn [simpleGlyphOf Glyph.coordinates].
  destruct (decomposeKnownFrom_points fuel 0 s s1 Hrun) as [_ Hp].
  assert (Hc : currentPath s1 = None /\ sameConfig s s1
               /\ components s1 = components s).
  { apply (decomposeKnownFrom_invariant drawPointsTransformed
             (fun s1 => currentPath s1 = None /\ sameConfig s s1
                        /\ components s1 = components s)
             ) with (fuel := fuel) (i := 0%nat) (s := s); [| |exact Hrun].
    - intros name t g0 s2 s3 (Hpath & [Hgs Hh] & Hc) Hin Hg Hstep.
      rewrite <- point_decompose_hand_drawn in Hstep.
      destruct (point_decompose_replays name t g0 s2 Hg) as (s4 & Hrun4 & Hp4 & Hc4);
        [|exact Hpath|].
      { apply (Hreplay name t g0); [rewrite <- Hc; exact Hin | rewrite <- Hgs; exact Hg]. }
      rewrite Hstep in Hrun4. injection Hrun4 as <-.
      pose proof (point_decompose_frame name t s2) as [[Hgs3 Hh3] _].
      rewrite Hstep in Hgs3, Hh3. simpl in Hgs3, Hh3.
      refine (conj Hp4 (conj _ _)); [split|]; congruence.
    - refine (conj Hs (conj _ _)); [apply sameConfig_refl | reflexivity]. }
  destruct Hc as (_ & _ & Hc). rewrite Hp, Hc. reflexivity.
Qed.
(** ** Decomposition and composite glyphs *)

(** A built list that is not empty is what the returned glyph carries. *)
Lemma _glyph_composite (_decompose : string -> Transformation -> Method unit)
    fuel flags s comps s1 g s' :
  TTGlyphBasePen._buildComponents _decompose fuel flags s = Returns comps s1 ->
  TTGlyphBasePen._glyph _decompose fuel flags s = Returns g s' ->
  comps <> [] ->
  compositeOf comps g.
Proof.
  intros Hbuild Hrun Hne. apply _glyph_returns in Hrun.
  destruct Hrun as (comps' & s1' & Hbuild' & _ & ->).
  rewrite Hbuild in Hbuild'. injection Hbuild' as <- <-.
  rewrite _buildComponents_eq in Hbuild.
  apply resolveFrom_exclusive in Hbuild; [|left; reflexivity].
  destruct Hbuild as [?|Hp]; [contradiction|].
  apply truthy_true in Hne. rewrite Hne, Hp. repeat split.
Qed.

(** C2: with overflow handling on, one pending component (known to the
    glyph set or not) with a raw value above 2 or below -2 decides for the
    whole glyph, on either pen.  The built component list is empty.  A
    finalized glyph is the simple glyph, without component list, whose
    outline results from drawing on the pen, for every pending component
    that the glyph set knows (those with all values in range included),
    the transformed outline of the referenced glyph; on the point pen its
    coordinates are the rounded points of the pen followed by the
    transformed outline points of the pending components, when their
    outlines can be replayed.  And finalization does return such a glyph,
    from a pen in good state whose pending outlines can be replayed, given
    one unit of fuel for each pending component. *)
Theorem overflow_decomposes_every_component fuel flags s name t :
  handleOverflowingTransforms s = true ->
  (name, t) ∈ components s ->
  outOfRange (t_a t) \/ outOfRange (t_b t)
  \/ outOfRange (t_c t) \/ outOfRange (t_d t) ->
  (forall comps s',
     TTGlyphBasePen._buildComponents TTGlyphPen._decompose fuel flags s
       = Returns comps s'
     \/ TTGlyphBasePen._buildComponents TTGlyphPointPen._decompose fuel flags s
        = Returns comps s' ->
     comps = [])
  /\ (forall g s',
        TTGlyphPen.glyph fuel flags s = Returns g s' ->
        decomposedGlyph drawTransformed fuel s g
        /\ Glyph.components g = None)
  /\ (forall g s',
        TTGlyphPointPen.glyph fuel flags s = Returns g s' ->
        decomposedGlyph drawPointsTransformed fuel s g
        /\ Glyph.components g = None
        /\ (replayablePointOutlines s ->
            Glyph.coordinates g
            = map (fun p => (toInt (fst p), toInt (snd p)))
                  (decomposedPoints s)))
  /\ (bits s ->
      (length (components s) <= fuel)%nat ->
      (outlineState false s ->
       replayableOutlines s ->
       exists g,
         TTGlyphPen.glyph fuel flags s
         = Returns g (TTGlyphBasePen.new (glyphSet s)
                        (handleOverflowingTransforms s)))
      /\ (currentPath s = None ->
          replayablePointOutlines s ->
          exists g,
            TTGlyphPointPen.glyph fuel flags s
            = Returns g (TTGlyphBasePen.new (glyphSet s)
                           (handleOverflowingTransforms s)))).
Proof.
  intros Hh Hin Hout.
  pose proof (anyOverflow_true _ _ _ Hin Hout) as Hover.
  set (I := fun s1 : Pen => handleOverflowingTransforms s1 = true).
  assert (Hcond : forall s1, I s1 ->
            truthy (points s1)
            || (handleOverflowingTransforms s1
                && (if handleOverflowingTransforms s
                    then TTGlyphBasePen.anyOverflow (components s) else false))
            = true).
  { intros s1 Hs1. red in Hs1. rewrite Hs1, Hh, Hover. apply orb_true_r. }
  assert (Hseg : forall name t s1 s2, I s1 ->
            TTGlyphPen._decompose name t s1 = Returns tt s2 -> I s2).
  { intros ? ? ? ?. apply decompose_keeps_handle, segment_decompose_frame. }
  assert (Hpt : forall name t s1 s2, I s1 ->
            TTGlyphPointPen._decompose name t s1 = Returns tt s2 -> I s2).
  { intros ? ? ? ?. apply decompose_keeps_handle, point_decompose_frame. }
  refine (conj _ (conj _ (conj _ _))).
  - intros comps s' [Hrun|Hrun]; rewrite _buildComponents_eq in Hrun.
    + rewrite (resolveFrom_decomposes _ I _ flags Hcond Hseg fuel 0 [] s Hh) in Hrun.
      apply decomposes_returns in Hrun. apply Hrun.
    + rewrite (resolveFrom_decomposes _ I _ flags Hcond Hpt fuel 0 [] s Hh) in Hrun.
      apply decomposes_returns in Hrun. apply Hrun.
  - intros g s'. rewrite segment_glyph_eq.
    destruct (TTGlyphPen._isClosed s); [|discriminate].
    intros Hrun.
    assert (Hdec : decomposedGlyph drawTransformed fuel s g).
    { apply segment_decomposedGlyph.
      apply (_glyph_decomposed _ I fuel flags s g s'); assumption. }
    split; [exact Hdec|]. destruct Hdec as (s1 & _ & ->). reflexivity.
  - intros g s'. rewrite point_glyph_eq.
    destruct (currentPath s) eqn:Hpath; [discriminate|].
    intros Hrun.
    assert (Hdec : decomposedGlyph drawPointsTransformed fuel s g).
    { apply point_decomposedGlyph.
      apply (_glyph_decomposed _ I fuel flags s g s'); assumption. }
    split; [exact Hdec|]. split.
    + destruct Hdec as (s1 & _ & ->). reflexivity.
    + intros Hreplay. eapply point_decomposed_coordinates; eassumption.
  - intros Hb Hfuel. split.
    + intros Hs Hreplay. apply segment_glyph_replays; assumption.
    + intros Hs Hreplay. apply point_glyph_replays; assumption.
Qed.

End Decomposition.

(** ** Concrete runs of decomposition *)

Lemma example_replayable s :
  glyphSet s = exampleGlyphSet ->
  Forall (fun c => fst c = "A"%string) (components s) ->
  replayableOutlines s /\ replayablePointOutlines s.
Proof.
  intros Hgs HA. rewrite Forall_forall in HA.
  split; intros name t g Hin Hg; specialize (HA _ Hin); simpl in HA; subst name;
    rewrite Hgs in Hg; unfold exampleGlyphSet in Hg;
    apply lookup_insert_Some in Hg as [[_ <-]|[Hne _]];
    solve [reflexivity | congruence].
Defined.

(** C2 at a new pen with two pending components "A", the first scaled by
    3: on the segment pen and on the point pen both are decomposed, the
    second although its values are in range, and the glyph holds the
    outline of "A" scaled by 3 followed by the outline of "A". *)
Lemma overflow_decomposes_every_component_witness :
  let s := set_components [("A"%string, Affine 3 0 0 1 0 0);
                           ("A"%string, Affine 1 0 0 1 0 0)] freshPen in
  let g := Glyph.mk [(0, 0); (0, 100); (300, 0); (0, 0); (0, 100); (100, 0)]
                    [2; 5] [1; 1; 1; 1; 1; 1] 2 None (Some []) in
  handleOverflowingTransforms s = true
  /\ outOfRange 3
  /\ (@TTGlyphPen.glyph exactFontTools 2 4 s = Returns g freshPen
      /\ @decomposedGlyph exactFontTools (@drawTransformed exactFontTools) 2 s g
      /\ Glyph.components g = None)
  /\ (@TTGlyphPointPen.glyph exactFontTools 2 4 s = Returns g freshPen
      /\ @decomposedGlyph exactFontTools (@drawPointsTransformed exactFontTools)
           2 s g
      /\ Glyph.components g = None
      /\ Glyph.coordinates g
         = map (fun p => (@toInt exactFontTools (fst p),
                          @toInt exactFontTools (snd p)))
               (@decomposedPoints exactFontTools s))
  /\ (exists g', @TTGlyphPen.glyph exactFontTools 2 4 s = Returns g' freshPen)
  /\ (exists g', @TTGlyphPointPen.glyph exactFontTools 2 4 s = Returns g' freshPen).
Proof.
  intros s g.
  assert (Hseg : @TTGlyphPen.glyph exactFontTools 2 4 s = Returns g freshPen)
    by (vm_compute; reflexivity).
  assert (Hpt : @TTGlyphPointPen.glyph exactFontTools 2 4 s = Returns g freshPen)
    by (vm_compute; reflexivity).
  assert (Hout : outOfRange 3) by (left; reflexivity).
  assert (Hin : ("A"%string, Affine 3 0 0 1 0 0) ∈ components s)
    by (apply list_elem_of_In; left; reflexivity).
  assert (Hb : bits s) by constructor.
  assert (Hs : outlineState false s).
  { unfold outlineState, contoursOrdered, flagged, startPt, pyLen. simpl.
    repeat split; repeat constructor. }
  destruct (example_replayable s eq_refl) as [Hr Hrp];
    [repeat constructor|].
  destruct (@overflow_decomposes_every_component exactFontTools 2 4 s "A"%string
              (Affine 3 0 0 1 0 0) eq_refl Hin (or_introl Hout))
    as (_ & Hsegment & Hpoint & Htotal).
  split; [reflexivity|]. split; [exact Hout|].
  split; [exact (conj Hseg (Hsegment g freshPen Hseg))|].
  split.
  { destruct (Hpoint g freshPen Hpt) as (Hdec & Hnone & Hcoord).
    exact (conj Hpt (conj Hdec (conj Hnone (Hcoord Hrp)))). }
  destruct (Htotal Hb (le_n 2)) as [Htseg Htpt].
  split; [exact (Htseg Hs Hr) | exact (Htpt eq_refl Hrp)].
Defined.

(** The pen of the run below is the one these calls leave. *)
Example stray_pen_is_drawn :
  TTGlyphPen.drawOn TTGlyphPen.call
    [MoveTo (1, 1)%Q; LineTo (1, 1)%Q; ClosePath;
     AddComponent "Z" (Affine 1 0 0 1 0 0); AddComponent "A" (Affine 1 0 0 1 0 0)]
    (TTGlyphBasePen.new strayGlyphSet true)
  = Returns tt strayPen.
Proof. vm_compute. reflexivity. Qed.


